(** * basicstats.c: descriptive statistics over a growable buffer of doubles

    A shallow embedding of [basicstats.c] and the properties of its
    statistics routines and of its buffer growth.

    Modelling conventions.
    - A C [double] is an IEEE-754 binary64 number, modelled by Rocq's
      primitive [float]; every arithmetic operation rounds to nearest-even
      as the hardware does (no extended precision, no contraction).
    - A C [int] is modelled by [Z].  The only [int] operation that can leave
      the 32-bit range is the doubling of the capacity, which is checked.
      Loop counters stay below [size].
    - A heap block of doubles is a list of cells; a cell that was never
      written is [None], and reading it (or reading outside the block) is
      undefined behaviour.
    - A loop that may not terminate takes a bound on the number of times its
      body may run. *)

From Stdlib Require Import ZArith Lia Bool QArith Qabs Lqa.
From Stdlib Require Import Floats.
From stdpp Require Import base option list gmap.
From stdpp Require Import sorting.

Local Open Scope Z_scope.

(** Linear arithmetic with division and remainder by constants. *)
Ltac lia_div := zify; Z.to_euclidean_division_equations; lia.

(* ================================================================= *)
(** ** Scalars *)

Abbreviation double := float.

Definition INT_MAX : Z := 2147483647.

(** The conversion [(double) n] of an [int]. *)
Definition double_of_int (n : Z) : double :=
  if n <? 0 then (- of_uint63 (Uint63.of_Z (- n)))%float
  else of_uint63 (Uint63.of_Z n).

(** The exact rational value of a finite double (0 for the others). *)
Definition SF2Q (s : spec_float) : Q :=
  match s with
  | S754_finite sg m e =>
      let v := match e with
               | Zneg p => Qmake (Zpos m) (2 ^ p)%positive
               | _ => inject_Z (Zpos m * 2 ^ e)
               end in
      if sg then Qopp v else v
  | _ => 0%Q
  end.

Definition Qval (x : double) : Q := SF2Q (Prim2SF x).

(* ================================================================= *)
(** ** Outcomes of a computation *)

Inductive outcome (A : Type) : Type :=
  | Ret (a : A)      (* the call returns [a] *)
  | Undefined        (* undefined behaviour: bad read, bad free, overflow *)
  | OutOfFuel.       (* the loop bound was reached with the guard still true *)

Arguments Ret {A} a.
Arguments Undefined {A}.
Arguments OutOfFuel {A}.

Definition obind {A B : Type} (m : outcome A) (k : A -> outcome B) : outcome B :=
  match m with
  | Ret a => k a
  | Undefined => Undefined
  | OutOfFuel => OutOfFuel
  end.

Notation "'let*' x ':=' m 'in' k" := (obind m (fun x => k))
  (at level 10, x pattern, m at level 100, k at level 200).

(* ================================================================= *)
(** ** Blocks of doubles *)

Abbreviation cell := (option double).
Abbreviation block := (list cell).

(** [data[i]] as an rvalue. *)
Definition load (data : block) (i : Z) : outcome double :=
  if i <? 0 then Undefined
  else match data !! Z.to_nat i with
       | Some (Some v) => Ret v
       | _ => Undefined
       end.

(** [data[i] = v]. *)
Definition store (data : block) (i : Z) (v : double) : outcome block :=
  if (i <? 0) || (Z.of_nat (length data) <=? i) then Undefined
  else Ret (<[Z.to_nat i := Some v]> data).

(** A block holding exactly the values [l], followed by [junk]. *)
Definition holds (l : list double) (junk : block) : block :=
  (Some <$> l) ++ junk.

(* ================================================================= *)
(** ** Counted loops: [for (i = lo; i < hi; i++) s = body i s] *)

Fixpoint for_iter {S : Type} (n : nat) (i : Z) (body : Z -> S -> outcome S)
    (s : S) : outcome S :=
  match n with
  | O => Ret s
  | Datatypes.S n' => let* s' := body i s in for_iter n' (i + 1) body s'
  end.

Definition for_loop {S : Type} (lo hi : Z) (body : Z -> S -> outcome S)
    (s : S) : outcome S :=
  for_iter (Z.to_nat (hi - lo)) lo body s.

(* ================================================================= *)
(** ** The statistics routines *)

(** [babylonian_sqrt]: [fuel] bounds the number of executions of the body of
    [while (x - y > e)]. *)
Definition e : double := 0x1.0c6f7a0b5ed8dp-20%float. (* the double 0.000001 *)

Fixpoint babylonian_loop (fuel : nat) (value x y : double) : outcome double :=
  if (e <? x - y)%float then
    match fuel with
    | O => OutOfFuel
    | Datatypes.S fuel' =>
        let x' := ((x + y) / 2)%float in
        let y' := (value / x')%float in
        babylonian_loop fuel' value x' y'
    end
  else Ret x.

Definition babylonian_sqrt (fuel : nat) (value : double) : outcome double :=
  babylonian_loop fuel value value 1%float.

Definition calculate_mean (data : block) (size : Z) : outcome double :=
  let* sum := for_loop 0 size
                (fun i sum => let* x := load data i in Ret (sum + x)%float)
                0%float in
  Ret (sum / double_of_int size)%float.

Definition calculate_stddev (fuel : nat) (data : block) (size : Z)
    (mean : double) : outcome double :=
  let* sum_sq := for_loop 0 size
                   (fun i sum_sq =>
                      let* x := load data i in
                      let diff := (x - mean)%float in
                      Ret (sum_sq + diff * diff)%float)
                   0%float in
  babylonian_sqrt fuel (sum_sq / double_of_int size)%float.

Definition calculate_median (data : block) (size : Z) : outcome double :=
  if Z.rem size 2 =? 0 then
    let* a := load data (Z.quot size 2 - 1) in
    let* b := load data (Z.quot size 2) in
    Ret ((a + b) / 2)%float
  else load data (Z.quot size 2).

(** The loop state of [calculate_mode] is [(mode, max_count, count)]. *)
Definition mode_body (data : block) (i : Z) (st : double * Z * Z)
    : outcome (double * Z * Z) :=
  let '(mode, max_count, count) := st in
  let* cur := load data i in
  let* prev := load data (i - 1) in
  if (cur =? prev)%float then Ret (mode, max_count, count + 1)
  else if max_count <? count then Ret (prev, count, 1)
  else Ret (mode, max_count, 1).

Definition calculate_mode (data : block) (size : Z) : outcome double :=
  let* mode := load data 0 in
  let* st := for_loop 1 size (mode_body data) (mode, 1, 1) in
  Ret (fst (fst st)).

Definition calculate_harmonic_mean (data : block) (size : Z) : outcome double :=
  let* denominator_sum :=
    for_loop 0 size
      (fun i s => let* x := load data i in Ret (s + 1 / x)%float)
      0%float in
  Ret (double_of_int size / denominator_sum)%float.

Definition compare_double (a b : double) : Z :=
  let diff := (a - b)%float in
  (if (0 <? diff)%float then 1 else 0) - (if (diff <? 0)%float then 1 else 0).

(* ================================================================= *)
(** ** The heap and the allocator *)

Abbreviation loc := nat.

(** The live blocks, and the outcomes of the coming calls of [malloc]
    ([false]: the call returns [NULL]); once the list is used up every call
    succeeds. *)
Record world : Type := World {
  heap : gmap loc block;
  alloc_ok : list bool;
}.

(** [malloc (n * sizeof (double))]: a fresh block of [n] unwritten cells, or
    [NULL]. *)
Definition malloc (n : Z) (w : world) : option loc * world :=
  match alloc_ok w with
  | false :: rest => (None, World (heap w) rest)
  | _ =>
      let p := fresh (dom (heap w)) in
      (Some p, World (<[p := replicate (Z.to_nat n) None]> (heap w))
                     (tail (alloc_ok w)))
  end.

Definition free (p : loc) (w : world) : outcome world :=
  match heap w !! p with
  | Some _ => Ret (World (delete p (heap w)) (alloc_ok w))
  | None => Undefined
  end.

(** [memcpy (dst, src, n * sizeof (double))]. *)
Definition memcpy (dst src : loc) (n : Z) (w : world) : outcome world :=
  match heap w !! dst, heap w !! src with
  | Some d, Some s =>
      if (0 <=? n) && (n <=? Z.of_nat (length d)) && (n <=? Z.of_nat (length s))
      then Ret (World (<[dst := take (Z.to_nat n) s ++ drop (Z.to_nat n) d]> (heap w))
                      (alloc_ok w))
      else Undefined
  | _, _ => Undefined
  end.

(** [p[i] = v] through a pointer. *)
Definition store_at (p : loc) (i : Z) (v : double) (w : world) : outcome world :=
  match heap w !! p with
  | Some blk =>
      let* blk' := store blk i v in
      Ret (World (<[p := blk']> (heap w)) (alloc_ok w))
  | None => Undefined
  end.

(** [enlarge_array (old_array, old_size, &capacity)] returns the new pointer
    ([None] for [NULL]), the value left in [capacity] and the new world. *)
Definition enlarge_array (old_array : loc) (old_size : Z) (capacity : Z)
    (w : world) : outcome (option loc * Z * world) :=
  let new_capacity := 2 * capacity in
  if INT_MAX <? new_capacity then Undefined
  else
    match malloc new_capacity w with
    | (None, w1) => Ret (None, new_capacity, w1)
    | (Some new_array, w1) =>
        let* w2 := memcpy new_array old_array old_size w1 in
        let* w3 := free old_array w2 in
        Ret (Some new_array, new_capacity, w3)
    end.

(* ================================================================= *)
(** ** [main] *)

Inductive exit_status : Type := EXIT_SUCCESS | EXIT_FAILURE.

(** The variables [data], [size] and [capacity] of [main]. *)
Record buffer : Type := Buffer {
  data : loc;
  size : Z;
  capacity : Z;
}.

(** What [print_results] receives. *)
Record report : Type := Report {
  r_size : Z;
  r_capacity : Z;
  r_mean : double;
  r_median : double;
  r_mode : double;
  r_stddev : double;
  r_harmonic_mean : double;
}.

(** The body of the reading loop, once [fscanf] has delivered [value].
    [None] in place of the buffer: [main] has returned [EXIT_FAILURE]. *)
Definition main_loop_body (value : double) (b : buffer) (w : world)
    : outcome (option buffer * world) :=
  let* (b1, w1) :=
    (if size b =? capacity b then
       let* (new_data, new_capacity, w1) :=
         enlarge_array (data b) (size b) (capacity b) w in
       match new_data with
       | None => let* w2 := free (data b) w1 in Ret (None, w2)
       | Some p => Ret (Some (Buffer p (size b) new_capacity), w1)
       end
     else Ret (Some b, w)) in
  match b1 with
  | None => Ret (None, w1)
  | Some b1 =>
      let* w2 := store_at (data b1) (size b1) value w1 in
      Ret (Some (Buffer (data b1) (size b1 + 1) (capacity b1)), w2)
  end.

(** The reading loop over the numbers of the file, in order.  The result
    carries the values that were not read. *)
Fixpoint main_loop (input : list double) (b : buffer) (w : world)
    : outcome (option buffer * list double * world) :=
  match input with
  | [] => Ret (Some b, [], w)
  | value :: rest =>
      let* (ob, w1) := main_loop_body value b w in
      match ob with
      | None => Ret (None, rest, w1)
      | Some b1 => main_loop rest b1 w1
      end
  end.

(** The first [n] cells of a block, when all of them were written. *)
Definition written (blk : block) (n : Z) : outcome (list double) :=
  if (n <? 0) || (Z.of_nat (length blk) <? n) then Undefined
  else match mapM id (take (Z.to_nat n) blk) with
       | Some l => Ret l
       | None => Undefined
       end.

Section Main.

(** [qsort] of the C library, called with [compare_double]. *)
Variable qsort : (double -> double -> Z) -> list double -> list double.

(** [file]: the numbers [fscanf] delivers from the file named by
    [argv[1]], or [None] when it cannot be opened. *)
Definition main (fuel : nat) (argc : Z) (file : option (list double))
    (w : world) : outcome (exit_status * option report * world) :=
  if negb (argc =? 2) then Ret (EXIT_FAILURE, None, w)
  else
    match malloc 20 w with
    | (None, w1) => Ret (EXIT_FAILURE, None, w1)
    | (Some p, w1) =>
        match file with
        | None => let* w2 := free p w1 in Ret (EXIT_FAILURE, None, w2)
        | Some input =>
            let* (ob, _, w2) := main_loop input (Buffer p 0 20) w1 in
            match ob with
            | None => Ret (EXIT_FAILURE, None, w2)
            | Some b =>
                match heap w2 !! data b with
                | None => Undefined
                | Some blk =>
                    let* l := written blk (size b) in
                    let sorted :=
                      holds (qsort compare_double l)
                            (drop (Z.to_nat (size b)) blk) in
                    let w3 := World (<[data b := sorted]> (heap w2))
                                    (alloc_ok w2) in
                    let* mean := calculate_mean sorted (size b) in
                    let* median := calculate_median sorted (size b) in
                    let* mode := calculate_mode sorted (size b) in
                    let* stddev :=
                      calculate_stddev fuel sorted (size b) mean in
                    let* harmonic_mean :=
                      calculate_harmonic_mean sorted (size b) in
                    let* w4 := free (data b) w3 in
                    Ret (EXIT_SUCCESS,
                         Some (Report (size b) (capacity b) mean median mode
                                      stddev harmonic_mean),
                         w4)
                end
            end
        end
    end.

End Main.

(* ================================================================= *)
(** ** Notions the statements are written with *)

(** The sum of a sequence as the loops compute it: from [+0], left to right,
    every addition rounded. *)
Definition fsum (l : list double) : double := fold_left PrimFloat.add l 0%float.

Definition reciprocal (x : double) : double := (1 / x)%float.

Definition sq_dev (mean x : double) : double := ((x - mean) * (x - mean))%float.

(** The maximal runs of neighbours that [==] holds of, in order. *)
Fixpoint runs (l : list double) : list (list double) :=
  match l with
  | [] => []
  | x :: l' =>
      match runs l' with
      | (y :: r) :: rs =>
          if (y =? x)%float then (x :: y :: r) :: rs else [x] :: (y :: r) :: rs
      | _ => [[x]]
      end
  end.

(** The estimates [(x, y)] of [babylonian_sqrt] after [n] executions of the
    loop body, and the loop guard on them. *)
Definition bab_step (value : double) (s : double * double) : double * double :=
  let x' := ((fst s + snd s) / 2)%float in (x', (value / x')%float).

Definition bab_iter (value : double) (n : nat) : double * double :=
  Nat.iter n (bab_step value) (value, 1%float).

Definition bab_guard (s : double * double) : bool := (e <? fst s - snd s)%float.

(** The capacity after [k] more values were appended to a buffer of [n]
    values and capacity [c]. *)
Fixpoint capacity_after (c n : Z) (k : nat) : Z :=
  match k with
  | O => c
  | Datatypes.S k' => capacity_after (if n =? c then 2 * c else c) (n + 1) k'
  end.

(** The allocator never fails. *)
Definition never_fails (w : world) : Prop := Forall (eq true) (alloc_ok w).

(** Every element of [r] but the first is [==] to the one before it. *)
Fixpoint chained (r : list double) : Prop :=
  match r with
  | x :: ((y :: _) as r') => (y =? x)%float = true /\ chained r'
  | _ => True
  end.

(** One iteration of the loop of [calculate_mode] on the neighbours
    [prev = data[i-1]] and [cur = data[i]], and the whole loop over the values
    that follow [prev]. *)
Definition mode_update (prev cur : double) (st : double * Z * Z)
    : double * Z * Z :=
  let '(mode, max_count, count) := st in
  if (cur =? prev)%float then (mode, max_count, count + 1)
  else if max_count <? count then (prev, count, 1)
  else (mode, max_count, 1).

Fixpoint mode_scan (prev : double) (rest : list double) (st : double * Z * Z)
    : double * Z * Z :=
  match rest with
  | [] => st
  | cur :: rest' => mode_scan cur rest' (mode_update prev cur st)
  end.

(** The choice among completed runs, each given by its length and its last
    element: a run replaces the current choice when it is strictly longer. *)
Fixpoint pick_run (mode : double) (max_count : Z) (rs : list (Z * double))
    : double :=
  match rs with
  | [] => mode
  | (n, v) :: rs' =>
      if max_count <? n then pick_run v n rs' else pick_run mode max_count rs'
  end.

Definition run_summary (r : list double) : Z * double :=
  (Z.of_nat (length r), default 0%float (last r)).

(** The buffer [b] holds exactly the values [l], in order, in a live block
    of [capacity b] cells. *)
Definition buffer_inv (b : buffer) (w : world) (l : list double) : Prop :=
  heap w !! data b
    = Some (holds l (replicate (Z.to_nat (capacity b - size b)) None))
  /\ size b = Z.of_nat (length l)
  /\ size b <= capacity b
  /\ 0 < capacity b.

(** The guard of the square root loop holds at every index up to [n]. *)
Definition guard_holds_upto (value : double) (n : nat) : bool :=
  forallb (fun k => bab_guard (bab_iter value k)) (seq 0 (S n)).

(** The double nearest to 0.1. *)
Definition tenth : double := 0x1.999999999999ap-4%float.

(** The position of a double on the line of integers: a finite double
    [m * 2 ^ ex] counts in units of the least subnormal [2 ^ -1074], and the
    infinities lie beyond every finite double.  Both zeros are at 0. *)
Definition SFkey (f : spec_float) : Z :=
  match f with
  | S754_zero _ => 0
  | S754_infinity s => if s then - 2 ^ 2098 else 2 ^ 2098
  | S754_nan => 0
  | S754_finite s m ex => if s then - (Z.pos m * 2 ^ (ex + 1074))
                          else Z.pos m * 2 ^ (ex + 1074)
  end.

Definition SFis_nan (f : spec_float) : bool :=
  match f with S754_nan => true | _ => false end.

Definition dkey (x : double) : Z := SFkey (Prim2SF x).

(** The sign bit is clear and the value is a number: [+0], a positive finite
    double or [+infinity]. *)
Definition SFsign_clear (f : spec_float) : bool :=
  match f with
  | S754_zero s | S754_infinity s | S754_finite s _ _ => negb s
  | S754_nan => false
  end.

(** A NaN, or a number with its sign bit clear. *)
Definition SFnot_negative (f : spec_float) : bool := SFis_nan f || SFsign_clear f.

Definition sign_clear (x : double) : bool := SFsign_clear (Prim2SF x).
Definition not_negative (x : double) : bool := SFnot_negative (Prim2SF x).

(** The data are in the order [qsort] leaves them in: no element compares
    above its successor. *)
Fixpoint sorted_by_compare (l : list double) : Prop :=
  match l with
  | x :: ((y :: _) as l') => compare_double x y <= 0 /\ sorted_by_compare l'
  | _ => True
  end.

(** No element is a NaN. *)
Definition no_nan (l : list double) : Prop :=
  Forall (fun x => PrimFloat.is_nan x = false) l.

(** The number of elements of [l] that [==] holds of with [a]. *)
Fixpoint occurrences (a : double) (l : list double) : nat :=
  match l with
  | [] => 0
  | x :: l' => (if (x =? a)%float then 1 else 0) + occurrences a l'
  end.

(** The key of the first element of a run. *)
Definition run_key (r : list double) : Z := dkey (default 0%float (head r)).

(* ================================================================= *)
(** * Properties *)

(** ** Outcomes, blocks and counted loops *)

Lemma load_holds (l : list double) (junk : block) (i : nat) (x : double) :
  l !! i = Some x -> load (holds l junk) (Z.of_nat i) = Ret x.
Proof.
  intros Hi. unfold load, holds.
  destruct (Z.ltb_spec (Z.of_nat i) 0) as [Hneg|_]; [lia|].
  rewrite Nat2Z.id, lookup_app_l by (rewrite length_fmap; eauto using lookup_lt_Some).
  by rewrite list_lookup_fmap, Hi.
Qed.

Lemma load_holds_middle (pre l : list double) (junk : block) (x : double) :
  load (holds (pre ++ x :: l) junk) (Z.of_nat (length pre)) = Ret x.
Proof. apply load_holds. by rewrite list_lookup_middle. Qed.

(** A loop that reads [data[i]] and folds it into its state computes a left
    fold over the values. *)
Lemma for_iter_fold {S : Type} (f : S -> double -> S) (l pre : list double)
    (junk : block) (s : S) :
  for_iter (length l) (Z.of_nat (length pre))
    (fun i s => let* x := load (holds (pre ++ l) junk) i in Ret (f s x)) s
  = Ret (fold_left f l s).
Proof.
  revert pre s. induction l as [|x l IH]; intros pre s; [done|].
  cbn [for_iter length fold_left]. rewrite load_holds_middle. cbn [obind].
  specialize (IH (pre ++ [x]) (f s x)).
  rewrite <- app_assoc, length_app in IH. cbn in IH.
  replace (Z.of_nat (length pre) + 1) with (Z.of_nat (length pre + 1)) by lia.
  exact IH.
Qed.

Lemma for_loop_fold {S : Type} (f : S -> double -> S) (l : list double)
    (junk : block) (s : S) :
  for_loop 0 (Z.of_nat (length l))
    (fun i s => let* x := load (holds l junk) i in Ret (f s x)) s
  = Ret (fold_left f l s).
Proof.
  unfold for_loop. rewrite Z.sub_0_r, Nat2Z.id.
  exact (for_iter_fold f l [] junk s).
Qed.

Lemma fold_left_fsum_map (g : double -> double) (l : list double) (s : double) :
  fold_left (fun s x => (s + g x)%float) l s = fold_left PrimFloat.add (g <$> l) s.
Proof. revert s. induction l as [|x l IH]; intros s; cbn; [done|apply IH]. Qed.

Lemma calculate_mean_eq (l : list double) (junk : block) :
  calculate_mean (holds l junk) (Z.of_nat (length l))
  = Ret (fsum l / double_of_int (Z.of_nat (length l)))%float.
Proof.
  unfold calculate_mean.
  by rewrite (for_loop_fold (fun s x => (s + x)%float) l junk).
Qed.

Lemma calculate_harmonic_mean_eq (l : list double) (junk : block) :
  calculate_harmonic_mean (holds l junk) (Z.of_nat (length l))
  = Ret (double_of_int (Z.of_nat (length l)) / fsum (reciprocal <$> l))%float.
Proof.
  unfold calculate_harmonic_mean.
  rewrite (for_loop_fold (fun s x => (s + 1 / x)%float) l junk). cbn [obind].
  by rewrite (fold_left_fsum_map reciprocal).
Qed.

Lemma calculate_stddev_eq (fuel : nat) (l : list double) (junk : block)
    (mean : double) :
  calculate_stddev fuel (holds l junk) (Z.of_nat (length l)) mean
  = babylonian_sqrt fuel
      (fsum (sq_dev mean <$> l) / double_of_int (Z.of_nat (length l)))%float.
Proof.
  unfold calculate_stddev.
  rewrite (for_loop_fold (fun s x => (s + sq_dev mean x)%float) l junk).
  cbn [obind]. by rewrite (fold_left_fsum_map (sq_dev mean)).
Qed.

(** ** The median *)

Lemma load_holds_Z (l : list double) (junk : block) (i : Z) (x : double) :
  0 <= i -> l !! Z.to_nat i = Some x -> load (holds l junk) i = Ret x.
Proof. intros Hi Hx. rewrite <- (Z2Nat.id i) by done. by apply load_holds. Qed.

Lemma calculate_median_index (l : list double) (junk : block) :
  (1 <= length l)%nat ->
  if Nat.even (length l) then
    exists a b,
      l !! (length l / 2 - 1)%nat = Some a /\ l !! (length l / 2)%nat = Some b
      /\ calculate_median (holds l junk) (Z.of_nat (length l))
         = Ret ((a + b) / 2)%float
  else
    exists m,
      l !! (length l / 2)%nat = Some m
      /\ calculate_median (holds l junk) (Z.of_nat (length l)) = Ret m.
Proof.
  intros Hlen. unfold calculate_median.
  rewrite Z.rem_mod_nonneg, Z.quot_div_nonneg by lia.
  destruct (Nat.even (length l)) eqn:Heven.
  - apply Nat.even_spec in Heven as [k Hk].
    assert (length l / 2 = k)%nat as Hhalf
      by (symmetry; apply (Nat.div_unique _ 2 k 0); lia).
    destruct (lookup_lt_is_Some_2 l (k - 1)) as [a Ha]; [lia|].
    destruct (lookup_lt_is_Some_2 l k) as [b Hb]; [lia|].
    exists a, b. rewrite Hhalf. repeat split; [done..|].
    replace (Z.of_nat (length l) `mod` 2) with 0 by lia_div. cbn [Z.eqb].
    rewrite (load_holds_Z l junk _ a), (load_holds_Z l junk _ b); [done|lia_div| |lia_div|].
    + by replace (Z.to_nat (Z.of_nat (length l) `div` 2)) with k by lia_div.
    + by replace (Z.to_nat (Z.of_nat (length l) `div` 2 - 1)) with (k - 1)%nat by lia_div.
  - assert (Nat.odd (length l) = true) as Hodd
      by (by rewrite <- Nat.negb_even, Heven).
    apply Nat.odd_spec in Hodd as [k Hk].
    assert (length l / 2 = k)%nat as Hhalf
      by (symmetry; apply (Nat.div_unique _ 2 k 1); lia).
    destruct (lookup_lt_is_Some_2 l k) as [m Hm]; [lia|].
    exists m. rewrite Hhalf. split; [done|].
    replace (Z.of_nat (length l) `mod` 2) with 1 by lia_div. cbn [Z.eqb].
    apply load_holds_Z; [lia_div|].
    by replace (Z.to_nat (Z.of_nat (length l) `div` 2)) with k by lia_div.
Qed.

(** The two indices of the even case, and the index of the odd case, are the
    central positions of the sequence. *)
Lemma median_positions_central (l : list double) :
  (1 <= length l)%nat ->
  if Nat.even (length l) then
    exists l1 a b l2, l = l1 ++ a :: b :: l2 /\ length l1 = length l2
      /\ length l1 = (length l / 2 - 1)%nat
  else
    exists l1 m l2, l = l1 ++ m :: l2 /\ length l1 = length l2
      /\ length l1 = (length l / 2)%nat.
Proof.
  intros Hlen. destruct (Nat.even (length l)) eqn:Heven.
  - apply Nat.even_spec in Heven as [k Hk].
    assert (length l / 2 = k)%nat as ->
      by (symmetry; apply (Nat.div_unique _ 2 k 0); lia).
    destruct (drop (k - 1) l) as [|a [|b l2]] eqn:Hd;
      pose proof (length_drop l (k - 1)) as Hdl; rewrite Hd in Hdl;
      cbn [length] in Hdl; [lia..|].
    exists (take (k - 1) l), a, b, l2. rewrite length_take.
    split; [by rewrite <- Hd, take_drop|lia].
  - assert (Nat.odd (length l) = true) as Hodd
      by (by rewrite <- Nat.negb_even, Heven).
    apply Nat.odd_spec in Hodd as [k Hk].
    assert (length l / 2 = k)%nat as ->
      by (symmetry; apply (Nat.div_unique _ 2 k 1); lia).
    destruct (drop k l) as [|m l2] eqn:Hd;
      pose proof (length_drop l k) as Hdl; rewrite Hd in Hdl;
      cbn [length] in Hdl; [lia|].
    exists (take k l), m, l2. rewrite length_take.
    split; [by rewrite <- Hd, take_drop|lia].
Qed.

(** ** The mode *)

Lemma for_iter_mode (rest pre : list double) (prev : double) (junk : block)
    (st : double * Z * Z) :
  for_iter (length rest) (Z.of_nat (length pre) + 1)
    (mode_body (holds (pre ++ prev :: rest) junk)) st
  = Ret (mode_scan prev rest st).
Proof.
  revert pre prev st. induction rest as [|cur rest IH]; intros pre prev st; [done|].
  cbn [for_iter length mode_scan].
  destruct st as [[mode max_count] count]. unfold mode_body at 1.
  replace (Z.of_nat (length pre) + 1) with (Z.of_nat (length (pre ++ [prev])))
    by (rewrite length_app; cbn; lia).
  replace (pre ++ prev :: cur :: rest) with ((pre ++ [prev]) ++ cur :: rest)
    by (by rewrite <- app_assoc).
  rewrite load_holds_middle. cbn [obind].
  replace (Z.of_nat (length (pre ++ [prev])) - 1) with (Z.of_nat (length pre))
    by (rewrite length_app; cbn; lia).
  rewrite <- app_assoc. cbn [app]. rewrite load_holds_middle. cbn [obind].
  specialize (IH (pre ++ [prev]) cur (mode_update prev cur (mode, max_count, count))).
  rewrite <- app_assoc in IH. cbn [app] in IH.
  rewrite length_app in *. cbn [length] in *.
  replace (Z.of_nat (length pre + 1) + 1) with (Z.of_nat (length pre + 1 + 1)) in * by lia.
  replace (Z.of_nat (length pre + 1)%nat + 1) with (Z.of_nat (length pre + 1 + 1)) by lia.
  unfold mode_update in IH |- *.
  destruct (cur =? prev)%float; [exact IH|].
  destruct (max_count <? count); exact IH.
Qed.

Lemma runs_cons_shape (x : double) (l : list double) :
  exists r rs, runs (x :: l) = (x :: r) :: rs.
Proof.
  cbn. destruct (runs l) as [|[|y r] rs]; eauto.
  destruct (y =? x)%float; eauto.
Qed.

Lemma runs_nonempty (l : list double) : Forall (fun r => r <> []) (runs l).
Proof.
  induction l as [|x l IH]; cbn; [constructor|].
  destruct (runs l) as [|[|y r] rs]; [by repeat constructor..|].
  destruct (y =? x)%float.
  - constructor; [done|]. by inversion IH.
  - by constructor.
Qed.

Lemma concat_runs (l : list double) : concat (runs l) = l.
Proof.
  induction l as [|x l IH]; [done|]. cbn.
  pose proof (runs_nonempty l) as Hne.
  destruct (runs l) as [|[|y r] rs]; cbn in *.
  - by rewrite <- IH.
  - by inversion Hne.
  - destruct (y =? x)%float; cbn; by rewrite <- IH.
Qed.

Lemma runs_chained (l : list double) : Forall chained (runs l).
Proof.
  induction l as [|x l IH]; cbn; [constructor|].
  destruct (runs l) as [|[|y r] rs]; [by repeat constructor..|].
  destruct (y =? x)%float eqn:Hyx.
  - inversion IH; subst. constructor; [|done]. by split.
  - constructor; [exact I|done].
Qed.

(** Neighbouring runs are separated: the first element of a run is not [==]
    to the last element of the run before it. *)
Lemma runs_separated (l : list double) (pre post : list (list double))
    (r1 r2 : list double) (a b : double) :
  runs l = pre ++ r1 :: r2 :: post -> last r1 = Some a -> head r2 = Some b ->
  (b =? a)%float = false.
Proof.
  revert pre r1. induction l as [|x l IH]; intros pre r1 Hruns Ha Hb.
  { by destruct pre. }
  cbn in Hruns. destruct (runs l) as [|[|y r] rs] eqn:Hl.
  - destruct pre as [|? [|? ?]]; discriminate.
  - pose proof (runs_nonempty l) as Hne. rewrite Hl in Hne.
    inversion Hne; congruence.
  - destruct (y =? x)%float eqn:Hyx.
    + destruct pre as [|p pre]; cbn in Hruns.
      * inversion Hruns; subst.
        apply (IH [] (y :: r)); [done| |done].
        by destruct r.
      * inversion Hruns; subst. by apply (IH ((y :: r) :: pre) r1).
    + destruct pre as [|p pre]; cbn in Hruns.
      * inversion Hruns; subst. cbn in Ha, Hb. congruence.
      * inversion Hruns; subst. by apply (IH pre r1).
Qed.

Lemma mode_scan_runs (rest : list double) (prev mode : double)
    (max_count count : Z) (r1 : list double) (rs : list (list double)) :
  runs (prev :: rest) = r1 :: rs ->
  fst (fst (mode_scan prev rest (mode, max_count, count)))
  = pick_run mode max_count
      (removelast ((count - 1 + Z.of_nat (length r1), default 0%float (last r1))
                   :: (run_summary <$> rs))).
Proof.
  revert prev mode max_count count r1 rs.
  induction rest as [|cur rest IH]; intros prev mode max_count count r1 rs Hruns.
  { cbn in Hruns. by inversion Hruns. }
  destruct (runs_cons_shape cur rest) as (r & rs' & Hshape).
  change (runs (prev :: cur :: rest))
    with (match runs (cur :: rest) with
          | (y :: r) :: rs =>
              if (y =? prev)%float then (prev :: y :: r) :: rs
              else [prev] :: (y :: r) :: rs
          | _ => [[prev]]
          end) in Hruns.
  rewrite Hshape in Hruns. cbn [mode_scan mode_update].
  destruct (cur =? prev)%float.
  - inversion Hruns; subst.
    rewrite (IH cur mode max_count (count + 1) _ _ Hshape).
    replace (count + 1 - 1 + Z.of_nat (length (cur :: r)))
      with (count - 1 + Z.of_nat (length (prev :: cur :: r)))
      by (cbn [length]; lia).
    reflexivity.
  - inversion Hruns; subst. cbn [fmap list_fmap removelast length last].
    replace (count - 1 + Z.of_nat 1) with count by lia.
    change (removelast
              ((count, default 0%float (last [prev])) :: run_summary (cur :: r)
               :: list_fmap _ _ run_summary rs'))
      with ((count, prev) :: removelast (run_summary (cur :: r) :: (run_summary <$> rs'))).
    cbn [pick_run].
    destruct (max_count <? count).
    + rewrite (IH cur prev count 1 _ _ Hshape).
      by replace (1 - 1 + Z.of_nat (length (cur :: r)))
        with (Z.of_nat (length (cur :: r))) by lia.
    + rewrite (IH cur mode max_count 1 _ _ Hshape).
      by replace (1 - 1 + Z.of_nat (length (cur :: r)))
        with (Z.of_nat (length (cur :: r))) by lia.
Qed.

Lemma pick_run_spec (rs : list (Z * double)) (mode : double) (max_count : Z) :
  (Forall (fun p => fst p <= max_count) rs /\ pick_run mode max_count rs = mode)
  \/ (exists pre n v post,
        rs = pre ++ (n, v) :: post /\ max_count < n
        /\ Forall (fun p => fst p < n) pre /\ Forall (fun p => fst p <= n) post
        /\ pick_run mode max_count rs = v).
Proof.
  revert mode max_count. induction rs as [|[n v] rs IH]; intros mode max_count.
  { left. by split. }
  cbn [pick_run]. destruct (Z.ltb_spec max_count n) as [Hlt|Hge].
  - right. destruct (IH v n) as [[Hall Hpick]|(pre & n' & v' & post & -> & Hn & Hpre & Hpost & Hpick)].
    + by exists [], n, v, rs.
    + exists ((n, v) :: pre), n', v', post. repeat split; try done.
      * lia.
      * constructor; [cbn; lia|done].
  - destruct (IH mode max_count) as [[Hall Hpick]|(pre & n' & v' & post & -> & Hn & Hpre & Hpost & Hpick)].
    + left. split; [|done]. by constructor.
    + right. exists ((n, v) :: pre), n', v', post. repeat split; try done.
      constructor; [cbn; lia|done].
Qed.

(** ** Comparisons of doubles *)

Lemma compare_cont_Eq (p q : positive) :
  PosDef.Pos.compare_cont Eq p q = Pos.compare p q.
Proof. reflexivity. Qed.

Lemma SFcompare_finite_Eq (s1 s2 : bool) (m1 m2 : positive) (e1 e2 : Z) :
  SFcompare (S754_finite s1 m1 e1) (S754_finite s2 m2 e2) = Some Eq ->
  s1 = s2 /\ m1 = m2 /\ e1 = e2.
Proof.
  cbn. rewrite compare_cont_Eq.
  destruct s1, s2; try discriminate;
    destruct (Z.compare_spec e1 e2); try discriminate;
    destruct (Pos.compare_spec m1 m2); try discriminate; by subst.
Qed.

Lemma SFeqb_trans (a b c : spec_float) :
  SFeqb a b = true -> SFeqb b c = true -> SFeqb a c = true.
Proof.
  unfold SFeqb.
  destruct (SFcompare a b) as [[| |]|] eqn:Hab; try discriminate.
  destruct (SFcompare b c) as [[| |]|] eqn:Hbc; try discriminate.
  intros _ _.
  destruct a as [sa|sa| |sa ma ea], b as [sb|sb| |sb mb eb];
    try (cbn in Hab; repeat case_match; discriminate);
    destruct c as [sc|sc| |sc mc ec];
    try (cbn in Hbc; repeat case_match; discriminate);
    try reflexivity.
  - destruct sa, sb, sc; try discriminate; reflexivity.
  - apply SFcompare_finite_Eq in Hab as (-> & -> & ->).
    by rewrite Hbc.
Qed.

Lemma feqb_trans (a b c : double) :
  (a =? b)%float = true -> (b =? c)%float = true -> (a =? c)%float = true.
Proof. rewrite !FloatAxioms.eqb_spec. apply SFeqb_trans. Qed.

Lemma chained_last_head (r : list double) (x y : double) :
  chained (x :: y :: r) ->
  exists v, last (x :: y :: r) = Some v /\ (v =? x)%float = true.
Proof.
  revert x y. induction r as [|z r IH]; intros x y [Hyx Hch].
  - by exists y.
  - destruct (IH y z Hch) as (v & Hlast & Hvy).
    exists v. split; [exact Hlast|]. by apply feqb_trans with y.
Qed.

Lemma removelast_fmap {A B : Type} (f : A -> B) (l : list A) :
  removelast (f <$> l) = f <$> removelast l.
Proof.
  induction l as [|x [|y l] IH]; [done..|].
  change (f x :: removelast (f <$> y :: l) = f x :: (f <$> removelast (y :: l))).
  by rewrite IH.
Qed.

Lemma calculate_mode_scan (x : double) (rest : list double) (junk : block) :
  calculate_mode (holds (x :: rest) junk) (Z.of_nat (length (x :: rest)))
  = Ret (fst (fst (mode_scan x rest (x, 1, 1)))).
Proof.
  unfold calculate_mode.
  rewrite (load_holds_Z (x :: rest) junk 0 x) by done. cbn [obind].
  unfold for_loop.
  replace (Z.to_nat (Z.of_nat (length (x :: rest)) - 1)) with (length rest)
    by (cbn [length]; lia).
  by rewrite (for_iter_mode rest [] x junk).
Qed.

Lemma runs_split_last (l : list double) :
  l <> [] -> exists front fin, runs l = front ++ [fin] /\ removelast (runs l) = front.
Proof.
  intros Hl. destruct l as [|x l]; [done|].
  destruct (runs_cons_shape x l) as (r & rs & Hshape).
  exists (removelast (runs (x :: l))), (List.last (runs (x :: l)) []).
  split; [|done]. apply app_removelast_last. by rewrite Hshape.
Qed.

(** The value [calculate_mode] returns, in terms of the runs of the data. *)
Lemma calculate_mode_runs (l : list double) (junk : block) :
  l <> [] ->
  exists v, calculate_mode (holds l junk) (Z.of_nat (length l)) = Ret v /\
    ((Forall (fun r => length r = 1%nat) (removelast (runs l)) /\ head l = Some v)
     \/ exists pre r post fin h,
          runs l = pre ++ r :: post ++ [fin]
          /\ (1 < length r)%nat
          /\ Forall (fun r' => (length r' < length r)%nat) pre
          /\ Forall (fun r' => (length r' <= length r)%nat) post
          /\ head r = Some h /\ last r = Some v /\ (v =? h)%float = true).
Proof.
  intros Hl. destruct (runs_split_last l Hl) as (front & fin & Hruns & Hfront).
  destruct l as [|x rest]; [done|]. clear Hl.
  rewrite calculate_mode_scan. eexists; split; [reflexivity|].
  destruct (runs_cons_shape x rest) as (r1 & rs & Hshape).
  rewrite (mode_scan_runs rest x x 1 1 _ _ Hshape).
  replace (1 - 1 + Z.of_nat (length (x :: r1))) with (Z.of_nat (length (x :: r1))) by lia.
  change (removelast (_ :: (run_summary <$> rs)))
    with (removelast (run_summary <$> ((x :: r1) :: rs))).
  rewrite <- Hshape, removelast_fmap, Hfront.
  pose proof (runs_nonempty (x :: rest)) as Hne.
  pose proof (runs_chained (x :: rest)) as Hch.
  rewrite Hruns in Hne, Hch.
  apply Forall_app in Hne as [Hne _]. apply Forall_app in Hch as [Hch _].
  destruct (pick_run_spec (run_summary <$> front) x 1)
    as [[Hall ->]|(pre & n & v & post & Heq & Hn & Hpre & Hpost & ->)].
  - left. split; [|done].
    rewrite Forall_fmap in Hall.
    rewrite Forall_forall in Hne, Hall. apply Forall_forall. intros r Hr.
    specialize (Hne r Hr). specialize (Hall r Hr). cbn in Hall.
    destruct r; [done|cbn in *; lia].
  - right.
    apply fmap_app_inv in Heq as (pre0 & post1 & -> & Hpost1 & ->).
    symmetry in Hpost1.
    apply fmap_cons_inv in Hpost1 as (r & post0 & Hr & -> & ->).
    unfold run_summary in Hr. injection Hr as -> ->.
    apply Forall_app in Hch as [_ Hch]. apply Forall_cons in Hch as [Hch _].
    destruct r as [|h [|y r]]; [cbn in Hn; lia..|].
    destruct (chained_last_head r h y Hch) as (v & Hlast & Hvh).
    rewrite !Forall_fmap in Hpre, Hpost.
    exists pre0, (h :: y :: r), post0, fin, h.
    rewrite Hruns, <- app_assoc. cbn [app].
    repeat split.
    + cbn [length] in *. lia.
    + eapply Forall_impl; [exact Hpre|].
      intros r' Hr'. unfold compose, run_summary in Hr'. cbn [fst] in Hr'. lia.
    + eapply Forall_impl; [exact Hpost|].
      intros r' Hr'. unfold compose, run_summary in Hr'. cbn [fst] in Hr'. lia.
    + by rewrite Hlast.
    + by rewrite Hlast.
Qed.

Lemma mode_scan_app (l1 l2 : list double) (prev : double)
    (st : double * Z * Z) :
  mode_scan prev (l1 ++ l2) st
  = mode_scan (default prev (last l1)) l2 (mode_scan prev l1 st).
Proof.
  revert prev st. induction l1 as [|x l1 IH]; intros prev st; [done|].
  cbn [app mode_scan]. rewrite IH. f_equal.
  destruct l1 as [|y l1]; [done|].
  change (last (x :: y :: l1)) with (last (y :: l1)).
  destruct (last (y :: l1)) as [z|] eqn:Hlast; [done|].
  by apply last_None in Hlast.
Qed.

Lemma mode_scan_same (c mode : double) (k : nat) (max_count count : Z) :
  (c =? c)%float = true ->
  mode_scan c (replicate k c) (mode, max_count, count)
  = (mode, max_count, count + Z.of_nat k).
Proof.
  intros Hc. revert count. induction k as [|k IH]; intros count.
  - cbn. f_equal. lia.
  - cbn [replicate mode_scan mode_update]. rewrite Hc, IH. f_equal. lia.
Qed.

(** The result does not depend on how long the final run is. *)
Lemma calculate_mode_final_run (l : list double) (c : double) (k : nat)
    (junk junk' : block) :
  (c =? c)%float = true ->
  calculate_mode (holds (l ++ c :: replicate k c) junk)
    (Z.of_nat (length (l ++ c :: replicate k c)))
  = calculate_mode (holds (l ++ [c]) junk') (Z.of_nat (length (l ++ [c]))).
Proof.
  intros Hc. destruct l as [|x rest].
  - cbn [app]. rewrite !calculate_mode_scan. cbn [mode_scan].
    by rewrite mode_scan_same.
  - cbn [app]. rewrite !calculate_mode_scan, !mode_scan_app.
    cbn [mode_scan].
    destruct (mode_update _ c _) as [[mode max_count] count].
    by rewrite mode_scan_same.
Qed.

(** ** Doubles through their specification *)

Lemma Prim2SF_zero : Prim2SF 0%float = S754_zero false.
Proof. reflexivity. Qed.

Lemma Prim2SF_one : Prim2SF 1%float = S754_finite false 4503599627370496 (-52).
Proof. reflexivity. Qed.

Lemma Prim2SF_e : Prim2SF e = S754_finite false 4722366482869645 (-72).
Proof. reflexivity. Qed.

Lemma Prim2SF_infinity : Prim2SF infinity = S754_infinity false.
Proof. reflexivity. Qed.

Lemma iter_xO (p d : positive) : Z.pos (Pos.iter xO p d) = Z.pos p * 2 ^ Z.pos d.
Proof.
  induction d as [|d IH] using Pos.peano_ind.
  - cbn [Pos.iter]. rewrite Pos2Z.inj_xO. lia.
  - rewrite Pos.iter_succ, Pos2Z.inj_xO, IH, Pos2Z.inj_succ, Z.pow_succ_r by lia.
    lia.
Qed.

Lemma digits2_pos_iter_xO (p d : positive) :
  digits2_pos (Pos.iter xO p d) = (digits2_pos p + d)%positive.
Proof.
  induction d as [|d IH] using Pos.peano_ind.
  - cbn [Pos.iter digits2_pos]. lia.
  - rewrite Pos.iter_succ. cbn [digits2_pos]. rewrite IH. lia.
Qed.

Lemma digits2_pos_upper (m : positive) : Z.pos m < 2 ^ Z.pos (digits2_pos m).
Proof.
  induction m as [m IH|m IH|]; cbn [digits2_pos];
    rewrite ?Pos2Z.inj_succ, ?Z.pow_succ_r by lia; lia.
Qed.

Lemma digits2_pos_lower (m : positive) :
  2 ^ (Z.pos (digits2_pos m) - 1) <= Z.pos m.
Proof.
  induction m as [m IH|m IH|]; cbn [digits2_pos]; [| |done];
    rewrite Pos2Z.inj_succ;
    replace (Z.succ (Z.pos (digits2_pos m)) - 1)
      with (Z.succ (Z.pos (digits2_pos m) - 1)) by lia;
    rewrite Z.pow_succ_r by lia; lia.
Qed.

(** A mantissa of a valid double has at most 53 bits. *)
Lemma valid_digits (s : bool) (m : positive) (ex : Z) :
  valid_binary (S754_finite s m ex) = true -> Z.pos (digits2_pos m) <= 53.
Proof.
  cbn [SpecFloat.valid_binary]. unfold bounded, canonical_mantissa, fexp.
  intros [Hc _]%andb_true_iff. apply Z.eqb_eq in Hc.
  unfold prec in *. lia.
Qed.

(** Rounding a negative quantity, or normalising a non-positive one, never
    gives a double above the accuracy level [e]. *)
Lemma SFltb_e_round_negative (mx ex : Z) (lx : location) :
  SFltb (Prim2SF e) (binary_round_aux prec emax true mx ex lx) = false.
Proof.
  rewrite Prim2SF_e. unfold binary_round_aux.
  destruct (shr_fexp prec emax mx ex lx) as [mrs' e'].
  destruct (shr_fexp prec emax _ e' loc_Exact) as [mrs'' e''].
  destruct (shr_m mrs''); [done| |done].
  by destruct (e'' <=? emax - prec).
Qed.

Lemma SFltb_e_normalize_nonpos (m ez : Z) :
  m <= 0 -> SFltb (Prim2SF e) (binary_normalize prec emax m ez false) = false.
Proof.
  intros Hm. destruct m as [|p|p]; [by rewrite Prim2SF_e|lia|].
  unfold binary_normalize, binary_round.
  destruct (shl_align _ _ _) as [mz ez']. apply SFltb_e_round_negative.
Qed.

(** For a double [v] below 1 the guard [v - 1 > e] is false. *)
Lemma sub_one_not_above_e (v : double) :
  (v <? 1)%float = true -> (e <? v - 1)%float = false.
Proof.
  rewrite !ltb_spec, sub_spec, Prim2SF_one.
  pose proof (Prim2SF_valid v) as Hv.
  destruct (Prim2SF v) as [s|s| |s m ex].
  - intros _. by rewrite Prim2SF_e.
  - destruct s; [intros _; by rewrite Prim2SF_e|discriminate].
  - discriminate.
  - intros Hlt. unfold SF64sub, SFsub. apply SFltb_e_normalize_nonpos.
    destruct s; [cbn [cond_Zopp]; lia|]. cbn [cond_Zopp].
    apply valid_digits in Hv. pose proof (digits2_pos_upper m) as Hm.
    unfold SFltb, SFcompare in Hlt.
    destruct (Z.compare_spec ex (-52)) as [->|Hex|Hex]; [| |discriminate].
    + rewrite compare_cont_Eq in Hlt.
      destruct (Pos.compare_spec m 4503599627370496) as [|Hlt'|];
        try discriminate.
      rewrite Z.min_id. unfold shl_align. rewrite Z.sub_diag. cbn [fst].
      apply Pos2Z.pos_lt_pos in Hlt'. clear -Hlt'. lia.
    + rewrite Z.min_l by lia. unfold shl_align. rewrite Z.sub_diag. cbn [fst].
      destruct (ex - -52) as [|d|d] eqn:Hd; [lia..|]. cbn [fst].
      rewrite iter_xO.
      assert (2 ^ 1 <= 2 ^ Z.pos d) by (apply Z.pow_le_mono_r; lia).
      assert (2 ^ Z.pos (digits2_pos m) <= 2 ^ 53)
        by (apply Z.pow_le_mono_r; lia).
      lia.
Qed.



(** A mantissa of exactly 53 bits with an exponent in range is not rounded. *)
Lemma binary_round_aux_exact (sx : bool) (mz : positive) (ez : Z) :
  Z.pos (digits2_pos mz) = 53 -> -1074 <= ez <= 971 ->
  binary_round_aux prec emax sx (Z.pos mz) ez loc_Exact = S754_finite sx mz ez.
Proof.
  intros Hd He.
  assert (fexp prec emax (Zdigits2 (Z.pos mz) + ez) - ez = 0) as Hshift.
  { unfold fexp, SpecFloat.emin, Zdigits2, prec, emax. rewrite Hd. lia. }
  unfold binary_round_aux, shr_fexp. rewrite Hshift.
  cbn [shr shr_record_of_loc loc_of_shr_record shr_m round_nearest_even].
  rewrite Hshift. cbn [shr shr_record_of_loc shr_m].
  destruct (Z.leb_spec ez (emax - prec)) as [_|Hbad]; [done|].
  unfold emax, prec in Hbad. lia.
Qed.

(** The conversion of a positive [int] is exact: the double is
    [m * 2 ^ ex] with [m * 2 ^ ex = n]. *)
Lemma double_of_int_finite (n : Z) :
  0 < n < 9007199254740992 ->
  exists m ex, Prim2SF (double_of_int n) = S754_finite false m ex
               /\ ex <= 0 /\ Z.pos m = n * 2 ^ (- ex).
Proof.
  intros Hn. unfold double_of_int.
  destruct (Z.ltb_spec n 0) as [?|_]; [lia|].
  rewrite of_uint63_spec, Uint63.of_Z_spec.
  assert (Uint63.wB = 9223372036854775808) as HwB by reflexivity.
  rewrite Z.mod_small by lia. clear HwB.
  destruct n as [|p|p]; [lia| |lia].
  cbn [binary_normalize]. unfold binary_round.
  pose proof (digits2_pos_lower p) as Hlow.
  assert (Z.pos (digits2_pos p) <= 53) as Hd.
  { destruct (Z.le_gt_cases (Z.pos (digits2_pos p)) 53) as [?|Hgt]; [done|].
    assert (2 ^ 53 <= 2 ^ (Z.pos (digits2_pos p) - 1))
      by (apply Z.pow_le_mono_r; lia).
    lia. }
  assert (fexp prec emax (Z.pos (digits2_pos p) + 0) = Z.pos (digits2_pos p) - 53)
    as -> by (unfold fexp, SpecFloat.emin, prec, emax; lia).
  unfold shl_align.
  destruct (Z.pos (digits2_pos p) - 53 - 0) as [|k|k] eqn:Hk; [|lia|].
  - rewrite binary_round_aux_exact by lia.
    exists p, 0. repeat split; [lia|]. cbn. lia.
  - rewrite binary_round_aux_exact
      by (rewrite ?digits2_pos_iter_xO, ?Pos2Z.inj_add; lia).
    exists (Pos.iter xO p k), (Z.pos (digits2_pos p) - 53).
    repeat split; [lia|]. rewrite iter_xO. f_equal. f_equal. lia.
Qed.




(** ** The square root loop *)

Lemma babylonian_loop_stop (fuel : nat) (value x y : double) :
  bab_guard (x, y) = false -> babylonian_loop fuel value x y = Ret x.
Proof.
  unfold bab_guard. cbn [fst snd]. intros Hg.
  destruct fuel; cbn [babylonian_loop]; by rewrite Hg.
Qed.

Lemma babylonian_loop_step (fuel : nat) (value x y : double) :
  bab_guard (x, y) = true ->
  babylonian_loop (S fuel) value x y
  = babylonian_loop fuel value (fst (bab_step value (x, y)))
      (snd (bab_step value (x, y))).
Proof.
  unfold bab_guard, bab_step. cbn [fst snd babylonian_loop]. intros Hg.
  by rewrite Hg.
Qed.

Lemma babylonian_loop_out (value x y : double) :
  bab_guard (x, y) = true -> babylonian_loop 0 value x y = OutOfFuel.
Proof.
  unfold bab_guard. cbn [fst snd babylonian_loop]. intros Hg. by rewrite Hg.
Qed.

Lemma babylonian_loop_never_undefined (fuel : nat) (value x y : double) :
  babylonian_loop fuel value x y <> Undefined.
Proof.
  revert x y. induction fuel as [|fuel IH]; intros x y; cbn [babylonian_loop];
    destruct (e <? x - y)%float; done.
Qed.

(** The loop from the estimates [s], in terms of the sequence of estimates:
    it returns at the first index at which the guard is false. *)
Lemma babylonian_loop_iter (fuel : nat) (value : double) (s : double * double)
    (r : double) :
  babylonian_loop fuel value (fst s) (snd s) = Ret r <->
  exists n, (n <= fuel)%nat
            /\ r = fst (Nat.iter n (bab_step value) s)
            /\ bab_guard (Nat.iter n (bab_step value) s) = false
            /\ forall k, (k < n)%nat ->
                 bab_guard (Nat.iter k (bab_step value) s) = true.
Proof.
  revert s. induction fuel as [|fuel IH]; intros [x y]; cbn [fst snd].
  - destruct (bab_guard (x, y)) eqn:Hg.
    + rewrite babylonian_loop_out by done. split; [done|].
      intros (n & Hn & _ & Hstop & _).
      assert (n = 0%nat) as -> by lia. change (bab_guard (x, y) = false) in Hstop. congruence.
    + rewrite babylonian_loop_stop by done. split.
      * intros [= <-]. exists 0%nat. repeat split; [done..|]. lia.
      * intros (n & Hn & -> & _). by assert (n = 0%nat) as -> by lia.
  - destruct (bab_guard (x, y)) eqn:Hg.
    + rewrite babylonian_loop_step by done. rewrite IH. split.
      * intros (n & Hn & -> & Hstop & Hrun).
        exists (S n). rewrite Nat.iter_succ_r. repeat split; [lia|done..|].
        intros [|k] Hk; [done|]. rewrite Nat.iter_succ_r.
        destruct (bab_step value (x, y)). apply Hrun. lia.
      * intros (n & Hn & -> & Hstop & Hrun).
        destruct n as [|n]; [change (bab_guard (x, y) = false) in Hstop; congruence|].
        exists n. rewrite Nat.iter_succ_r in Hstop |- *.
        destruct (bab_step value (x, y)) as [x' y'] eqn:Hstep.
        repeat split; [lia|done..|].
        intros k Hk. specialize (Hrun (S k) ltac:(lia)).
        by rewrite Nat.iter_succ_r, Hstep in Hrun.
    + rewrite babylonian_loop_stop by done. split.
      * intros [= <-]. exists 0%nat. repeat split; [lia|done..|]. lia.
      * intros (n & Hn & -> & Hstop & Hrun).
        destruct n as [|n]; [done|].
        specialize (Hrun 0%nat ltac:(lia)). change (bab_guard (x, y) = true) in Hrun. congruence.
Qed.

(** When the guard holds at every index up to the bound, the bound is hit. *)
Lemma babylonian_loop_diverges (fuel : nat) (value : double)
    (s : double * double) :
  (forall k, (k <= fuel)%nat -> bab_guard (Nat.iter k (bab_step value) s) = true) ->
  babylonian_loop fuel value (fst s) (snd s) = OutOfFuel.
Proof.
  intros Hrun.
  destruct (babylonian_loop fuel value (fst s) (snd s)) as [r| |] eqn:Hloop.
  - apply babylonian_loop_iter in Hloop as (n & Hn & _ & Hstop & _).
    rewrite Hrun in Hstop by done. discriminate.
  - by apply babylonian_loop_never_undefined in Hloop.
  - done.
Qed.

(** ** The allocator and the growth of the buffer *)

Lemma malloc_ok (n : Z) (w : world) :
  never_fails w ->
  let p := fresh (dom (heap w)) in
  malloc n w = (Some p, World (<[p := replicate (Z.to_nat n) None]> (heap w))
                              (tail (alloc_ok w)))
  /\ heap w !! p = None
  /\ never_fails (World (<[p := replicate (Z.to_nat n) None]> (heap w))
                        (tail (alloc_ok w))).
Proof.
  intros Hok p. unfold malloc, never_fails in *. repeat split.
  - destruct (alloc_ok w) as [|[|] rest]; [done..|]. by inversion Hok.
  - apply not_elem_of_dom, is_fresh.
  - cbn. destruct (alloc_ok w) as [|a rest]; [done|]. by inversion Hok.
Qed.

Lemma malloc_fail (n : Z) (w : world) (rest : list bool) :
  alloc_ok w = false :: rest -> malloc n w = (None, World (heap w) rest).
Proof. intros Hw. unfold malloc. by rewrite Hw. Qed.

(** A failed growth step: [NULL] is returned and no block is touched. *)
Lemma enlarge_array_fail (old_array : loc) (old_size capacity : Z) (w : world)
    (rest : list bool) :
  alloc_ok w = false :: rest -> 2 * capacity <= INT_MAX ->
  enlarge_array old_array old_size capacity w
  = Ret (None, 2 * capacity, World (heap w) rest).
Proof.
  intros Hw Hcap. unfold enlarge_array.
  destruct (Z.ltb_spec INT_MAX (2 * capacity)) as [?|_]; [lia|].
  by rewrite (malloc_fail _ _ rest).
Qed.

(** A successful growth step: the new block has twice the capacity, starts
    with the first [old_size] cells of the old block in their order, and the
    old block is released. *)
Lemma enlarge_array_ok (old_array : loc) (old_size capacity : Z) (w : world)
    (blk : block) :
  never_fails w -> heap w !! old_array = Some blk ->
  0 <= old_size <= Z.of_nat (length blk) -> old_size <= 2 * capacity ->
  2 * capacity <= INT_MAX ->
  let p := fresh (dom (heap w)) in
  let new_blk := take (Z.to_nat old_size) blk
                 ++ replicate (Z.to_nat (2 * capacity - old_size)) None in
  p <> old_array
  /\ enlarge_array old_array old_size capacity w
     = Ret (Some p, 2 * capacity,
            World (<[p := new_blk]> (delete old_array (heap w)))
                  (tail (alloc_ok w))).
Proof.
  intros Hok Hold Hsize Hfit Hcap p new_blk.
  destruct (malloc_ok (2 * capacity) w Hok) as (Hmalloc & Hfresh & _).
  fold p in Hmalloc, Hfresh.
  assert (p <> old_array) as Hne by congruence.
  split; [done|]. unfold enlarge_array.
  destruct (Z.ltb_spec INT_MAX (2 * capacity)) as [?|_]; [lia|].
  rewrite Hmalloc. unfold memcpy. cbn [heap alloc_ok].
  rewrite lookup_insert_eq, lookup_insert_ne, Hold by done.
  rewrite length_replicate.
  destruct (Z.leb_spec 0 old_size) as [_|?]; [|lia].
  destruct (Z.leb_spec old_size (Z.of_nat (Z.to_nat (2 * capacity)))) as [_|?]; [|lia].
  destruct (Z.leb_spec old_size (Z.of_nat (length blk))) as [_|?]; [|lia].
  cbn [andb obind]. unfold free. cbn [heap alloc_ok].
  rewrite lookup_insert_ne, lookup_insert_ne, Hold by done. cbn [obind].
  rewrite insert_insert_eq, drop_replicate.
  rewrite delete_insert_ne by done. do 4 f_equal.
  unfold new_blk. do 2 f_equal. lia.
Qed.

Lemma store_holds (l : list double) (k : nat) (v : double) :
  store (holds l (replicate (S k) None)) (Z.of_nat (length l)) v
  = Ret (holds (l ++ [v]) (replicate k None)).
Proof.
  unfold store, holds. rewrite length_app, length_fmap, length_replicate.
  destruct (Z.ltb_spec (Z.of_nat (length l)) 0) as [?|_]; [lia|].
  destruct (Z.leb_spec (Z.of_nat (length l + S k)) (Z.of_nat (length l))) as [?|_];
    [lia|].
  cbn [orb]. rewrite Nat2Z.id.
  rewrite insert_app_r_alt by (rewrite length_fmap; lia).
  rewrite length_fmap, Nat.sub_diag. cbn [replicate].
  by rewrite fmap_app, <- app_assoc.
Qed.

(** The loop body when there is room: the value is written in place. *)
Lemma main_loop_body_room (v : double) (b : buffer) (w : world)
    (l : list double) :
  buffer_inv b w l -> size b < capacity b ->
  main_loop_body v b w
  = Ret (Some (Buffer (data b) (size b + 1) (capacity b)),
         World (<[data b := holds (l ++ [v])
                    (replicate (Z.to_nat (capacity b - (size b + 1))) None)]>
                  (heap w))
               (alloc_ok w)).
Proof.
  intros (Hblk & Hsize & Hle & Hpos) Hroom. unfold main_loop_body.
  destruct (Z.eqb_spec (size b) (capacity b)) as [?|_]; [lia|].
  cbn [obind]. unfold store_at. cbn [data size capacity]. rewrite Hblk.
  replace (Z.to_nat (capacity b - size b))
    with (S (Z.to_nat (capacity b - (size b + 1)))) by lia.
  by rewrite Hsize, store_holds.
Qed.

(** The loop body when the buffer is full and the allocator succeeds. *)
Lemma main_loop_body_grow (v : double) (b : buffer) (w : world)
    (l : list double) :
  buffer_inv b w l -> size b = capacity b -> never_fails w ->
  2 * capacity b <= INT_MAX ->
  let p := fresh (dom (heap w)) in
  heap w !! p = None
  /\ main_loop_body v b w
     = Ret (Some (Buffer p (size b + 1) (2 * capacity b)),
            World (<[p := holds (l ++ [v])
                       (replicate (Z.to_nat (2 * capacity b - (size b + 1))) None)]>
                     (delete (data b) (heap w)))
                  (tail (alloc_ok w))).
Proof.
  intros (Hblk & Hsize & Hle & Hpos) Hfull Hok Hcap p.
  destruct (malloc_ok 0 w Hok) as (_ & Hfresh & _). fold p in Hfresh.
  split; [done|].
  destruct (enlarge_array_ok (data b) (size b) (capacity b) w _ Hok Hblk)
    as (Hne & Henl).
  { unfold holds. rewrite length_app, length_fmap. lia. }
  { lia. }
  { done. }
  fold p in Hne, Henl.
  unfold main_loop_body.
  destruct (Z.eqb_spec (size b) (capacity b)) as [_|?]; [|lia].
  rewrite Henl. cbn [obind]. unfold store_at. cbn [data size capacity heap alloc_ok].
  rewrite lookup_insert_eq.
  replace (take (Z.to_nat (size b)) (holds l (replicate (Z.to_nat (capacity b - size b)) None)))
    with (Some <$> l : block).
  2:{ unfold holds. rewrite take_app_length'; [done|]. rewrite length_fmap. lia. }
  change ((Some <$> l) ++ replicate (Z.to_nat (2 * capacity b - size b)) None)
    with (holds l (replicate (Z.to_nat (2 * capacity b - size b)) None)).
  replace (Z.to_nat (2 * capacity b - size b))
    with (S (Z.to_nat (2 * capacity b - (size b + 1)))) by lia.
  rewrite Hsize, store_holds. cbn [obind].
  by rewrite insert_insert_eq, <- Hsize.
Qed.

(** The loop body when the buffer is full and the allocator fails: the old
    block is released and [main] returns. *)
Lemma main_loop_body_fail (v : double) (b : buffer) (w : world)
    (rest : list bool) (blk : block) :
  size b = capacity b -> alloc_ok w = false :: rest ->
  heap w !! data b = Some blk -> 2 * capacity b <= INT_MAX ->
  main_loop_body v b w = Ret (None, World (delete (data b) (heap w)) rest).
Proof.
  intros Hfull Hw Hblk Hcap. unfold main_loop_body.
  destruct (Z.eqb_spec (size b) (capacity b)) as [_|?]; [|lia].
  rewrite (enlarge_array_fail _ _ _ _ rest) by done. cbn [obind].
  unfold free. cbn [heap alloc_ok]. by rewrite Hblk.
Qed.

Lemma never_fails_tail (h h' : gmap loc block) (oks : list bool) :
  never_fails (World h oks) -> never_fails (World h' (tail oks)).
Proof.
  unfold never_fails. cbn. intros Hok. destruct oks; [done|]. by inversion Hok.
Qed.

(** The reading loop with an allocator that never fails: every value is
    appended, in order, and the capacity follows [capacity_after]. *)
Lemma main_loop_spec (vs : list double) (b : buffer) (w : world)
    (l : list double) :
  buffer_inv b w l -> never_fails w ->
  2 * (size b + Z.of_nat (length vs)) <= INT_MAX ->
  exists b' w',
    main_loop vs b w = Ret (Some b', [], w')
    /\ buffer_inv b' w' (l ++ vs)
    /\ capacity b' = capacity_after (capacity b) (size b) (length vs)
    /\ never_fails w'
    /\ delete (data b') (heap w') = delete (data b) (heap w).
Proof.
  revert b w l. induction vs as [|v vs IH]; intros b w l Hinv Hok Hbound.
  { exists b, w. by rewrite app_nil_r. }
  pose proof Hinv as (Hblk & Hsize & Hle & Hpos).
  cbn [main_loop capacity_after length] in *.
  destruct (Z.eqb_spec (size b) (capacity b)) as [Hfull|Hroom].
  - destruct (main_loop_body_grow v b w l Hinv Hfull Hok) as [Hfresh ->]; [lia|].
    cbn [obind].
    set (p := fresh (dom (heap w))) in *.
    set (w1 := World _ _).
    destruct (IH (Buffer p (size b + 1) (2 * capacity b)) w1 (l ++ [v]))
      as (b' & w' & Hrun & Hinv' & Hcap' & Hok' & Hleak).
    + unfold buffer_inv. cbn [data size capacity heap w1].
      rewrite lookup_insert_eq, length_app. cbn [length].
      repeat split; try done; lia.
    + destruct w as [h oks]. by apply never_fails_tail with h.
    + cbn [size]. lia.
    + exists b', w'. rewrite <- app_assoc in Hinv'.
      split; [done|]. split; [done|]. split; [done|]. split; [done|].
      rewrite Hleak. cbn [data heap w1].
      rewrite delete_insert_eq. apply delete_id.
      by rewrite lookup_delete_ne by congruence.
  - rewrite (main_loop_body_room v b w l Hinv) by lia. cbn [obind].
    set (w1 := World _ _).
    destruct (IH (Buffer (data b) (size b + 1) (capacity b)) w1 (l ++ [v]))
      as (b' & w' & Hrun & Hinv' & Hcap' & Hok' & Hleak).
    + unfold buffer_inv. cbn [data size capacity heap w1].
      rewrite lookup_insert_eq, length_app. cbn [length].
      repeat split; try done; lia.
    + done.
    + cbn [size]. lia.
    + exists b', w'. rewrite <- app_assoc in Hinv'.
      split; [done|]. split; [done|]. split; [done|]. split; [done|].
      rewrite Hleak. cbn [data heap w1]. by rewrite delete_insert_eq.
Qed.

Lemma capacity_after_41 (k : nat) :
  (k <= 41)%nat ->
  capacity_after 20 0 k
  = if (k <=? 20)%nat then 20 else if (k <=? 40)%nat then 40 else 80.
Proof.
  intros Hk. do 42 (destruct k as [|k]; [reflexivity|]). lia.
Qed.

(** ** Runs of the square root loop *)

Lemma babylonian_sqrt_iter (fuel : nat) (value r : double) :
  babylonian_sqrt fuel value = Ret r <->
  exists n, (n <= fuel)%nat
            /\ r = fst (bab_iter value n)
            /\ bab_guard (bab_iter value n) = false
            /\ forall k, (k < n)%nat -> bab_guard (bab_iter value k) = true.
Proof. exact (babylonian_loop_iter fuel value (value, 1%float) r). Qed.

Lemma babylonian_sqrt_fuel_mono (fuel fuel' : nat) (value r : double) :
  (fuel <= fuel')%nat -> babylonian_sqrt fuel value = Ret r ->
  babylonian_sqrt fuel' value = Ret r.
Proof.
  intros Hle. rewrite !babylonian_sqrt_iter.
  intros (n & Hn & Hrest). exists n. split; [lia|done].
Qed.

(** Once the estimates repeat with the guard true, the guard is true for
    ever. *)
Lemma bab_cycle (value : double) (n : nat) :
  guard_holds_upto value n = true ->
  bab_step value (bab_iter value n) = bab_iter value n ->
  forall k, bab_guard (bab_iter value k) = true.
Proof.
  intros Hupto Hfix k. unfold guard_holds_upto in Hupto.
  rewrite forallb_forall in Hupto.
  assert (forall j, bab_iter value (n + j) = bab_iter value n) as Hstay.
  { induction j as [|j IH]; [by rewrite Nat.add_0_r|].
    rewrite Nat.add_succ_r. unfold bab_iter in *. cbn [Nat.iter].
    change (bab_step value (Nat.iter (n + j) (bab_step value) (value, 1%float))
            = Nat.iter n (bab_step value) (value, 1%float)).
    by rewrite IH. }
  destruct (Nat.le_gt_cases k n) as [Hk|Hk].
  - apply Hupto, in_seq. lia.
  - replace k with (n + (k - n))%nat by lia. rewrite Hstay.
    apply Hupto, in_seq. lia.
Qed.

Lemma babylonian_sqrt_cycle (value : double) (n : nat) :
  guard_holds_upto value n = true ->
  bab_step value (bab_iter value n) = bab_iter value n ->
  forall fuel, babylonian_sqrt fuel value = OutOfFuel.
Proof.
  intros Hupto Hfix fuel.
  apply (babylonian_loop_diverges fuel value (value, 1%float)).
  intros k _. exact (bab_cycle value n Hupto Hfix k).
Qed.

(** ** [main] when a growth step fails *)

(** While there is room the reading loop writes in place and never calls the
    allocator. *)
Lemma main_loop_room (vs rest : list double) (b : buffer) (w : world)
    (l : list double) :
  buffer_inv b w l -> size b + Z.of_nat (length vs) <= capacity b ->
  main_loop (vs ++ rest) b w
  = main_loop rest
      (Buffer (data b) (size b + Z.of_nat (length vs)) (capacity b))
      (World (<[data b := holds (l ++ vs)
                 (replicate (Z.to_nat (capacity b - (size b + Z.of_nat (length vs))))
                            None)]> (heap w))
             (alloc_ok w)).
Proof.
  revert b w l. induction vs as [|v vs IH]; intros b w l Hinv Hroom.
  - pose proof Hinv as (Hblk & _). cbn [app length].
    rewrite Z.add_0_r, app_nil_r, insert_id by done. by destruct b, w.
  - cbn [app main_loop length] in *.
    rewrite (main_loop_body_room v b w l Hinv) by lia. cbn [obind].
    pose proof Hinv as (Hblk & Hsize & Hle & Hpos).
    rewrite (IH _ _ (l ++ [v])).
    + cbn [data size capacity heap alloc_ok].
      rewrite insert_insert_eq, <- app_assoc. cbn [app].
      by replace (size b + 1 + Z.of_nat (length vs))
        with (size b + Z.of_nat (S (length vs))) by lia.
    + unfold buffer_inv. cbn [data size capacity heap].
      rewrite lookup_insert_eq, length_app. cbn [length].
      repeat split; try done; lia.
    + cbn [size capacity]. lia.
Qed.

Section MainAbort.

Variable qsort : (double -> double -> Z) -> list double -> list double.

(** When the reading loop gives up, [main] returns [EXIT_FAILURE] at once:
    nothing is sorted, computed or printed. *)
Lemma main_abort (fuel : nat) (input unread : list double) (w w1 w2 : world)
    (p : loc) :
  malloc 20 w = (Some p, w1) ->
  main_loop input (Buffer p 0 20) w1 = Ret (None, unread, w2) ->
  main qsort fuel 2 (Some input) w = Ret (EXIT_FAILURE, None, w2).
Proof. intros Hm Hloop. unfold main. cbn [Z.eqb negb]. by rewrite Hm, Hloop. Qed.

(** The first growth step fails: the 20 values read so far and the block
    that held them are given up, and the heap is as it was before [main]. *)
Lemma main_first_growth_fails (fuel : nat) (vs rest : list double)
    (v : double) (h : gmap loc block) (oks : list bool) :
  length vs = 20%nat ->
  main qsort fuel 2 (Some (vs ++ v :: rest)) (World h (true :: false :: oks))
  = Ret (EXIT_FAILURE, None, World h oks).
Proof.
  intros Hlen. set (p := fresh (dom h)).
  assert (h !! p = None) as Hfresh by apply not_elem_of_dom, is_fresh.
  set (w1 := World (<[p := replicate 20 None]> h) (false :: oks)).
  assert (buffer_inv (Buffer p 0 20) w1 []) as Hinv.
  { unfold buffer_inv. cbn [data size capacity heap w1].
    rewrite lookup_insert_eq. repeat split; try done. }
  apply (main_abort fuel _ rest _ w1 _ p); [done|].
  rewrite (main_loop_room vs (v :: rest) _ w1 [] Hinv)
    by (cbn [size capacity]; lia).
  cbn [main_loop data size capacity heap alloc_ok w1 app].
  erewrite main_loop_body_fail with (rest := oks); cbn [data size capacity heap alloc_ok].
  - cbn [obind]. by rewrite insert_insert_eq, delete_insert_eq, delete_id.
  - lia.
  - done.
  - by rewrite lookup_insert_eq.
  - unfold INT_MAX. lia.
Qed.

End MainAbort.

(** ** More on doubles *)

(** Leaving the loop means [x - y <= e], unless [x - y] is a NaN. *)
Lemma not_above_e_le (d : double) :
  (e <? d)%float = false -> PrimFloat.is_nan d = false -> (d <=? e)%float = true.
Proof.
  unfold PrimFloat.is_nan.
  rewrite ltb_spec, leb_spec, FloatAxioms.eqb_spec, Prim2SF_e.
  destruct (Prim2SF d) as [s|[|]| |[|] m ex]; try done.
  unfold SFltb, SFleb, SFcompare.
  rewrite (compare_cont_Eq 4722366482869645 m), (compare_cont_Eq m 4722366482869645).
  rewrite (Z.compare_antisym (-72) ex), (Pos.compare_antisym 4722366482869645 m).
  by destruct (-72 ?= ex), (4722366482869645 ?= m)%positive.
Qed.

(** The conversion of a positive [int] keeps its value. *)
Lemma double_of_int_exact (n : Z) :
  0 < n < 9007199254740992 -> (Qval (double_of_int n) == inject_Z n)%Q.
Proof.
  intros Hn. unfold Qval.
  destruct (double_of_int_finite n Hn) as (m & ex & -> & Hex & Hm).
  cbn [SF2Q]. destruct ex as [|q|q]; [|lia|].
  - unfold Qeq, inject_Z. cbn [Qnum Qden]. change (2 ^ 0) with 1 in *. lia.
  - unfold Qeq. cbn [Qnum Qden inject_Z].
    rewrite Pos2Z.inj_pow. change (- Z.neg q) with (Z.pos q) in Hm. lia.
Qed.

(** ** The order of doubles *)

Lemma valid_finite (s : bool) (m : positive) (ex : Z) :
  valid_binary (S754_finite s m ex) = true ->
  -1074 <= ex <= 971 /\ Z.pos (digits2_pos m) <= 53
  /\ (-1074 < ex -> Z.pos (digits2_pos m) = 53).
Proof.
  cbn [SpecFloat.valid_binary]. unfold bounded, canonical_mantissa, fexp, SpecFloat.emin.
  intros [Hc Hb]%andb_true_iff. apply Z.eqb_eq in Hc. apply Z.leb_le in Hb.
  unfold prec, emax in *. lia.
Qed.

Lemma finite_key_bounds (s : bool) (m : positive) (ex : Z) :
  valid_binary (S754_finite s m ex) = true ->
  0 < Z.pos m * 2 ^ (ex + 1074) < 2 ^ 2098.
Proof.
  intros (Hex & Hd & _)%valid_finite.
  pose proof (digits2_pos_upper m) as Hm.
  assert (2 ^ Z.pos (digits2_pos m) <= 2 ^ 53) by (apply Z.pow_le_mono_r; lia).
  assert (0 < 2 ^ (ex + 1074)) by (apply Z.pow_pos_nonneg; lia).
  assert (2 ^ (ex + 1074) <= 2 ^ 2045) by (apply Z.pow_le_mono_r; lia).
  split; [lia|].
  replace (2 ^ 2098) with (2 ^ 53 * 2 ^ 2045) by (rewrite <- Z.pow_add_r; [done|lia..]).
  nia.
Qed.

Lemma finite_key_mono (m1 m2 : positive) (e1 e2 : Z) :
  valid_binary (S754_finite false m1 e1) = true ->
  valid_binary (S754_finite false m2 e2) = true ->
  e1 < e2 ->
  Z.pos m1 * 2 ^ (e1 + 1074) < Z.pos m2 * 2 ^ (e2 + 1074).
Proof.
  intros (He1 & Hd1 & _)%valid_finite (He2 & _ & Hd2)%valid_finite Hlt.
  specialize (Hd2 ltac:(lia)).
  pose proof (digits2_pos_upper m1) as Hm1.
  pose proof (digits2_pos_lower m2) as Hm2. rewrite Hd2 in Hm2.
  assert (2 ^ Z.pos (digits2_pos m1) <= 2 ^ 53) by (apply Z.pow_le_mono_r; lia).
  assert (0 < 2 ^ (e1 + 1074)) by (apply Z.pow_pos_nonneg; lia).
  assert (2 ^ (e2 + 1074) = 2 ^ (e2 - e1 - 1) * (2 * 2 ^ (e1 + 1074))) as ->.
  { rewrite <- Z.pow_succ_r, <- Z.pow_add_r by lia. f_equal. lia. }
  assert (1 <= 2 ^ (e2 - e1 - 1)) by (apply (Z.pow_le_mono_r 2 0); lia).
  change (2 ^ (53 - 1)) with 4503599627370496 in Hm2.
  change (2 ^ 53) with 9007199254740992 in *.
  set (P := 2 ^ (e1 + 1074)) in *. set (K := 2 ^ (e2 - e1 - 1)) in *.
  assert (Z.pos m1 * P < 9007199254740992 * P)
    by (apply Z.mul_lt_mono_pos_r; lia).
  assert (4503599627370496 * (2 * P) <= Z.pos m2 * (2 * P))
    by (apply Z.mul_le_mono_nonneg_r; lia).
  assert (Z.pos m2 * (2 * P) * 1 <= Z.pos m2 * (2 * P) * K)
    by (apply Z.mul_le_mono_nonneg_l; lia).
  lia.
Qed.

Lemma Zcompare_Lt (a b : Z) : a < b -> (a ?= b) = Lt.
Proof. apply Z.compare_lt_iff. Qed.

Lemma Zcompare_Gt (a b : Z) : b < a -> (a ?= b) = Gt.
Proof. apply Z.compare_gt_iff. Qed.

(** On valid doubles other than NaN the comparison of the specification is
    the comparison of the keys. *)
Lemma SFcompare_key (a b : spec_float) :
  valid_binary a = true -> valid_binary b = true ->
  SFis_nan a = false -> SFis_nan b = false ->
  SFcompare a b = Some (SFkey a ?= SFkey b).
Proof.
  intros Ha Hb Hna Hnb.
  assert (0 < 2 ^ 2098) as Hinf by (by apply Z.pow_pos_nonneg).
  destruct a as [sa|sa| |sa ma ea], b as [sb|sb| |sb mb eb]; try discriminate;
    try pose proof (finite_key_bounds _ _ _ Ha) as Hka;
    try pose proof (finite_key_bounds _ _ _ Hb) as Hkb;
    try pose proof (valid_finite _ _ _ Ha) as (Hea & _);
    try pose proof (valid_finite _ _ _ Hb) as (Heb & _);
    cbn [SFcompare SFkey]; remember (2 ^ 2098) as I eqn:HI; clear HI;
    try rewrite compare_cont_Eq; f_equal; symmetry.
  - destruct sb; [apply Zcompare_Gt|apply Zcompare_Lt]; lia.
  - destruct sb; [apply Zcompare_Gt|apply Zcompare_Lt]; lia.
  - destruct sa; [apply Zcompare_Lt|apply Zcompare_Gt]; lia.
  - destruct sa, sb;
      [apply Z.compare_refl|apply Zcompare_Lt|apply Zcompare_Gt|apply Z.compare_refl];
      lia.
  - destruct sa; [apply Zcompare_Lt|apply Zcompare_Gt]; destruct sb; lia.
  - destruct sa; [apply Zcompare_Lt|apply Zcompare_Gt]; lia.
  - destruct sb; [apply Zcompare_Gt|apply Zcompare_Lt]; destruct sa; lia.
  - destruct sa, sb.
    + rewrite Z.compare_opp.
      destruct (Z.compare_spec ea eb) as [->|Hlt|Hgt].
      * rewrite <- Zmult_compare_compat_r
          by (apply Z.lt_gt, Z.pow_pos_nonneg; lia).
        exact (Pos.compare_antisym ma mb).
      * apply Zcompare_Gt. by apply (finite_key_mono ma mb ea eb).
      * apply Zcompare_Lt. by apply (finite_key_mono mb ma eb ea).
    + apply Zcompare_Lt. lia.
    + apply Zcompare_Gt. lia.
    + destruct (Z.compare_spec ea eb) as [->|Hlt|Hgt].
      * rewrite <- Zmult_compare_compat_r
          by (apply Z.lt_gt, Z.pow_pos_nonneg; lia).
        reflexivity.
      * apply Zcompare_Lt. by apply (finite_key_mono ma mb ea eb).
      * apply Zcompare_Gt. by apply (finite_key_mono mb ma eb ea).
Qed.

Lemma shl_align_val (m : positive) (ex ez : Z) :
  ez <= ex -> Z.pos (fst (shl_align m ex ez)) = Z.pos m * 2 ^ (ex - ez).
Proof.
  intros Hle. unfold shl_align.
  destruct (ez - ex) as [|d|d] eqn:Hd; [|lia|]; cbn [fst].
  - replace (ex - ez) with 0 by lia. lia.
  - rewrite iter_xO. do 2 f_equal. lia.
Qed.

Lemma shr_1_m (r : shr_record) :
  0 <= shr_m r -> shr_m (shr_1 r) = shr_m r / 2 /\ 0 <= shr_m (shr_1 r).
Proof.
  destruct r as [m rb sb]. cbn [shr_m]. intros Hm.
  destruct m as [|[p|p|]|]; cbn [shr_1 shr_m]; [done| | |done|lia].
  - split; [|lia]. apply (Z.div_unique _ 2 _ 1); lia.
  - split; [|lia]. apply (Z.div_unique _ 2 _ 0); lia.
Qed.

Lemma iter_pos_shr_1_m (n : positive) (r : shr_record) :
  0 <= shr_m r ->
  shr_m (SpecFloat.iter_pos shr_1 n r) = shr_m r / 2 ^ Z.pos n
  /\ 0 <= shr_m (SpecFloat.iter_pos shr_1 n r).
Proof.
  revert r. induction n as [n IH|n IH|]; intros r Hr; cbn [SpecFloat.iter_pos].
  - destruct (shr_1_m r Hr) as [H1 H1'].
    destruct (IH _ H1') as [H2 H2']. destruct (IH _ H2') as [H3 H3'].
    split; [|done].
    replace (2 ^ Z.pos n~1) with (2 * 2 ^ Z.pos n * 2 ^ Z.pos n).
    + assert (0 < 2 ^ Z.pos n) by (by apply Z.pow_pos_nonneg).
      rewrite H3, H2, H1, !Zdiv_Zdiv by lia. f_equal. lia.
    + rewrite (Pos2Z.inj_xI n).
      replace (2 * Z.pos n + 1) with (1 + Z.pos n + Z.pos n) by lia.
      rewrite !Z.pow_add_r by lia. lia.
  - destruct (IH _ Hr) as [H2 H2']. destruct (IH _ H2') as [H3 H3'].
    split; [|done].
    replace (2 ^ Z.pos n~0) with (2 ^ Z.pos n * 2 ^ Z.pos n).
    + assert (0 < 2 ^ Z.pos n) by (by apply Z.pow_pos_nonneg).
      rewrite H3, H2, Zdiv_Zdiv by lia. done.
    + rewrite (Pos2Z.inj_xO n).
      replace (2 * Z.pos n) with (Z.pos n + Z.pos n) by lia.
      rewrite Z.pow_add_r by lia. lia.
  - apply shr_1_m in Hr. by rewrite Z.pow_1_r.
Qed.

Lemma shr_record_of_loc_m (m : Z) (l : location) :
  shr_m (shr_record_of_loc m l) = m.
Proof. by destruct l as [|[]]. Qed.

(** Shifting a positive mantissa at an exponent not below the least one
    leaves a positive mantissa. *)
Lemma shr_fexp_pos (m : positive) (ex : Z) (l : location) :
  -1074 <= ex ->
  0 < shr_m (fst (shr_fexp prec emax (Z.pos m) ex l))
  /\ -1074 <= snd (shr_fexp prec emax (Z.pos m) ex l).
Proof.
  intros Hex. unfold shr_fexp, shr.
  pose proof (digits2_pos_lower m) as Hlow.
  destruct (fexp prec emax (Zdigits2 (Z.pos m) + ex) - ex) as [|n|n] eqn:Hn;
    cbn [fst snd]; rewrite ?shr_record_of_loc_m; [lia| |lia].
  destruct (iter_pos_shr_1_m n (shr_record_of_loc (Z.pos m) l)) as [-> _].
  { by rewrite shr_record_of_loc_m. }
  rewrite shr_record_of_loc_m. split; [|lia].
  unfold fexp, SpecFloat.emin, Zdigits2, prec, emax in Hn.
  assert (2 ^ Z.pos n <= 2 ^ (Z.pos (digits2_pos m) - 1))
    by (apply Z.pow_le_mono_r; lia).
  apply Z.div_str_pos. split; [by apply Z.pow_pos_nonneg|lia].
Qed.

Lemma round_nearest_even_pos (m : Z) (l : location) :
  0 < m -> 0 < round_nearest_even m l.
Proof.
  intros Hm. destruct l as [|[]]; cbn [round_nearest_even]; try lia.
  destruct (Z.even m); lia.
Qed.

(** Rounding a positive mantissa at an exponent not below the least one
    gives a finite double or an infinity of the sign asked for: never a
    zero, never a NaN. *)
Lemma binary_round_aux_sign (sx : bool) (m : positive) (ex : Z) (l : location) :
  -1074 <= ex ->
  (exists m' e', binary_round_aux prec emax sx (Z.pos m) ex l = S754_finite sx m' e')
  \/ binary_round_aux prec emax sx (Z.pos m) ex l = S754_infinity sx.
Proof.
  intros Hex. unfold binary_round_aux.
  pose proof (shr_fexp_pos m ex l Hex) as [Hm1 He1].
  destruct (shr_fexp prec emax (Z.pos m) ex l) as [mrs' e']. cbn [fst snd] in *.
  pose proof (round_nearest_even_pos (shr_m mrs') (loc_of_shr_record mrs') Hm1)
    as Hr.
  destruct (round_nearest_even (shr_m mrs') (loc_of_shr_record mrs'))
    as [|m1|m1]; [lia| |lia].
  pose proof (shr_fexp_pos m1 e' loc_Exact He1) as [Hm2 _].
  destruct (shr_fexp prec emax (Z.pos m1) e' loc_Exact) as [mrs'' e''].
  cbn [fst snd] in *.
  destruct (shr_m mrs'') as [|m2|m2]; [lia| |lia].
  destruct (e'' <=? emax - prec); eauto.
Qed.

Lemma binary_round_sign (sx : bool) (m : positive) (ex : Z) :
  -1074 <= ex ->
  (exists m' e', binary_round prec emax sx m ex = S754_finite sx m' e')
  \/ binary_round prec emax sx m ex = S754_infinity sx.
Proof.
  intros Hex. unfold binary_round.
  destruct (shl_align m ex (fexp prec emax (Z.pos (digits2_pos m) + ex)))
    as [mz ez] eqn:Hal.
  apply binary_round_aux_sign.
  unfold shl_align in Hal.
  destruct (fexp prec emax (Z.pos (digits2_pos m) + ex) - ex) eqn:Hd;
    injection Hal as <- <-; try lia.
  unfold fexp, SpecFloat.emin, prec, emax. lia.
Qed.

Lemma finite_key_aligned (s : bool) (m : positive) (ex ez : Z) :
  -1074 <= ez <= ex ->
  SFkey (S754_finite s m ex)
  = cond_Zopp s (Z.pos (fst (shl_align m ex ez))) * 2 ^ (ez + 1074).
Proof.
  intros Hez. rewrite shl_align_val by lia. cbn [SFkey].
  replace (ex + 1074) with ((ex - ez) + (ez + 1074)) by lia.
  rewrite Z.pow_add_r by lia. destruct s; cbn [cond_Zopp]; lia.
Qed.

(** The sign of a difference of doubles tells their order: [a - b] is above
    zero exactly when [b < a] and below zero exactly when [a < b]. *)
Lemma SFsub_sign (a b : spec_float) :
  valid_binary a = true -> valid_binary b = true ->
  SFltb (S754_zero false) (SF64sub a b) = SFltb b a
  /\ SFltb (SF64sub a b) (S754_zero false) = SFltb a b.
Proof.
  intros Ha Hb.
  destruct a as [sa|sa| |sa ma ea], b as [sb|sb| |sb mb eb];
    try (by repeat match goal with s : bool |- _ => destruct s end).
  pose proof (valid_finite _ _ _ Ha) as (Hea & _).
  pose proof (valid_finite _ _ _ Hb) as (Heb & _).
  unfold SFltb.
  rewrite (SFcompare_key _ _ Hb Ha), (SFcompare_key _ _ Ha Hb) by done.
  rewrite (finite_key_aligned sa ma ea (Z.min ea eb)) by lia.
  rewrite (finite_key_aligned sb mb eb (Z.min ea eb)) by lia.
  unfold SF64sub, SFsub.
  set (A := cond_Zopp sa _). set (B := cond_Zopp sb _).
  assert (0 < 2 ^ (Z.min ea eb + 1074)) as HP by (apply Z.pow_pos_nonneg; lia).
  set (P := 2 ^ _) in *.
  destruct (A - B) as [|d|d] eqn:HD; cbn [binary_normalize].
  - replace A with B by lia. by rewrite Z.compare_refl.
  - rewrite (Zcompare_Lt (B * P) (A * P)), (Zcompare_Gt (A * P) (B * P)) by nia.
    by destruct (binary_round_sign false d (Z.min ea eb) ltac:(lia))
      as [(m' & e' & ->)| ->].
  - rewrite (Zcompare_Gt (B * P) (A * P)), (Zcompare_Lt (A * P) (B * P)) by nia.
    by destruct (binary_round_sign true d (Z.min ea eb) ltac:(lia))
      as [(m' & e' & ->)| ->].
Qed.

Lemma sub_sign (a b : double) :
  (0 <? a - b)%float = (b <? a)%float /\ (a - b <? 0)%float = (a <? b)%float.
Proof.
  rewrite !ltb_spec, sub_spec, Prim2SF_zero.
  apply SFsub_sign; apply Prim2SF_valid.
Qed.

Lemma is_nan_SF (x : double) : PrimFloat.is_nan x = SFis_nan (Prim2SF x).
Proof.
  unfold PrimFloat.is_nan. rewrite FloatAxioms.eqb_spec. unfold SFeqb.
  pose proof (Prim2SF_valid x) as Hx.
  destruct (Prim2SF x) as [s|[|]| |s m ex] eqn:Hsf; try done.
  by rewrite (SFcompare_key _ _ Hx Hx), Z.compare_refl.
Qed.

Lemma SFcompare_nan (a b : spec_float) :
  SFis_nan a = true \/ SFis_nan b = true -> SFcompare a b = None.
Proof. intros [Hn|Hn]; destruct a, b; done. Qed.

(** On doubles that are not NaN, [<], [<=] and [==] are the order and the
    equality of the keys. *)
Lemma ltb_dkey (a b : double) :
  PrimFloat.is_nan a = false -> PrimFloat.is_nan b = false ->
  (a <? b)%float = (dkey a <? dkey b).
Proof.
  rewrite !is_nan_SF, ltb_spec. intros Ha Hb. unfold SFltb, dkey.
  rewrite SFcompare_key by auto using Prim2SF_valid.
  unfold Z.ltb. by destruct (_ ?= _).
Qed.

Lemma leb_dkey (a b : double) :
  PrimFloat.is_nan a = false -> PrimFloat.is_nan b = false ->
  (a <=? b)%float = (dkey a <=? dkey b).
Proof.
  rewrite !is_nan_SF, leb_spec. intros Ha Hb. unfold SFleb, dkey.
  rewrite SFcompare_key by auto using Prim2SF_valid.
  unfold Z.leb. by destruct (_ ?= _).
Qed.

Lemma eqb_dkey (a b : double) :
  PrimFloat.is_nan a = false -> PrimFloat.is_nan b = false ->
  (a =? b)%float = (dkey a =? dkey b).
Proof.
  rewrite !is_nan_SF, FloatAxioms.eqb_spec. intros Ha Hb. unfold SFeqb, dkey.
  rewrite SFcompare_key by auto using Prim2SF_valid.
  destruct (Z.eqb_spec (SFkey (Prim2SF a)) (SFkey (Prim2SF b))) as [->|Hne].
  - by rewrite Z.compare_refl.
  - by destruct (Z.compare_spec (SFkey (Prim2SF a)) (SFkey (Prim2SF b))).
Qed.

Lemma ltb_nan (a b : double) :
  PrimFloat.is_nan a = true \/ PrimFloat.is_nan b = true -> (a <? b)%float = false.
Proof.
  rewrite !is_nan_SF, ltb_spec. intros Hn. unfold SFltb.
  by rewrite SFcompare_nan.
Qed.

Lemma ltb_asym (a b : double) : (a <? b)%float = true -> (b <? a)%float = false.
Proof.
  destruct (PrimFloat.is_nan a) eqn:Ha; [by rewrite ltb_nan by auto|].
  destruct (PrimFloat.is_nan b) eqn:Hb; [by rewrite ltb_nan by auto|].
  rewrite !ltb_dkey by done. lia.
Qed.

Lemma ltb_true_not_nan (a b : double) :
  (a <? b)%float = true ->
  PrimFloat.is_nan a = false /\ PrimFloat.is_nan b = false.
Proof.
  intros Hlt.
  destruct (PrimFloat.is_nan a) eqn:Ha; [by rewrite ltb_nan in Hlt by auto|].
  destruct (PrimFloat.is_nan b) eqn:Hb; [by rewrite ltb_nan in Hlt by auto|].
  done.
Qed.

Lemma compare_double_ltb (a b : double) :
  compare_double a b
  = (if (b <? a)%float then 1 else 0) - (if (a <? b)%float then 1 else 0).
Proof. unfold compare_double. by destruct (sub_sign a b) as [-> ->]. Qed.

Lemma compare_double_le_key (a b : double) :
  PrimFloat.is_nan a = false -> PrimFloat.is_nan b = false ->
  compare_double a b <= 0 <-> dkey a <= dkey b.
Proof.
  intros Ha Hb. rewrite compare_double_ltb, !ltb_dkey by done.
  destruct (Z.ltb_spec (dkey b) (dkey a)), (Z.ltb_spec (dkey a) (dkey b)); lia.
Qed.

Lemma eqb_key (a b : double) :
  PrimFloat.is_nan a = false -> PrimFloat.is_nan b = false ->
  (a =? b)%float = true <-> dkey a = dkey b.
Proof. intros Ha Hb. rewrite eqb_dkey by done. apply Z.eqb_eq. Qed.

(** ** Signs *)

Lemma shr_fexp_nonneg (m ex : Z) (l : location) :
  0 <= m -> 0 <= shr_m (fst (shr_fexp prec emax m ex l)).
Proof.
  intros Hm. unfold shr_fexp, shr.
  destruct (fexp prec emax (Zdigits2 m + ex) - ex) as [|n|n];
    cbn [fst]; rewrite ?shr_record_of_loc_m; [done| |done].
  apply iter_pos_shr_1_m. by rewrite shr_record_of_loc_m.
Qed.

Lemma round_nearest_even_nonneg (m : Z) (l : location) :
  0 <= m -> 0 <= round_nearest_even m l.
Proof.
  intros Hm. destruct l as [|[]]; cbn [round_nearest_even]; try lia.
  destruct (Z.even m); lia.
Qed.

(** Rounding a mantissa that is not negative to the sign [+] gives a number
    with its sign bit clear. *)
Lemma binary_round_aux_clear (m ex : Z) (l : location) :
  0 <= m -> SFsign_clear (binary_round_aux prec emax false m ex l) = true.
Proof.
  intros Hm. unfold binary_round_aux.
  pose proof (shr_fexp_nonneg m ex l Hm) as Hm1.
  destruct (shr_fexp prec emax m ex l) as [mrs' e']. cbn [fst] in Hm1.
  pose proof (round_nearest_even_nonneg (shr_m mrs') (loc_of_shr_record mrs') Hm1)
    as Hr.
  pose proof (shr_fexp_nonneg _ e' loc_Exact Hr) as Hm2.
  destruct (shr_fexp prec emax _ e' loc_Exact) as [mrs'' e'']. cbn [fst] in Hm2.
  destruct (shr_m mrs'') as [|m2|m2]; [done| |lia].
  by destruct (e'' <=? emax - prec).
Qed.

Lemma binary_round_clear (m : positive) (ex : Z) :
  SFsign_clear (binary_round prec emax false m ex) = true.
Proof.
  unfold binary_round. destruct (shl_align m ex _) as [mz ez].
  by apply binary_round_aux_clear.
Qed.

Lemma SFadd_clear (a b : spec_float) :
  SFsign_clear a = true -> SFsign_clear b = true ->
  SFsign_clear (SFadd prec emax a b) = true.
Proof.
  destruct a as [[|]|[|]| |[|] ma ea], b as [[|]|[|]| |[|] mb eb]; try done.
  intros _ _. unfold SFadd. cbn [cond_Zopp Z.add binary_normalize].
  apply binary_round_clear.
Qed.

Lemma SFadd_not_negative (a b : spec_float) :
  SFnot_negative a = true -> SFnot_negative b = true ->
  SFnot_negative (SFadd prec emax a b) = true.
Proof.
  unfold SFnot_negative.
  destruct (SFis_nan a) eqn:Ha; [by destruct a|].
  destruct (SFis_nan b) eqn:Hb; [by destruct a, b|].
  cbn [orb]. intros Hca Hcb. by rewrite (SFadd_clear a b), orb_true_r.
Qed.

Lemma SFdiv_core_nonneg (m1 m2 : positive) (e1 e2 : Z) :
  0 <= fst (fst (SFdiv_core_binary prec emax (Z.pos m1) e1 (Z.pos m2) e2)).
Proof.
  unfold SFdiv_core_binary.
  set (s := e1 - e2 - _).
  set (m' := match s with Z.pos _ => _ | 0 => _ | Z.neg _ => _ end).
  assert (0 <= m') as Hm'.
  { unfold m'. destruct s; [lia| |lia]. by apply Z.shiftl_nonneg. }
  pose proof (Z_div_mod m' (Z.pos m2) ltac:(lia)) as Hdiv.
  destruct (Z.div_eucl m' (Z.pos m2)) as [q r]. cbn [fst]. nia.
Qed.

Lemma SFdiv_finite_clear (m1 m2 : positive) (e1 e2 : Z) :
  SFsign_clear (SFdiv prec emax (S754_finite false m1 e1) (S754_finite false m2 e2))
  = true.
Proof.
  unfold SFdiv. pose proof (SFdiv_core_nonneg m1 m2 e1 e2) as Hq.
  destruct (SFdiv_core_binary prec emax (Z.pos m1) e1 (Z.pos m2) e2) as [[q e'] l].
  by apply binary_round_aux_clear.
Qed.

Lemma SFdiv_not_negative (a b : spec_float) :
  SFnot_negative a = true -> SFnot_negative b = true ->
  SFnot_negative (SFdiv prec emax a b) = true.
Proof.
  unfold SFnot_negative.
  destruct a as [[|]|[|]| |[|] ma ea], b as [[|]|[|]| |[|] mb eb]; try done.
  intros _ _. by rewrite SFdiv_finite_clear, orb_true_r.
Qed.

Lemma SFmul_self_not_negative (a : spec_float) :
  SFnot_negative (SFmul prec emax a a) = true.
Proof.
  unfold SFnot_negative.
  destruct a as [[|]|[|]| |s ma ea]; try done.
  unfold SFmul. replace (xorb s s) with false by (by destruct s).
  by rewrite binary_round_aux_clear, orb_true_r.
Qed.

Lemma add_not_negative (a b : double) :
  not_negative a = true -> not_negative b = true -> not_negative (a + b) = true.
Proof. unfold not_negative. rewrite add_spec. apply SFadd_not_negative. Qed.

Lemma div_not_negative (a b : double) :
  not_negative a = true -> not_negative b = true -> not_negative (a / b) = true.
Proof. unfold not_negative. rewrite div_spec. apply SFdiv_not_negative. Qed.

Lemma sq_dev_not_negative (mean x : double) : not_negative (sq_dev mean x) = true.
Proof.
  unfold not_negative, sq_dev. rewrite mul_spec. apply SFmul_self_not_negative.
Qed.

(** The conversion of an [int] that is not negative has its sign bit clear. *)
Lemma double_of_int_clear (n : Z) : 0 <= n -> sign_clear (double_of_int n) = true.
Proof.
  intros Hn. unfold sign_clear, double_of_int.
  destruct (Z.ltb_spec n 0) as [?|_]; [lia|].
  rewrite of_uint63_spec.
  pose proof (Uint63.to_Z_bounded (Uint63.of_Z n)) as [Hlo _].
  destruct (Uint63.to_Z (Uint63.of_Z n)) as [|p|p]; [done| |lia].
  apply binary_round_clear.
Qed.

Lemma sign_clear_not_negative (x : double) :
  sign_clear x = true -> not_negative x = true.
Proof. unfold sign_clear, not_negative, SFnot_negative. intros ->. apply orb_true_r. Qed.

Lemma not_negative_ltb (x : double) :
  not_negative x = true -> (x <? 0)%float = false.
Proof.
  unfold not_negative. rewrite ltb_spec, Prim2SF_zero.
  by destruct (Prim2SF x) as [[|]|[|]| |[|] m ex].
Qed.

Lemma fsum_not_negative (l : list double) :
  Forall (fun x => not_negative x = true) l -> not_negative (fsum l) = true.
Proof.
  unfold fsum. assert (not_negative 0 = true) as H0 by reflexivity.
  revert H0. generalize 0%float. induction l as [|x l IH]; intros s Hs Hl; [done|].
  apply Forall_cons in Hl as [Hx Hl]. cbn [fold_left].
  apply IH; [|done]. by apply add_not_negative.
Qed.

Lemma add_clear (a b : double) :
  sign_clear a = true -> sign_clear b = true -> sign_clear (a + b) = true.
Proof. unfold sign_clear. rewrite add_spec. apply SFadd_clear. Qed.

Lemma add_infinity (a b : double) :
  sign_clear a = true -> sign_clear b = true ->
  a = infinity \/ b = infinity -> (a + b)%float = infinity.
Proof.
  unfold sign_clear. intros Ha Hb Hinf. apply Prim2SF_inj.
  rewrite add_spec, Prim2SF_infinity.
  destruct Hinf as [-> | ->]; rewrite Prim2SF_infinity in *.
  - by destruct (Prim2SF b) as [[|]|[|]| |[|] m ex].
  - by destruct (Prim2SF a) as [[|]|[|]| |[|] m ex].
Qed.

(** The reciprocal of [+0] is [+infinity]; the reciprocal of a positive
    double has its sign bit clear. *)
Lemma reciprocal_zero : reciprocal 0 = infinity.
Proof. reflexivity. Qed.

Lemma reciprocal_clear (x : double) :
  x = 0%float \/ (0 <? x)%float = true -> sign_clear (reciprocal x) = true.
Proof.
  intros [-> | Hx]; [reflexivity|].
  unfold sign_clear, reciprocal. rewrite div_spec, Prim2SF_one.
  rewrite ltb_spec, Prim2SF_zero in Hx.
  destruct (Prim2SF x) as [[|]|[|]| |[|] m ex]; try done.
  apply SFdiv_finite_clear.
Qed.

Lemma fold_add_clear (l : list double) (s : double) :
  sign_clear s = true -> Forall (fun x => sign_clear x = true) l ->
  sign_clear (fold_left PrimFloat.add l s) = true
  /\ (s = infinity -> fold_left PrimFloat.add l s = infinity).
Proof.
  revert s. induction l as [|x l IH]; intros s Hs Hl; [done|].
  apply Forall_cons in Hl as [Hx Hl]. cbn [fold_left].
  destruct (IH (s + x)%float) as [Hc Hinf]; [by apply add_clear|done|].
  split; [done|]. intros ->. apply Hinf. apply add_infinity; auto.
Qed.

Lemma Prim2SF_two : Prim2SF 2%float = S754_finite false 4503599627370496 (-51).
Proof. reflexivity. Qed.

Lemma div_two_clear (x : double) :
  sign_clear x = true -> sign_clear (x / 2) = true.
Proof.
  unfold sign_clear. rewrite div_spec, Prim2SF_two.
  destruct (Prim2SF x) as [[|]|[|]| |[|] m ex]; try done.
  intros _. apply SFdiv_finite_clear.
Qed.

Lemma not_negative_not_nan (x : double) :
  not_negative x = true -> PrimFloat.is_nan x = false -> sign_clear x = true.
Proof.
  rewrite is_nan_SF. unfold not_negative, SFnot_negative, sign_clear.
  intros H Hn. by rewrite Hn in H.
Qed.

Lemma sign_clear_leb (x : double) : sign_clear x = true -> (0 <=? x)%float = true.
Proof.
  unfold sign_clear. rewrite leb_spec, Prim2SF_zero.
  by destruct (Prim2SF x) as [[|]|[|]| |[|] m ex].
Qed.

(** ** Signs through the square root loop *)

Lemma sub_nan (a b : double) :
  PrimFloat.is_nan a = true -> PrimFloat.is_nan (a - b)%float = true.
Proof.
  rewrite !is_nan_SF, sub_spec. by destruct (Prim2SF a), (Prim2SF b).
Qed.

Lemma sub_nan_r (a b : double) :
  PrimFloat.is_nan b = true -> PrimFloat.is_nan (a - b)%float = true.
Proof.
  rewrite !is_nan_SF, sub_spec.
  destruct (Prim2SF b); try done. by destruct (Prim2SF a).
Qed.

Lemma babylonian_loop_not_negative (fuel : nat) (value x y r : double) :
  not_negative value = true -> not_negative x = true -> not_negative y = true ->
  babylonian_loop fuel value x y = Ret r -> not_negative r = true.
Proof.
  intros Hv. revert x y.
  induction fuel as [|fuel IH]; intros x y Hx Hy; cbn [babylonian_loop];
    destruct (e <? x - y)%float; try done; try congruence.
  assert (not_negative ((x + y) / 2) = true) as Hx'.
  { apply div_not_negative; [by apply add_not_negative|reflexivity]. }
  apply IH; [done|]. by apply div_not_negative.
Qed.

(** Through the square root loop [x] is a number with its sign bit clear.
    [y] may become a NaN, and the loop ends then. *)
Lemma babylonian_loop_clear (fuel : nat) (value x y r : double) :
  sign_clear value = true -> sign_clear x = true -> not_negative y = true ->
  babylonian_loop fuel value x y = Ret r -> sign_clear r = true.
Proof.
  intros Hv. revert x y.
  induction fuel as [|fuel IH]; intros x y Hx Hy; cbn [babylonian_loop];
    destruct (e <? x - y)%float eqn:Hg; try done; try congruence.
  assert (PrimFloat.is_nan y = false) as Hnan.
  { destruct (PrimFloat.is_nan y) eqn:Hn; [|done].
    apply ltb_true_not_nan in Hg as [_ Hg]. by rewrite sub_nan_r in Hg. }
  assert (sign_clear ((x + y) / 2) = true) as Hx'.
  { apply div_two_clear, add_clear; [done|]. by apply not_negative_not_nan. }
  apply IH; [done|].
  apply div_not_negative; by apply sign_clear_not_negative.
Qed.

(** ** Rounding a quotient *)

Lemma Zdigits2_bounds (m : Z) :
  0 <= m ->
  0 <= Zdigits2 m /\ m < 2 ^ Zdigits2 m /\ (0 < m -> 2 ^ (Zdigits2 m - 1) <= m).
Proof.
  destruct m as [|p|p]; [done| |lia]. intros _. cbn [Zdigits2].
  split; [lia|]. split; [apply digits2_pos_upper|]. intros _. apply digits2_pos_lower.
Qed.

Lemma Zdigits2_le (m k : Z) : 0 <= k -> 0 <= m < 2 ^ k -> Zdigits2 m <= k.
Proof.
  intros Hk [Hm0 Hm]. destruct (Z.eq_dec m 0) as [->|Hne]; [done|].
  destruct (Zdigits2_bounds m Hm0) as (Hd & _ & Hlow). specialize (Hlow ltac:(lia)).
  destruct (Z.le_gt_cases (Zdigits2 m) k) as [?|Hgt]; [done|].
  assert (2 ^ k <= 2 ^ (Zdigits2 m - 1)) by (apply Z.pow_le_mono_r; lia). lia.
Qed.

(** Shifting out zeros only leaves the record exact. *)
Lemma shr_1_exact (r : shr_record) :
  0 <= shr_m r -> shr_r r = false -> shr_s r = false -> (2 | shr_m r) ->
  shr_r (shr_1 r) = false /\ shr_s (shr_1 r) = false.
Proof.
  destruct r as [m rb sb]. cbn [shr_m shr_r shr_s]. intros Hm -> -> [z Hz].
  destruct m as [|[p|p|]|]; cbn [shr_1 shr_r shr_s orb]; try done; lia.
Qed.

Lemma divide_pow_div (a b m : Z) :
  0 <= a -> 0 <= b -> (2 ^ (a + b) | m) -> (2 ^ a | m) /\ (2 ^ b | m / 2 ^ a).
Proof.
  intros Ha Hb [z Hz]. rewrite Z.pow_add_r in Hz by done.
  assert (0 < 2 ^ a) by (by apply Z.pow_pos_nonneg).
  split.
  - exists (z * 2 ^ b). lia.
  - exists z. replace m with (z * 2 ^ b * 2 ^ a) by lia.
    by rewrite Z.div_mul by lia.
Qed.

Lemma iter_pos_shr_1_exact (n : positive) (r : shr_record) :
  0 <= shr_m r -> shr_r r = false -> shr_s r = false ->
  (2 ^ Z.pos n | shr_m r) ->
  shr_r (SpecFloat.iter_pos shr_1 n r) = false
  /\ shr_s (SpecFloat.iter_pos shr_1 n r) = false.
Proof.
  revert r. induction n as [n IH|n IH|]; intros r Hm Hr Hs Hdiv;
    cbn [SpecFloat.iter_pos].
  - rewrite (Pos2Z.inj_xI n) in Hdiv.
    replace (2 * Z.pos n + 1) with (1 + (Z.pos n + Z.pos n)) in Hdiv by lia.
    apply divide_pow_div in Hdiv as [H2 Hdiv]; [|lia..].
    apply divide_pow_div in Hdiv as [Hd1 Hd2]; [|lia..].
    rewrite Z.pow_1_r in *.
    destruct (shr_1_m r Hm) as [E1 P1].
    destruct (shr_1_exact r Hm Hr Hs H2) as [R1 S1].
    rewrite <- E1 in Hd1, Hd2.
    destruct (iter_pos_shr_1_m n _ P1) as [E2 P2].
    destruct (IH _ P1 R1 S1 Hd1) as [R2 S2].
    rewrite <- E2 in Hd2. by apply IH.
  - rewrite (Pos2Z.inj_xO n) in Hdiv.
    replace (2 * Z.pos n) with (Z.pos n + Z.pos n) in Hdiv by lia.
    apply divide_pow_div in Hdiv as [Hd1 Hd2]; [|lia..].
    destruct (iter_pos_shr_1_m n _ Hm) as [E2 P2].
    destruct (IH _ Hm Hr Hs Hd1) as [R2 S2].
    rewrite <- E2 in Hd2. by apply IH.
  - rewrite Z.pow_1_r in Hdiv. by apply shr_1_exact.
Qed.

(** [shr_fexp] at an exponent not below the least one: the mantissa loses
    the digits it has beyond 53, and nothing else. *)
Lemma shr_fexp_spec (m ex : Z) (l : location) :
  0 <= m -> -1074 <= ex ->
  let n := Z.max 0 (Zdigits2 m - 53) in
  snd (shr_fexp prec emax m ex l) = ex + n
  /\ shr_m (fst (shr_fexp prec emax m ex l)) = m / 2 ^ n
  /\ m / 2 ^ n < 2 ^ 53
  /\ (0 < m -> 0 < m / 2 ^ n)
  /\ (l = loc_Exact -> (2 ^ n | m) ->
      loc_of_shr_record (fst (shr_fexp prec emax m ex l)) = loc_Exact).
Proof.
  intros Hm Hex n. destruct (Zdigits2_bounds m Hm) as (Hd & Hup & Hlow).
  unfold shr_fexp, shr, fexp, SpecFloat.emin, prec, emax.
  destruct (Z.max (Zdigits2 m + ex - 53) (3 - 1024 - 53) - ex) as [|k|k] eqn:Hk;
    cbn [fst snd].
  - assert (n = 0) as -> by lia. rewrite Z.pow_0_r, Z.div_1_r, shr_record_of_loc_m.
    split; [lia|]. split; [done|]. split.
    { assert (2 ^ Zdigits2 m <= 2 ^ 53) by (apply Z.pow_le_mono_r; lia). lia. }
    split; [done|]. by intros -> _.
  - assert (n = Z.pos k) as -> by lia.
    destruct (iter_pos_shr_1_m k (shr_record_of_loc m l)) as [-> _];
      [by rewrite shr_record_of_loc_m|].
    rewrite shr_record_of_loc_m.
    assert (0 < 2 ^ Z.pos k) by (by apply Z.pow_pos_nonneg).
    split; [lia|]. split; [done|]. split.
    { apply Z.div_lt_upper_bound; [done|].
      rewrite <- Z.pow_add_r by lia.
      replace (Z.pos k + 53) with (Zdigits2 m) by lia. done. }
    split.
    { intros Hpos. specialize (Hlow Hpos).
      assert (2 ^ Z.pos k <= 2 ^ (Zdigits2 m - 1)) by (apply Z.pow_le_mono_r; lia).
      apply Z.div_str_pos. lia. }
    intros -> Hdiv.
    destruct (iter_pos_shr_1_exact k (shr_record_of_loc m loc_Exact))
      as [Hr Hs]; try done.
    destruct (SpecFloat.iter_pos shr_1 k _) as [m' rb sb].
    cbn [shr_r shr_s] in Hr, Hs. by subst.
  - assert (n = 0) as -> by lia. rewrite Z.pow_0_r, Z.div_1_r, shr_record_of_loc_m.
    split; [lia|]. split; [done|]. split.
    { assert (2 ^ Zdigits2 m <= 2 ^ 53) by (apply Z.pow_le_mono_r; lia). lia. }
    split; [done|]. by intros -> _.
Qed.

(** Rounding a mantissa that is not negative at an exponent not below the
    least one: the digits beyond 53 are cut, the rest is kept or raised by
    one (kept when nothing was cut), and a carry into a 54th digit is
    shifted out. *)
Lemma binary_round_aux_spec (s : bool) (q e : Z) (l : location) :
  0 <= q -> -1074 <= e ->
  let n := Z.max 0 (Zdigits2 q - 53) in
  exists mb,
    (mb = q / 2 ^ n \/ mb = q / 2 ^ n + 1)
    /\ (l = loc_Exact -> (2 ^ n | q) -> mb = q / 2 ^ n)
    /\ (0 < q -> 0 < mb)
    /\ mb <= 2 ^ 53
    /\ binary_round_aux prec emax s q e l
       = (if mb =? 0 then S754_zero s
          else if mb =? 2 ^ 53 then
            if e + n + 1 <=? 971 then S754_finite s (2 ^ 52)%positive (e + n + 1)
            else S754_infinity s
          else if e + n <=? 971 then S754_finite s (Z.to_pos mb) (e + n)
          else S754_infinity s).
Proof.
  intros Hq He n.
  destruct (shr_fexp_spec q e l Hq He) as (He1 & Hm1 & Hlt & Hpos & Hexact).
  fold n in He1, Hm1, Hlt, Hpos, Hexact.
  unfold binary_round_aux.
  destruct (shr_fexp prec emax q e l) as [mrs' e1]. cbn [fst snd] in *. subst e1.
  set (mb := round_nearest_even (shr_m mrs') (loc_of_shr_record mrs')).
  assert (0 <= q / 2 ^ n) as Hqa by (apply Z.div_pos; [done|apply Z.pow_pos_nonneg; lia]).
  assert (mb = q / 2 ^ n \/ mb = q / 2 ^ n + 1) as Hmb.
  { unfold mb. rewrite Hm1.
    destruct (loc_of_shr_record mrs') as [|[]]; cbn [round_nearest_even]; auto.
    destruct (Z.even _); auto. }
  assert (l = loc_Exact -> (2 ^ n | q) -> mb = q / 2 ^ n) as Hmbx.
  { intros Hl Hdiv. unfold mb. by rewrite (Hexact Hl Hdiv), Hm1. }
  exists mb. split; [done|]. split; [done|]. split; [intros ?%Hpos; lia|].
  split; [lia|].
  assert (0 <= mb) as Hmb0 by lia. assert (-1074 <= e + n) as He' by lia.
  destruct (shr_fexp_spec mb (e + n) loc_Exact Hmb0 He') as (He2 & Hm2 & _).
  destruct (shr_fexp prec emax mb (e + n) loc_Exact) as [mrs'' e2].
  cbn [fst snd] in *. subst e2. rewrite Hm2.
  destruct (Z.eqb_spec mb 0) as [->|Hne0]; [done|].
  destruct (Z.eqb_spec mb (2 ^ 53)) as [->|Hne].
  - change (Zdigits2 (2 ^ 53)) with 54. change (Z.max 0 (54 - 53)) with 1.
    change (2 ^ 53 / 2 ^ 1) with (Z.pos (2 ^ 52)).
    by replace (e + n + 1) with (e + n + 1) by lia.
  - assert (Zdigits2 mb <= 53) as Hd by (apply Zdigits2_le; lia).
    replace (Z.max 0 (Zdigits2 mb - 53)) with 0 by lia.
    rewrite Z.pow_0_r, Z.div_1_r, Z.add_0_r.
    destruct mb as [|p|p]; [done| |lia]. done.
Qed.

(** The division of the mantissas: the quotient [q] at the exponent [e'],
    against the exact quotient of [m1 * 2 ^ e1] by the integer [n], the
    double [m2 * 2 ^ e2]; all in units of the least subnormal. *)
Lemma SFdiv_core_spec (m1 m2 : positive) (e1 e2 n : Z) :
  -1074 <= e1 <= 971 -> Z.pos (digits2_pos m1) <= 53 ->
  e2 <= 0 -> 1 <= n -> Z.pos m2 = n * 2 ^ (- e2) ->
  exists q r e',
    SFdiv_core_binary prec emax (Z.pos m1) e1 (Z.pos m2) e2
    = (q, e', new_location (Z.pos m2) r)
    /\ 0 <= q /\ -1074 <= e' <= 970 /\ (q = 0 -> e' = -1074)
    /\ n * q * 2 ^ (e' + 1074) <= Z.pos m1 * 2 ^ (e1 + 1074)
    /\ Z.pos m1 * 2 ^ (e1 + 1074) < n * (q + 1) * 2 ^ (e' + 1074)
    /\ (Z.pos m1 * 2 ^ (e1 + 1074) = n * q * 2 ^ (e' + 1074) -> r = 0).
Proof.
  intros He1 Hd1 He2 Hn Hm2.
  pose proof (digits2_pos_upper m1) as Hup1.
  pose proof (digits2_pos_upper m2) as Hup2.
  pose proof (digits2_pos_lower m1) as Hlow1.
  unfold SFdiv_core_binary.
  change (Zdigits2 (Z.pos m1)) with (Z.pos (digits2_pos m1)).
  change (Zdigits2 (Z.pos m2)) with (Z.pos (digits2_pos m2)).
  set (d1 := Z.pos (digits2_pos m1)) in *. set (d2 := Z.pos (digits2_pos m2)) in *.
  set (T := 2 ^ (- e2)) in *.
  assert (0 < T) as HT by (apply Z.pow_pos_nonneg; lia).
  assert (1 <= d2 + e2) as Hd2.
  { destruct (Z.le_gt_cases 1 (d2 + e2)) as [?|Hlt]; [done|].
    assert (2 ^ d2 <= T) by (apply Z.pow_le_mono_r; lia).
    assert (T <= n * T) by (rewrite <- (Z.mul_1_l T) at 1; apply Z.mul_le_mono_nonneg_r; lia).
    lia. }
  set (e' := Z.min (fexp prec emax (d1 + e1 - (d2 + e2))) (e1 - e2)).
  assert (-1074 <= e' /\ e' <= e1 - e2 /\ e' <= 970
          /\ (-1074 < e' -> e' <= d1 + e1 - (d2 + e2) - 53))
    as (He'lo & He'hi & He'max & He'n).
  { unfold e', fexp, SpecFloat.emin, prec, emax. lia. }
  set (s := e1 - e2 - e').
  assert (0 <= s) as Hs by (unfold s; lia).
  set (m' := match s with Z.pos _ => Z.shiftl (Z.pos m1) s | 0 => Z.pos m1 | Z.neg _ => 0 end).
  assert (m' = Z.pos m1 * 2 ^ s) as Hm'.
  { unfold m'. destruct s as [|p|p] eqn:Hsp; [lia| |lia].
    by rewrite Z.shiftl_mul_pow2. }
  clearbody m'.
  pose proof (Z_div_mod m' (Z.pos m2) ltac:(lia)) as Hdiv.
  destruct (Z.div_eucl m' (Z.pos m2)) as [q r]. destruct Hdiv as [Hqr Hr].
  assert (0 < 2 ^ s) as H2s by (by apply Z.pow_pos_nonneg).
  assert (0 <= q) as Hq.
  { destruct (Z.le_gt_cases 0 q) as [?|Hneg]; [done|].
    assert (Z.pos m2 * q <= Z.pos m2 * (-1)) by (apply Z.mul_le_mono_nonneg_l; lia).
    assert (0 < m') by (rewrite Hm'; apply Z.mul_pos_pos; lia). lia. }
  exists q, r, e'. split; [done|]. split; [done|]. split; [lia|].
  set (P := 2 ^ (e' + 1074)).
  assert (0 < P) as HP by (apply Z.pow_pos_nonneg; lia).
  set (A := Z.pos m1 * 2 ^ (e1 + 1074)).
  assert (A * T = m' * P) as HAT.
  { unfold A, T, P. rewrite Hm', <- !Z.mul_assoc, <- !Z.pow_add_r by lia.
    f_equal. f_equal. unfold s. lia. }
  split.
  { intros ->. destruct (Z.eq_dec e' (-1074)) as [?|Hne]; [done|].
    specialize (He'n ltac:(lia)).
    assert (2 ^ d2 <= 2 ^ (d1 - 1 + s)) as Hpow
      by (apply Z.pow_le_mono_r; unfold s; lia).
    rewrite (Z.pow_add_r 2 (d1 - 1) s) in Hpow by lia.
    assert (2 ^ (d1 - 1) * 2 ^ s <= Z.pos m1 * 2 ^ s)
      by (apply Z.mul_le_mono_nonneg_r; lia).
    lia. }
  rewrite Hm2 in Hqr, Hr. clear Hm2 Hup2 Hd2 He'n Hup1 Hlow1 Hm' He'hi.
  set (M := n * T) in *.
  assert (0 < M) as HM by (unfold M; apply Z.mul_pos_pos; lia).
  assert (forall c, M * c * P = n * c * P * T) as Hc by (intros c; unfold M; ring).
  clearbody M A P T. clear H2s Hs. clearbody e'.
  assert (M * q * P <= A * T /\ A * T < M * (q + 1) * P) as [Hlo Hhi].
  { rewrite HAT, Hqr. split.
    - apply Z.mul_le_mono_nonneg_r; lia.
    - apply Z.mul_lt_mono_pos_r; lia. }
  rewrite Hc in Hlo, Hhi.
  split; [by apply (Z.mul_le_mono_pos_r _ _ T)|].
  split; [by apply (Z.mul_lt_mono_pos_r T)|].
  intros HA.
  assert (m' * P = M * q * P) as Heq by (rewrite <- HAT, HA, Hc; ring).
  apply Z.mul_reg_r in Heq; lia.
Qed.

Lemma round_error_arith (A n qa mb X : Z) :
  1 <= n -> 0 < X -> n * qa * X <= A -> A < n * (qa + 1) * X ->
  mb = qa \/ mb = qa + 1 ->
  Z.abs (mb * X * n - A) <= n * X.
Proof.
  intros Hn HX Hlo Hhi Hmb.
  assert (0 < n * X) by (apply Z.mul_pos_pos; lia).
  replace (n * (qa + 1) * X) with (n * qa * X + n * X) in Hhi by ring.
  destruct Hmb as [-> | ->].
  - replace (qa * X * n) with (n * qa * X) by ring. lia.
  - replace ((qa + 1) * X * n) with (n * qa * X + n * X) by ring. lia.
Qed.

Lemma le_mul_count (n c : Z) : 1 <= n -> 0 <= c -> c <= n * c.
Proof.
  intros Hn Hc. rewrite <- (Z.mul_1_l c) at 1. apply Z.mul_le_mono_nonneg_r; lia.
Qed.

(** The exponent of the quotient stays in range, because the quotient is
    not above the dividend. *)
Lemma round_range_arith (A n qa X E1 m1 : Z) :
  1 <= n -> 2 ^ 52 <= qa -> 0 < X -> 0 < E1 -> 0 < m1 < 2 ^ 53 ->
  n * qa * X <= A -> A = m1 * E1 -> X < 2 * E1.
Proof.
  intros Hn Hqa HX HE1 Hm1 Hlo ->.
  assert (0 <= qa * X) by (apply Z.mul_nonneg_nonneg; lia).
  pose proof (le_mul_count n (qa * X) Hn ltac:(done)) as Hle.
  rewrite Z.mul_assoc in Hle.
  assert (2 ^ 52 * X <= qa * X) by (apply Z.mul_le_mono_nonneg_r; lia).
  assert (m1 * E1 < 2 ^ 53 * E1) by (apply Z.mul_lt_mono_pos_r; lia).
  lia.
Qed.

Lemma round_range_carry_arith (A n qa X E1 m1 : Z) :
  1 <= n -> qa = 2 ^ 53 - 1 -> 0 < X -> 0 < E1 -> 0 < m1 < 2 ^ 53 ->
  n * qa * X < A -> A = m1 * E1 -> X < E1.
Proof.
  intros Hn Hqa HX HE1 Hm1 Hlo ->.
  assert (0 <= qa * X) by (apply Z.mul_nonneg_nonneg; lia).
  pose proof (le_mul_count n (qa * X) Hn ltac:(done)) as Hle.
  rewrite Z.mul_assoc in Hle.
  assert (m1 * E1 <= qa * E1) by (apply Z.mul_le_mono_nonneg_r; lia).
  apply (Z.mul_lt_mono_pos_l qa); lia.
Qed.

(** The quotient of a finite double by a positive integer [n], which is the
    double [m2 * 2 ^ e2]: the result is a zero or a finite double, never an
    infinity, and in units of the least subnormal it differs from the exact
    quotient by at most one unit of its last place. *)
Lemma SFdiv_int_error (s1 : bool) (m1 m2 : positive) (e1 e2 n : Z) :
  valid_binary (S754_finite s1 m1 e1) = true ->
  e2 <= 0 -> 1 <= n -> Z.pos m2 = n * 2 ^ (- e2) ->
  let A := Z.pos m1 * 2 ^ (e1 + 1074) in
  let R := SFdiv prec emax (S754_finite s1 m1 e1) (S754_finite false m2 e2) in
  (R = S754_zero s1 /\ A < n)
  \/ exists m e, R = S754_finite s1 m e /\ -1074 <= e
       /\ Z.abs (Z.pos m * 2 ^ (e + 1074) * n - A) <= n * 2 ^ (e + 1074).
Proof.
  intros Hvalid He2 Hn Hm2 A R.
  pose proof (valid_finite _ _ _ Hvalid) as (He1 & Hd1 & _).
  assert (0 < Z.pos m1 < 2 ^ 53) as Hm1.
  { pose proof (digits2_pos_upper m1).
    assert (2 ^ Z.pos (digits2_pos m1) <= 2 ^ 53) by (apply Z.pow_le_mono_r; lia).
    lia. }
  destruct (SFdiv_core_spec m1 m2 e1 e2 n He1 Hd1 He2 Hn Hm2)
    as (q & r & e' & Hcore & Hq & He' & Hq0 & Hlo & Hhi & Hex).
  subst R. unfold SFdiv. rewrite xorb_false_r, Hcore.
  fold A in Hlo, Hhi, Hex. clear Hcore Hm2 Hvalid.
  destruct (binary_round_aux_spec s1 q e' (new_location (Z.pos m2) r) Hq
              ltac:(lia)) as (mb & Hmb & Hexact & Hpos & Hmax & ->).
  assert (q / 2 ^ Z.max 0 (Zdigits2 q - 53) < 2 ^ 53) as Hqa53
    by (apply (shr_fexp_spec q e' loc_Exact Hq); lia).
  assert (Z.max 0 (Zdigits2 q - 53) <> 0 ->
          2 ^ 52 <= q / 2 ^ Z.max 0 (Zdigits2 q - 53)) as Hbig.
  { intros Hk0. destruct (Zdigits2_bounds q Hq) as (_ & _ & Hlow).
    assert (0 < q) as Hqpos by (destruct (Z.eq_dec q 0) as [->|]; [done|lia]).
    specialize (Hlow Hqpos).
    replace (Zdigits2 q - 1) with (52 + Z.max 0 (Zdigits2 q - 53)) in Hlow by lia.
    rewrite Z.pow_add_r in Hlow by lia.
    apply Z.div_le_lower_bound; [apply Z.pow_pos_nonneg|]; lia. }
  assert (q = 0 -> Z.max 0 (Zdigits2 q - 53) = 0) as Hk00 by (by intros ->).
  set (k := Z.max 0 (Zdigits2 q - 53)) in *.
  assert (0 <= k) as Hk by lia. clearbody k.
  set (K := 2 ^ k) in *.
  assert (0 < K) as HK by (by apply Z.pow_pos_nonneg).
  set (P := 2 ^ (e' + 1074)) in *.
  assert (0 < P) as HP by (apply Z.pow_pos_nonneg; lia).
  assert (2 ^ (e' + k + 1074) = K * P) as HKP
    by (unfold K, P; rewrite <- Z.pow_add_r by lia; f_equal; lia).
  assert (2 ^ (e' + k + 1 + 1074) = 2 * (K * P)) as HKP1.
  { rewrite <- HKP. replace (e' + k + 1 + 1074) with (1 + (e' + k + 1074)) by lia.
    by rewrite Z.pow_add_r by lia. }
  assert (0 < K * P) as HKPpos by (by apply Z.mul_pos_pos).
  pose proof (Z.div_mod q K ltac:(lia)) as Hqk.
  pose proof (Z.mod_pos_bound q K HK) as Hrho.
  set (qa := q / K) in *.
  assert (0 <= qa) as Hqa by (apply Z.div_pos; lia).
  set (E1 := 2 ^ (e1 + 1074)) in *.
  assert (0 < E1) as HE1 by (apply Z.pow_pos_nonneg; lia).
  (* the exact quotient lies between two neighbours at the result's exponent *)
  assert (n * qa * (K * P) <= A /\ A < n * (qa + 1) * (K * P)
          /\ (A = n * qa * (K * P) -> mb = qa)) as (HAlo & HAhi & Hkeep).
  { assert (0 < n * P) as HnP by (apply Z.mul_pos_pos; lia).
    assert (n * qa * (K * P) = n * P * (K * qa)) as -> by ring.
    assert (n * (qa + 1) * (K * P) = n * P * (K * qa + K)) as -> by ring.
    assert (n * q * P = n * P * q) as Hq1 by ring.
    assert (n * (q + 1) * P = n * P * (q + 1)) as Hq2 by ring.
    rewrite Hq1 in Hlo, Hex. rewrite Hq2 in Hhi.
    assert (n * P * (K * qa) <= n * P * q) by (apply Z.mul_le_mono_nonneg_l; lia).
    assert (n * P * (q + 1) <= n * P * (K * qa + K))
      by (apply Z.mul_le_mono_nonneg_l; lia).
    split; [lia|]. split; [lia|].
    intros HA.
    assert (n * P * (K * qa) = n * P * q) as Heq by lia.
    apply Z.mul_reg_l in Heq; [|lia].
    apply Hexact.
    - rewrite Hex by lia.
      unfold new_location, new_location_even, new_location_odd.
      by destruct (Z.even (Z.pos m2)).
    - exists qa. lia. }
  clear Hlo Hhi Hex Hexact Hqk Hrho.
  assert (mb = 0 -> K * P = 1) as Hzero.
  { intros ->. assert (q = 0) as Hq00 by (destruct (Z.eq_dec q 0); [done|lia]).
    unfold K, P. by rewrite (Hk00 Hq00), (Hq0 Hq00). }
  clear Hpos Hq0 Hk00.
  assert (A = Z.pos m1 * E1) as HA by done.
  assert (k = 0 \/ 2 ^ 52 <= qa) as Hk0 by (destruct (Z.eq_dec k 0); auto).
  clear Hbig. clearbody A qa. clear q Hq.
  assert (forall x y, -1074 <= x -> 2 ^ (x + 1074) < 2 ^ (y + 1074) -> x < y)
    as Hexp.
  { intros x y Hx Hlt. destruct (Z.le_gt_cases 0 (y + 1074)).
    - apply Z.pow_lt_mono_r_iff in Hlt; lia.
    - rewrite (Z.pow_neg_r 2 (y + 1074)) in Hlt by lia.
      assert (0 < 2 ^ (x + 1074)) by (apply Z.pow_pos_nonneg; lia). lia. }
  destruct (Z.eqb_spec mb 0) as [Hmb0|Hne0].
  { left. split; [done|]. rewrite (Hzero Hmb0) in HAhi.
    assert (qa = 0) as -> by lia. lia. }
  right. clear Hzero.
  pose proof (round_error_arith A n qa mb (K * P) Hn HKPpos HAlo HAhi Hmb) as Herr.
  destruct (Z.eqb_spec mb (2 ^ 53)) as [Hmb53|Hne].
  - assert (qa = 2 ^ 53 - 1) as Hqa' by lia.
    assert (n * qa * (K * P) < A) as Hstrict.
    { destruct (Z.eq_dec A (n * qa * (K * P))) as [HA'|?]; [|lia].
      apply Hkeep in HA'. lia. }
    pose proof (round_range_carry_arith A n qa (K * P) E1 (Z.pos m1) Hn Hqa'
                  HKPpos HE1 Hm1 Hstrict HA) as Hlt.
    rewrite <- HKP in Hlt. apply Hexp in Hlt; [|lia].
    destruct (Z.leb_spec (e' + k + 1) 971) as [_|?]; [|lia].
    exists (2 ^ 52)%positive, (e' + k + 1). split; [done|]. split; [lia|].
    rewrite HKP1. change (Z.pos (2 ^ 52)) with (2 ^ 52).
    replace (2 ^ 52 * (2 * (K * P)) * n) with (mb * (K * P) * n)
      by (rewrite Hmb53; ring).
    assert (0 <= n * (K * P)) by (apply Z.mul_nonneg_nonneg; lia).
    lia.
  - assert (e' + k <= 971) as Hrange.
    { destruct Hk0 as [->|Hbig]; [lia|].
      pose proof (round_range_arith A n qa (K * P) E1 (Z.pos m1) Hn Hbig
                    HKPpos HE1 Hm1 HAlo HA) as Hlt.
      rewrite <- HKP in Hlt.
      replace (2 * E1) with (2 ^ (e1 + 1 + 1074)) in Hlt.
      2:{ replace (e1 + 1 + 1074) with (1 + (e1 + 1074)) by lia.
          by rewrite Z.pow_add_r by lia. }
      apply Hexp in Hlt; lia. }
    destruct (Z.leb_spec (e' + k) 971) as [_|?]; [|lia].
    exists (Z.to_pos mb), (e' + k). split; [done|]. split; [lia|].
    rewrite Z2Pos.id, HKP by lia. done.
Qed.

Lemma SF_is_finite (x : double) :
  is_finite x = true <->
  match Prim2SF x with S754_zero _ | S754_finite _ _ _ => True | _ => False end.
Proof.
  unfold is_finite, PrimFloat.is_nan, is_infinity.
  rewrite !FloatAxioms.eqb_spec, abs_spec, Prim2SF_infinity.
  destruct (Prim2SF x) as [s|[|]| |s m ex] eqn:Hx; cbn; try done.
  rewrite Z.compare_refl, (compare_cont_Eq m m), Pos.compare_refl.
  by destruct s.
Qed.

(** The value of a finite double in units of the least subnormal. *)
Lemma SF2Q_key (f : spec_float) :
  valid_binary f = true ->
  match f with S754_zero _ | S754_finite _ _ _ => True | _ => False end ->
  (SF2Q f == SFkey f # 2 ^ 1074)%Q.
Proof.
  intros Hv Hf. destruct f as [s| | |s m ex]; try done.
  pose proof (valid_finite _ _ _ Hv) as (Hex & _).
  assert (Z.pos (2 ^ 1074) = 2 ^ 1074) as HT by (by rewrite Pos2Z.inj_pow).
  assert (SF2Q (S754_finite false m ex) == Z.pos m * 2 ^ (ex + 1074) # 2 ^ 1074)%Q
    as Hpos.
  { cbn [SF2Q]. unfold Qeq. destruct ex as [|p|p]; cbn [Qnum Qden inject_Z].
    - rewrite HT. lia.
    - rewrite HT, Z.pow_add_r by lia. lia.
    - rewrite HT, Pos2Z.inj_pow.
      replace (2 ^ 1074) with (2 ^ (Z.neg p + 1074) * 2 ^ Z.pos p).
      + lia.
      + rewrite <- Z.pow_add_r by lia. f_equal. lia. }
  destruct s; [|exact Hpos].
  change (SF2Q (S754_finite true m ex)) with (- SF2Q (S754_finite false m ex))%Q.
  rewrite Hpos. cbn [SFkey]. done.
Qed.

Lemma Qval_key (x : double) :
  is_finite x = true -> (Qval x == dkey x # 2 ^ 1074)%Q.
Proof.
  intros Hx. apply SF2Q_key; [apply Prim2SF_valid|by apply SF_is_finite].
Qed.

(** The quotient of a finite double by a count between 1 and 2^53 is a
    finite double, and [n] times the quotient differs from the dividend by
    at most [n] units in the last place of the quotient. *)
Lemma div_int_error (S : double) (n : Z) :
  is_finite S = true -> 0 < n < 9007199254740992 ->
  is_finite (S / double_of_int n) = true
  /\ Z.abs (dkey (S / double_of_int n) * n - dkey S) * 2 ^ 52
     <= n * (Z.abs (dkey (S / double_of_int n)) + 2 ^ 52).
Proof.
  intros HS Hn.
  pose proof (Prim2SF_valid (S / double_of_int n)) as Hvm.
  pose proof (Prim2SF_valid S) as HvS.
  rewrite SF_is_finite in HS |- *. unfold dkey in *.
  rewrite div_spec in *. unfold SF64div in *.
  destruct (double_of_int_finite n Hn) as (m2 & e2 & Hdn & He2 & Hm2).
  rewrite Hdn in *. clear Hdn.
  destruct (Prim2SF S) as [s| | |s1 m1 e1]; try done.
  { cbn [SFdiv SFkey]. split; [done|]. lia. }
  pose proof (valid_finite _ _ _ HvS) as (He1 & _).
  destruct (SFdiv_int_error s1 m1 m2 e1 e2 n HvS He2 ltac:(lia) Hm2)
    as [[-> HA]|(m & e & HR & He & Herr)].
  - split; [done|]. cbn [SFkey].
    assert (0 < Z.pos m1 * 2 ^ (e1 + 1074))
      by (apply Z.mul_pos_pos; [lia|apply Z.pow_pos_nonneg]; lia).
    destruct s1; lia.
  - rewrite HR in Hvm |- *. split; [done|].
    pose proof (valid_finite _ _ _ Hvm) as (_ & _ & Hnorm).
    pose proof (digits2_pos_lower m) as Hlow.
    cbn [SFkey].
    set (U := 2 ^ (e + 1074)) in *. set (A := Z.pos m1 * 2 ^ (e1 + 1074)) in *.
    assert (0 < U) as HU by (apply Z.pow_pos_nonneg; lia).
    assert (2 ^ 52 * U <= Z.pos m * U + 2 ^ 52) as Hulp.
    { destruct (Z.eq_dec e (-1074)) as [->|Hne].
      - assert (U = 1) as -> by done. lia.
      - rewrite Hnorm in Hlow by lia. change (2 ^ (53 - 1)) with (2 ^ 52) in Hlow.
        assert (2 ^ 52 * U <= Z.pos m * U) by (apply Z.mul_le_mono_nonneg_r; lia).
        lia. }
    assert (0 < Z.pos m * U) as HK by (apply Z.mul_pos_pos; lia).
    assert (n * (2 ^ 52 * U) <= n * (Z.pos m * U + 2 ^ 52)) as Hn2
      by (apply Z.mul_le_mono_nonneg_l; lia).
    assert (Z.abs (Z.pos m * U * n - A) * 2 ^ 52 <= n * U * 2 ^ 52) as Herr2
      by (apply Z.mul_le_mono_nonneg_r; lia).
    clearbody U A. clear Hvm HvS Hnorm Hlow Hm2.
    destruct s1.
    + replace (- (Z.pos m * U) * n - - A) with (- (Z.pos m * U * n - A)) by ring.
      rewrite Z.abs_opp, (Z.abs_opp (Z.pos m * U)), (Z.abs_eq (Z.pos m * U)) by lia.
      lia.
    + rewrite (Z.abs_eq (Z.pos m * U)) by lia. lia.
Qed.

Lemma Q_mean_bound (Km Ks n : Z) (T : positive) :
  0 <= n ->
  Z.abs (Km * n - Ks) * 2 ^ 52 <= n * (Z.abs Km + 2 ^ 52) ->
  (Qabs ((Km # T) * inject_Z n - (Ks # T))
   <= inject_Z n * (Qabs (Km # T) * (1 # 2 ^ 52) + (1 # T)))%Q.
Proof.
  intros Hn Hb.
  assert ((Km # T) * inject_Z n - (Ks # T) == (Km * n - Ks # T))%Q as ->.
  { unfold Qeq, Qminus, Qplus, Qmult, Qopp, inject_Z. cbn [Qnum Qden].
    rewrite !Pos2Z.inj_mul. ring. }
  assert (inject_Z n * (Qabs (Km # T) * (1 # 2 ^ 52) + (1 # T))
          == (n * (Z.abs Km + 2 ^ 52) # 2 ^ 52 * T))%Q as ->.
  { unfold Qeq, Qabs, Qplus, Qmult, inject_Z. cbn [Qnum Qden].
    rewrite !Pos2Z.inj_mul. change (Z.pos (2 ^ 52)) with (2 ^ 52). ring. }
  unfold Qle, Qabs. cbn [Qnum Qden]. rewrite Pos2Z.inj_mul.
  change (Z.pos (2 ^ 52)) with (2 ^ 52).
  rewrite Z.mul_assoc. apply Z.mul_le_mono_nonneg_r; [lia|done].
Qed.

Lemma div_int_infinity (S : double) (n : Z) :
  0 < n < 9007199254740992 -> is_infinity S = true ->
  (S / double_of_int n)%float = S.
Proof.
  intros Hn. unfold is_infinity.
  rewrite FloatAxioms.eqb_spec, abs_spec, Prim2SF_infinity. intros HS.
  apply Prim2SF_inj. rewrite div_spec.
  destruct (double_of_int_finite n Hn) as (m2 & e2 & -> & _).
  by destruct (Prim2SF S) as [[|]|[|]| |[|] m ex].
Qed.

(** ** Rounding a sum, a difference and a quotient of doubles *)




















(** ** The estimates of the square root as rational numbers *)














Section RationalBounds.

Local Open Scope Q_scope.







End RationalBounds.

(** ** The estimates of the loop *)







(* ================================================================= *)
(** * The statistics routines against their descriptions *)

(** C1. On a non-empty sequence (sorted or not) [calculate_mode] returns the
    value of the first run of greatest length among the runs that are
    followed by another run: no earlier run is as long, no later run but the
    final one is longer, and the final run is never considered, so that the
    result is the same however long the final run is.  When none of the runs
    considered has more than one element the result is the first element.
    The value returned is the last element of the chosen run, which [==]
    holds of together with the run's first element.  In particular
    [1,1,2,2,2] and [1,1,1,2,2] both give 1. *)
Theorem calculate_mode_first_longest_run :
  (forall (l : list double) (junk : block),
     l <> [] ->
     exists v,
       calculate_mode (holds l junk) (Z.of_nat (length l)) = Ret v
       /\ ((Forall (fun r => length r = 1%nat) (removelast (runs l))
            /\ head l = Some v)
           \/ exists pre r post fin h,
                runs l = pre ++ r :: post ++ [fin]
                /\ (1 < length r)%nat
                /\ Forall (fun r' => (length r' < length r)%nat) pre
                /\ Forall (fun r' => (length r' <= length r)%nat) post
                /\ head r = Some h /\ last r = Some v
                /\ (v =? h)%float = true))
  /\ (forall (l : list double) (c : double) (k : nat) (junk junk' : block),
        (c =? c)%float = true ->
        calculate_mode (holds (l ++ c :: replicate k c) junk)
          (Z.of_nat (length (l ++ c :: replicate k c)))
        = calculate_mode (holds (l ++ [c]) junk')
            (Z.of_nat (length (l ++ [c]))))
  /\ (forall l : list double,
        concat (runs l) = l /\ Forall chained (runs l)
        /\ forall pre post r1 r2 a b,
             runs l = pre ++ r1 :: r2 :: post ->
             last r1 = Some a -> head r2 = Some b -> (b =? a)%float = false)
  /\ runs [1; 1; 2; 2; 2]%float = [[1; 1]; [2; 2; 2]]%float
  /\ calculate_mode (holds [1; 1; 2; 2; 2]%float []) 5 = Ret 1%float
  /\ calculate_mode (holds [1; 1; 1; 2; 2]%float []) 5 = Ret 1%float.
Proof.
  split; [exact calculate_mode_runs|].
  split; [exact calculate_mode_final_run|].
  split.
  { intros l. split; [apply concat_runs|]. split; [apply runs_chained|].
    intros pre post r1 r2 a b. apply runs_separated. }
  repeat split; vm_compute; reflexivity.
Qed.

Lemma calculate_mode_first_longest_run_witness :
  exists v,
    calculate_mode (holds [1; 2; 2; 3]%float [None]) 4 = Ret v
    /\ ((Forall (fun r => length r = 1%nat)
           (removelast (runs [1; 2; 2; 3]%float))
         /\ head [1; 2; 2; 3]%float = Some v)
        \/ exists pre r post fin h,
             runs [1; 2; 2; 3]%float = pre ++ r :: post ++ [fin]
             /\ (1 < length r)%nat
             /\ Forall (fun r' => (length r' < length r)%nat) pre
             /\ Forall (fun r' => (length r' <= length r)%nat) post
             /\ head r = Some h /\ last r = Some v
             /\ (v =? h)%float = true).
Proof.
  apply (proj1 calculate_mode_first_longest_run [1; 2; 2; 3]%float [None]).
  discriminate.
Defined.

(** C3. On a sequence of [N >= 1] values (sorted or not) [calculate_median]
    returns the average of the elements at indices [N/2 - 1] and [N/2] when
    [N] is even and the element at index [N/2] when [N] is odd; these are
    the central positions of the sequence. *)
Theorem calculate_median_middle (l : list double) (junk : block) :
  (1 <= length l)%nat ->
  (if Nat.even (length l) then
     exists a b,
       l !! (length l / 2 - 1)%nat = Some a /\ l !! (length l / 2)%nat = Some b
       /\ calculate_median (holds l junk) (Z.of_nat (length l))
          = Ret ((a + b) / 2)%float
   else
     exists m,
       l !! (length l / 2)%nat = Some m
       /\ calculate_median (holds l junk) (Z.of_nat (length l)) = Ret m)
  /\ (if Nat.even (length l) then
        exists l1 a b l2, l = l1 ++ a :: b :: l2 /\ length l1 = length l2
          /\ length l1 = (length l / 2 - 1)%nat
      else
        exists l1 m l2, l = l1 ++ m :: l2 /\ length l1 = length l2
          /\ length l1 = (length l / 2)%nat).
Proof.
  intros Hlen. split.
  - by apply calculate_median_index.
  - by apply median_positions_central.
Qed.

Lemma calculate_median_middle_witness :
  (1 <= length [1; 2; 4; 8]%float)%nat
  /\ exists a b,
       [1; 2; 4; 8]%float !! 1%nat = Some a /\ [1; 2; 4; 8]%float !! 2%nat = Some b
       /\ calculate_median (holds [1; 2; 4; 8]%float [None; None]) 4
          = Ret ((a + b) / 2)%float.
Proof.
  split; [cbn; lia|].
  exact (proj1 (calculate_median_middle [1; 2; 4; 8]%float [None; None]
                  ltac:(cbn; lia))).
Defined.

(** C7.  [calculate_mean] returns the sum of the values, added from [+0]
    left to right in double arithmetic, divided by the count, and for a
    count between 1 and [INT_MAX] the divisor is exactly the count.  The
    mean times the count, the product taken exactly, is the sum within the
    tolerance of double arithmetic: when the sum is finite so is the mean,
    and the two differ by at most [N * (|mean| * 2 ^ -52 + 2 ^ -1074)], one
    unit in the last place of the mean for each of the [N] values; when the
    sum is an infinity the mean is that infinity. *)
Theorem calculate_mean_quotient (l : list double) (junk : block) :
  (1 <= length l)%nat -> Z.of_nat (length l) <= INT_MAX ->
  calculate_mean (holds l junk) (Z.of_nat (length l))
  = Ret (fsum l / double_of_int (Z.of_nat (length l)))%float
  /\ (Qval (double_of_int (Z.of_nat (length l)))
      == inject_Z (Z.of_nat (length l)))%Q
  /\ (is_finite (fsum l) = true ->
      is_finite (fsum l / double_of_int (Z.of_nat (length l))) = true
      /\ (Qabs (Qval (fsum l / double_of_int (Z.of_nat (length l)))
                * inject_Z (Z.of_nat (length l)) - Qval (fsum l))
          <= inject_Z (Z.of_nat (length l))
             * (Qabs (Qval (fsum l / double_of_int (Z.of_nat (length l))))
                * (1 # 2 ^ 52) + (1 # 2 ^ 1074)))%Q)
  /\ (is_infinity (fsum l) = true ->
      (fsum l / double_of_int (Z.of_nat (length l)))%float = fsum l).
Proof.
  intros Hlen Hmax.
  assert (0 < Z.of_nat (length l) < 9007199254740992) as Hn
    by (unfold INT_MAX in Hmax; lia).
  split; [apply calculate_mean_eq|].
  split; [by apply double_of_int_exact|].
  split; [|by apply div_int_infinity].
  intros Hfin.
  destruct (div_int_error (fsum l) _ Hfin Hn) as [Hm Hb].
  split; [done|].
  rewrite (Qval_key _ Hm), (Qval_key _ Hfin).
  apply Q_mean_bound; [lia|done].
Qed.

Lemma calculate_mean_quotient_witness :
  (1 <= length [1; 2; 3; 4; 5; 6; 8]%float)%nat
  /\ Z.of_nat (length [1; 2; 3; 4; 5; 6; 8]%float) <= INT_MAX
  /\ is_finite (fsum [1; 2; 3; 4; 5; 6; 8]%float) = true
  /\ calculate_mean (holds [1; 2; 3; 4; 5; 6; 8]%float []) 7
     = Ret (fsum [1; 2; 3; 4; 5; 6; 8]%float / double_of_int 7)%float
  /\ (Qabs (Qval (fsum [1; 2; 3; 4; 5; 6; 8]%float / double_of_int 7)
            * inject_Z 7 - Qval (fsum [1; 2; 3; 4; 5; 6; 8]%float))
      <= inject_Z 7
         * (Qabs (Qval (fsum [1; 2; 3; 4; 5; 6; 8]%float / double_of_int 7))
            * (1 # 2 ^ 52) + (1 # 2 ^ 1074)))%Q.
Proof.
  split; [cbn; lia|]. split; [by vm_compute|]. split; [reflexivity|].
  destruct (calculate_mean_quotient [1; 2; 3; 4; 5; 6; 8]%float []
              ltac:(cbn; lia) ltac:(by vm_compute)) as (Hret & _ & Hbound & _).
  split; [exact Hret|]. exact (proj2 (Hbound eq_refl)).
Defined.

(** C8. [calculate_harmonic_mean] returns the count divided by the sum of
    the reciprocals of the values (added from [+0] left to right); for
    [1, 2, 4] this is the double [3 / (1 + 0.5 + 0.25)], which is 1.714 to
    three decimal places. *)
Theorem calculate_harmonic_mean_reciprocals :
  (forall (l : list double) (junk : block),
     calculate_harmonic_mean (holds l junk) (Z.of_nat (length l))
     = Ret (double_of_int (Z.of_nat (length l)) / fsum (reciprocal <$> l))%float)
  /\ (forall n : Z, 0 < n <= INT_MAX ->
        (Qval (double_of_int n) == inject_Z n)%Q)
  /\ calculate_harmonic_mean (holds [1; 2; 4]%float []) 3
     = Ret (3 / (1 + 0.5 + 0.25))%float
  /\ (17135 # 10000 <= Qval (3 / (1 + 0.5 + 0.25))%float)%Q
  /\ (Qval (3 / (1 + 0.5 + 0.25))%float < 17145 # 10000)%Q.
Proof.
  split; [exact calculate_harmonic_mean_eq|].
  split.
  { intros n Hn. apply double_of_int_exact. unfold INT_MAX in Hn. lia. }
  repeat split; by vm_compute.
Qed.

Lemma calculate_harmonic_mean_reciprocals_witness :
  calculate_harmonic_mean (holds [2; 2]%float [None]) 2
  = Ret (double_of_int 2 / fsum (reciprocal <$> [2; 2]%float))%float
  /\ (Qval (double_of_int 2) == inject_Z 2)%Q.
Proof.
  split.
  - exact (proj1 calculate_harmonic_mean_reciprocals [2; 2]%float [None]).
  - apply (proj1 (proj2 calculate_harmonic_mean_reciprocals) 2).
    by vm_compute.
Defined.

(** C2. For a double [v] with [0 <= v < 1] the guard [v - 1 > e] is false
    on entry, so [babylonian_sqrt] returns [v] itself without executing the
    loop body, whatever the bound on the loop; hence [calculate_stddev]
    returns the variance it computed, not its square root, whenever that
    variance is below 1. *)
Theorem babylonian_sqrt_below_one (v : double) :
  (0 <=? v)%float = true -> (v <? 1)%float = true ->
  bab_guard (v, 1%float) = false
  /\ (forall fuel, babylonian_sqrt fuel v = Ret v)
  /\ (forall fuel (l : list double) (junk : block) (mean : double),
        (fsum (sq_dev mean <$> l) / double_of_int (Z.of_nat (length l)))%float = v ->
        calculate_stddev fuel (holds l junk) (Z.of_nat (length l)) mean = Ret v).
Proof.
  intros _ Hlt.
  assert (bab_guard (v, 1%float) = false) as Hg
    by (unfold bab_guard; cbn [fst snd]; by apply sub_one_not_above_e).
  split; [done|]. split.
  - intros fuel. by apply babylonian_loop_stop.
  - intros fuel l junk mean Hvar. rewrite calculate_stddev_eq, Hvar.
    by apply babylonian_loop_stop.
Qed.

Lemma babylonian_sqrt_below_one_witness :
  (0 <=? 0.25)%float = true /\ (0.25 <? 1)%float = true
  /\ babylonian_sqrt 0 0.25%float = Ret 0.25%float
  /\ calculate_stddev 0 (holds [0; 1]%float []) 2 0.5%float = Ret 0.25%float.
Proof.
  split; [reflexivity|]. split; [reflexivity|].
  pose proof (babylonian_sqrt_below_one 0.25%float eq_refl eq_refl)
    as (_ & Hsqrt & Hdev).
  split; [exact (Hsqrt 0%nat)|].
  exact (Hdev 0%nat [0; 1]%float [] 0.5%float eq_refl).
Defined.




(** C5. [babylonian_sqrt] starts from [x = value], [y = 1.0] and replaces
    [(x, y)] by [((x + y) / 2, value / ((x + y) / 2))] as long as
    [x - y > e]; it returns the [x] of the first pair on which the guard is
    false, where [x - y <= e] unless [x - y] is a NaN.  [e] is the double
    nearest to 0.000001.  [babylonian_sqrt (0)] returns 0 without executing
    the body; [babylonian_sqrt (4)] and [babylonian_sqrt (2)] return, after
    four executions of the body, doubles within 1e-6 of 2 and of the square
    root of 2 (1.41421 to five decimal places). *)
Theorem babylonian_sqrt_iteration :
  (forall value : double, bab_iter value 0 = (value, 1%float))
  /\ (forall (value : double) (n : nat),
        bab_iter value (S n)
        = (let x := fst (bab_iter value n) in
           let y := snd (bab_iter value n) in
           let x' := ((x + y) / 2)%float in
           (x', (value / x')%float)))
  /\ (forall (fuel : nat) (value r : double),
        babylonian_sqrt fuel value = Ret r <->
        exists n, (n <= fuel)%nat
                  /\ r = fst (bab_iter value n)
                  /\ (e <? fst (bab_iter value n) - snd (bab_iter value n))%float
                     = false
                  /\ forall k, (k < n)%nat ->
                       (e <? fst (bab_iter value k) - snd (bab_iter value k))%float
                       = true)
  /\ (forall x y : double,
        (e <? x - y)%float = false -> PrimFloat.is_nan (x - y)%float = false ->
        (x - y <=? e)%float = true)
  /\ (Qabs (Qval e - (1 # 1000000)) <= 1 # 10000000000000000000000)%Q
  /\ babylonian_sqrt 0 0%float = Ret 0%float
  /\ (exists r4,
        (forall fuel, (4 <= fuel)%nat -> babylonian_sqrt fuel 4%float = Ret r4)
        /\ babylonian_sqrt 3 4%float = OutOfFuel
        /\ (Qabs (Qval r4 - 2) <= 1 # 1000000)%Q)
  /\ (exists r2,
        (forall fuel, (4 <= fuel)%nat -> babylonian_sqrt fuel 2%float = Ret r2)
        /\ babylonian_sqrt 3 2%float = OutOfFuel
        /\ (Qabs (Qval r2 - (141421 # 100000)) <= 5 # 1000000)%Q
        /\ ((Qval r2 - (1 # 1000000)) * (Qval r2 - (1 # 1000000)) <= 2)%Q
        /\ (2 <= (Qval r2 + (1 # 1000000)) * (Qval r2 + (1 # 1000000)))%Q).
Proof.
  split; [done|]. split; [done|].
  split; [exact babylonian_sqrt_iter|].
  split; [intros x y; apply not_above_e_le|].
  split; [by vm_compute|]. split; [by vm_compute|].
  split.
  - eexists. split.
    { intros fuel Hfuel. apply (babylonian_sqrt_fuel_mono 4); [done|].
      vm_compute. reflexivity. }
    split; by vm_compute.
  - eexists. split.
    { intros fuel Hfuel. apply (babylonian_sqrt_fuel_mono 4); [done|].
      vm_compute. reflexivity. }
    repeat split; by vm_compute.
Qed.

Lemma babylonian_sqrt_iteration_witness :
  exists n, (n <= 10)%nat
            /\ 0x1.000000c78c926p+1%float = fst (bab_iter 4%float n)
            /\ (e <? fst (bab_iter 4%float n) - snd (bab_iter 4%float n))%float
               = false
            /\ forall k, (k < n)%nat ->
                 (e <? fst (bab_iter 4%float k) - snd (bab_iter 4%float k))%float
                 = true.
Proof.
  apply (proj1 (proj1 (proj2 (proj2 babylonian_sqrt_iteration))
                  10%nat 4%float 0x1.000000c78c926p+1%float)).
  vm_compute. reflexivity.
Defined.

(** C6 does not hold of the code.  On the value 3e20 the estimates reach, after 39
    executions of the body, a pair [(x, y)] with [x - y] one unit in the last
    place of [x] (about 3.8e-6, above [e]) that the body maps to itself: the
    loop never ends.  The same happens in [calculate_stddev] on the sorted
    data -5e10, 0, 5e10, whose mean is 0. *)
Theorem babylonian_sqrt_cycles :
  (0 <=? 3e20)%float = true
  /\ bab_step 3e20%float (bab_iter 3e20%float 39) = bab_iter 3e20%float 39
  /\ bab_guard (bab_iter 3e20%float 39) = true
  /\ (forall fuel, babylonian_sqrt fuel 3e20%float = OutOfFuel)
  /\ calculate_mean (holds [-5e10; 0; 5e10]%float []) 3 = Ret 0%float
  /\ (forall fuel,
        calculate_stddev fuel (holds [-5e10; 0; 5e10]%float []) 3 0%float
        = OutOfFuel).
Proof.
  split; [reflexivity|]. split; [by vm_compute|]. split; [by vm_compute|].
  split; [|split; [by vm_compute|]].
  - apply (babylonian_sqrt_cycle _ 39); by vm_compute.
  - intros fuel.
    change 3 with (Z.of_nat (length [-5e10; 0; 5e10]%float)).
    rewrite calculate_stddev_eq.
    apply (babylonian_sqrt_cycle _ 40); by vm_compute.
Qed.

(* ================================================================= *)
(** * The growable buffer *)

(** C9. With an allocator that does not fail, a growth step allocates a
    block of twice the old capacity, copies the old cells to its front in
    their order and releases the old block.  Reading 41 values into the
    initial buffer of capacity 20 grows it when the 21st and when the 41st
    value arrive, so the capacity is 20, then 40, then 80; after [k] values
    the buffer holds exactly the first [k] values in the order they were read,
    and its size never exceeds its capacity. *)
Theorem forty_one_values_two_growths :
  (forall (old_array : loc) (old_size capacity : Z) (w : world) (blk : block),
     never_fails w -> heap w !! old_array = Some blk ->
     0 <= old_size <= Z.of_nat (length blk) -> old_size <= 2 * capacity ->
     2 * capacity <= INT_MAX ->
     exists p w',
       enlarge_array old_array old_size capacity w
       = Ret (Some p, 2 * capacity, w')
       /\ heap w !! p = None
       /\ heap w' !! old_array = None
       /\ heap w' !! p
          = Some (take (Z.to_nat old_size) blk
                  ++ replicate (Z.to_nat (2 * capacity - old_size)) None))
  /\ (forall (vs : list double) (w : world) (p : loc),
        length vs = 41%nat -> never_fails w ->
        heap w !! p = Some (replicate 20 None) ->
        forall k, (k <= 41)%nat ->
          exists b w',
            main_loop (take k vs) (Buffer p 0 20) w = Ret (Some b, [], w')
            /\ size b = Z.of_nat k
            /\ capacity b
               = (if (k <=? 20)%nat then 20 else if (k <=? 40)%nat then 40 else 80)
            /\ size b <= capacity b
            /\ heap w' !! data b
               = Some (holds (take k vs)
                         (replicate (Z.to_nat (capacity b - size b)) None))
            /\ (forall (i : nat) (x : double),
                  take k vs !! i = Some x ->
                  exists blk, heap w' !! data b = Some blk
                              /\ load blk (Z.of_nat i) = Ret x)
            /\ delete (data b) (heap w') = delete p (heap w)).
Proof.
  split.
  - intros old_array old_size capacity w blk Hok Hblk Hsize Hfit Hcap.
    destruct (enlarge_array_ok old_array old_size capacity w blk Hok Hblk
                Hsize Hfit Hcap) as (Hne & Henl).
    destruct (malloc_ok 0 w Hok) as (_ & Hfresh & _).
    eexists _, _. split; [exact Henl|]. cbn [heap].
    split; [done|]. split.
    + by rewrite lookup_insert_ne, lookup_delete_eq.
    + by rewrite lookup_insert_eq.
  - intros vs w p Hlen Hok Hblk k Hk.
    assert (buffer_inv (Buffer p 0 20) w []) as Hinv.
    { unfold buffer_inv. cbn [data size capacity]. by rewrite Hblk. }
    assert (length (take k vs) = k) as Hlenk by (rewrite length_take; lia).
    destruct (main_loop_spec (take k vs) _ w [] Hinv Hok)
      as (b & w' & Hrun & (Hb & Hsize & Hle & Hpos) & Hcap & _ & Hleak).
    { cbn [size]. rewrite Hlenk. unfold INT_MAX. lia. }
    cbn [app length size capacity data] in *. rewrite Hlenk in *.
    rewrite capacity_after_41 in Hcap by done.
    exists b, w'. repeat split; try done.
    intros i x Hi. eexists. split; [exact Hb|]. by apply load_holds.
Qed.

Lemma forty_one_values_two_growths_witness :
  exists b w',
    main_loop (replicate 41 tenth) (Buffer 0%nat 0 20)
      (World (<[0%nat := replicate 20 None]> ∅) [])
    = Ret (Some b, [], w')
    /\ size b = 41 /\ capacity b = 80
    /\ heap w' !! data b
       = Some (holds (replicate 41 tenth) (replicate 39 None)).
Proof.
  destruct (proj2 forty_one_values_two_growths (replicate 41 tenth)
              (World (<[0%nat := replicate 20 None]> ∅) []) 0%nat
              eq_refl (Forall_nil_2 _) (lookup_insert_eq _ _ _) 41%nat
              (Nat.le_refl _))
    as (b & w' & Hrun & Hsize & Hcap & _ & Hblk & _).
  exists b, w'. cbn in Hrun, Hsize, Hcap. rewrite Hsize, Hcap in Hblk.
  by repeat split.
Defined.

(** C10. When the allocation of a growth step fails, [enlarge_array]
    returns [NULL] and leaves every block, the old one included, as it was
    (it releases the old block only after the copy); the reading loop then
    releases the old block and stops without reading further, and [main]
    returns [EXIT_FAILURE] with nothing sorted, computed or printed.  When it
    is the first growth step that fails, the heap is again as it was before
    [main] started. *)
Theorem growth_failure_aborts :
  (forall (old_array : loc) (old_size capacity : Z) (w : world)
          (rest : list bool),
     alloc_ok w = false :: rest -> 2 * capacity <= INT_MAX ->
     enlarge_array old_array old_size capacity w
     = Ret (None, 2 * capacity, World (heap w) rest))
  /\ (forall (v : double) (unread : list double) (b : buffer) (w : world)
             (rest : list bool) (blk : block),
        size b = capacity b -> alloc_ok w = false :: rest ->
        heap w !! data b = Some blk -> 2 * capacity b <= INT_MAX ->
        main_loop (v :: unread) b w
        = Ret (None, unread, World (delete (data b) (heap w)) rest))
  /\ (forall (qsort : (double -> double -> Z) -> list double -> list double)
             (fuel : nat) (input unread : list double) (w w1 w2 : world)
             (p : loc),
        malloc 20 w = (Some p, w1) ->
        main_loop input (Buffer p 0 20) w1 = Ret (None, unread, w2) ->
        main qsort fuel 2 (Some input) w = Ret (EXIT_FAILURE, None, w2))
  /\ (forall (qsort : (double -> double -> Z) -> list double -> list double)
             (fuel : nat) (vs unread : list double) (v : double)
             (h : gmap loc block) (oks : list bool),
        length vs = 20%nat ->
        main qsort fuel 2 (Some (vs ++ v :: unread))
          (World h (true :: false :: oks))
        = Ret (EXIT_FAILURE, None, World h oks)).
Proof.
  split; [exact enlarge_array_fail|]. split.
  { intros v unread b w rest blk Hfull Hw Hblk Hcap. cbn [main_loop].
    by rewrite (main_loop_body_fail v b w rest blk). }
  split; [exact main_abort|exact main_first_growth_fails].
Qed.

Lemma growth_failure_aborts_witness :
  enlarge_array 0%nat 20 20
    (World (<[0%nat := holds (replicate 20 tenth) []]> ∅) [false])
  = Ret (None, 40, World (<[0%nat := holds (replicate 20 tenth) []]> ∅) [])
  /\ main (fun _ l => l) 0 2 (Some (replicate 20 tenth ++ [tenth]))
       (World ∅ [true; false])
     = Ret (EXIT_FAILURE, None, World ∅ []).
Proof.
  split.
  - exact (proj1 growth_failure_aborts 0%nat 20 20
             (World (<[0%nat := holds (replicate 20 tenth) []]> ∅) [false]) []
             eq_refl ltac:(by vm_compute)).
  - apply (proj2 (proj2 (proj2 growth_failure_aborts)) (fun _ l => l) 0%nat
             (replicate 20 tenth) [] tenth ∅ []).
    reflexivity.
Defined.


(* ================================================================= *)
(** * Further properties of the routines *)

(** ** [compare_double] *)

(** X1. [compare_double] is the three-way comparison of doubles: it returns
    [-1] exactly when [a < b], [1] exactly when [b < a] and [0] exactly when
    neither holds, and swapping the arguments negates the result.  The
    difference [a - b] it computes never rounds to zero for different
    numbers and never changes sign. *)
Theorem compare_double_three_way (a b : double) :
  (compare_double a b = -1 <-> (a <? b)%float = true)
  /\ (compare_double a b = 1 <-> (b <? a)%float = true)
  /\ (compare_double a b = 0 <->
      (a <? b)%float = false /\ (b <? a)%float = false)
  /\ compare_double b a = - compare_double a b.
Proof.
  rewrite !compare_double_ltb.
  pose proof (ltb_asym a b) as Hab. pose proof (ltb_asym b a) as Hba.
  destruct (a <? b)%float, (b <? a)%float;
    try (specialize (Hab eq_refl)); try (specialize (Hba eq_refl));
    try discriminate; repeat split; intros; try done; try lia.
Qed.

(** X2. On doubles that are not NaN [compare_double] is a consistent order:
    from [a] not above [b] and [b] not above [c] follows [a] not above [c],
    strictly when one of the two steps is strict, and with equality when
    both are equalities. *)
Theorem compare_double_transitive (a b c : double) :
  PrimFloat.is_nan a = false -> PrimFloat.is_nan b = false ->
  PrimFloat.is_nan c = false ->
  compare_double a b <= 0 -> compare_double b c <= 0 ->
  compare_double a c <= 0
  /\ (compare_double a b < 0 \/ compare_double b c < 0 -> compare_double a c < 0)
  /\ (compare_double a b = 0 -> compare_double b c = 0 -> compare_double a c = 0).
Proof.
  intros Ha Hb Hc. rewrite !compare_double_ltb, !ltb_dkey by done.
  repeat match goal with |- context [?x <? ?y] => destruct (Z.ltb_spec x y) end;
    lia.
Qed.

Lemma compare_double_transitive_witness :
  compare_double 1%float 2%float <= 0 /\ compare_double 2%float 3%float <= 0
  /\ compare_double 1%float 3%float < 0.
Proof.
  assert (compare_double 1%float 2%float <= 0) as H12 by (by vm_compute).
  assert (compare_double 2%float 3%float <= 0) as H23 by (by vm_compute).
  split; [done|]. split; [done|].
  destruct (compare_double_transitive 1%float 2%float 3%float
              eq_refl eq_refl eq_refl H12 H23) as (_ & Hstrict & _).
  apply Hstrict. left. by vm_compute.
Defined.

(** X3. A NaN compares as equal to every double, on either side: with a NaN
    among the data [compare_double] is not an order. *)
Theorem compare_double_nan (n x : double) :
  PrimFloat.is_nan n = true ->
  compare_double n x = 0 /\ compare_double x n = 0.
Proof.
  intros Hn. rewrite !compare_double_ltb, !ltb_nan by auto. done.
Qed.

Lemma compare_double_nan_witness :
  PrimFloat.is_nan nan = true
  /\ compare_double nan 1%float = 0 /\ compare_double 1%float nan = 0.
Proof. split; [reflexivity|]. exact (compare_double_nan nan 1%float eq_refl). Defined.

(** ** The square root loop off its domain and at its exit *)

Lemma dkey_one_pos : 0 < dkey 1%float.
Proof.
  unfold dkey. rewrite Prim2SF_one. cbn [SFkey].
  assert (0 < 2 ^ (-52 + 1074)) by (by apply Z.pow_pos_nonneg). lia.
Qed.

Lemma negative_below_one (v : double) :
  (v <? 0)%float = true -> (v <? 1)%float = true.
Proof.
  intros Hlt. destruct (ltb_true_not_nan _ _ Hlt) as [Hv _].
  rewrite ltb_dkey in Hlt |- * by done.
  pose proof dkey_one_pos. change (dkey 0%float) with 0 in Hlt. lia.
Qed.

(** X4. [babylonian_sqrt] hands a negative number or a NaN back as it is,
    after no iteration, whatever the bound on the loop: it signals no error
    and returns no NaN for a negative argument. *)
Theorem babylonian_sqrt_negative_or_nan (fuel : nat) (v : double) :
  (v <? 0)%float = true \/ PrimFloat.is_nan v = true ->
  babylonian_sqrt fuel v = Ret v.
Proof.
  intros Hv. apply babylonian_loop_stop. unfold bab_guard. cbn [fst snd].
  destruct Hv as [Hneg|Hnan].
  - by apply sub_one_not_above_e, negative_below_one.
  - apply ltb_nan. right. by apply sub_nan.
Qed.

Lemma babylonian_sqrt_negative_or_nan_witness :
  (-4 <? 0)%float = true /\ babylonian_sqrt 0 (-4)%float = Ret (-4)%float.
Proof.
  split; [reflexivity|].
  exact (babylonian_sqrt_negative_or_nan 0 (-4)%float (or_introl eq_refl)).
Defined.

(** X5. [babylonian_sqrt] returns a number that is not below zero, and not
    a NaN, for every value that is not below zero, [+infinity] included:
    through the loop [x] keeps its sign bit clear, and a NaN in [y] ends
    the loop before it can reach [x]. *)
Theorem babylonian_sqrt_not_negative (fuel : nat) (value r : double) :
  (0 <=? value)%float = true -> babylonian_sqrt fuel value = Ret r ->
  (0 <=? r)%float = true.
Proof.
  intros Hv Hrun.
  destruct (sign_clear value) eqn:Hc.
  - apply sign_clear_leb.
    by apply (babylonian_loop_clear fuel value value 1 r).
  - (* the value is [-0] *)
    assert (Prim2SF value = S754_zero true) as Hz.
    { unfold sign_clear in Hc. rewrite leb_spec, Prim2SF_zero in Hv.
      by destruct (Prim2SF value) as [[|]|[|]| |[|] m ex]. }
    assert (babylonian_sqrt fuel value = Ret value) as Hret.
    { unfold babylonian_sqrt.
      assert ((e <? value - 1)%float = false) as Hg.
      { by rewrite ltb_spec, sub_spec, Hz. }
      destruct fuel; cbn [babylonian_loop]; by rewrite Hg. }
    congruence.
Qed.

Lemma babylonian_sqrt_not_negative_witness :
  (0 <=? 4)%float = true
  /\ babylonian_sqrt 10 4%float = Ret 0x1.000000c78c926p+1%float
  /\ (0 <=? 0x1.000000c78c926p+1)%float = true.
Proof.
  assert (babylonian_sqrt 10 4%float = Ret 0x1.000000c78c926p+1%float) as Hrun
    by (by vm_compute).
  split; [reflexivity|]. split; [done|].
  exact (babylonian_sqrt_not_negative 10 4%float _ eq_refl Hrun).
Defined.

(** X6. [calculate_stddev] never returns a negative number, whatever the
    data and the mean it is given: a square has its sign bit clear or is a
    NaN, and so have the sum of the squares, the variance and every estimate
    of the square root. *)
Theorem calculate_stddev_not_negative (fuel : nat) (l : list double)
    (junk : block) (mean r : double) :
  calculate_stddev fuel (holds l junk) (Z.of_nat (length l)) mean = Ret r ->
  (r <? 0)%float = false.
Proof.
  rewrite calculate_stddev_eq. intros Hrun. apply not_negative_ltb.
  refine (babylonian_loop_not_negative fuel _ _ 1 r _ _ eq_refl Hrun).
  all: apply div_not_negative;
    [|apply sign_clear_not_negative, double_of_int_clear; lia].
  all: apply fsum_not_negative, Forall_fmap, Forall_forall; intros x _.
  all: apply sq_dev_not_negative.
Qed.

Lemma calculate_stddev_not_negative_witness :
  calculate_stddev 100 (holds [2; 4; 4; 4; 5; 5; 7; 9]%float []) 8 5%float
  = Ret 0x1.000000c78c926p+1%float
  /\ (0x1.000000c78c926p+1 <? 0)%float = false.
Proof.
  assert (calculate_stddev 100 (holds [2; 4; 4; 4; 5; 5; 7; 9]%float []) 8 5%float
          = Ret 0x1.000000c78c926p+1%float) as Hrun by (by vm_compute).
  split; [done|].
  exact (calculate_stddev_not_negative 100 [2; 4; 4; 4; 5; 5; 7; 9]%float [] _ _
           Hrun).
Defined.

(** Adding a double that is not below zero (a [-0] included) to a sum whose
    sign bit is clear leaves the sign bit clear, or gives a NaN. *)
Lemma add_not_below_zero (s x : double) :
  not_negative s = true -> (x <? 0)%float = false ->
  not_negative (s + x) = true.
Proof.
  unfold not_negative. rewrite ltb_spec, add_spec, Prim2SF_zero.
  destruct (Prim2SF x) as [[|]|[|]| |[|] mx ex] eqn:Hx; try done; intros Hs _.
  - by destruct (Prim2SF s) as [[|]|[|]| |[|] m ex'].
  - by apply SFadd_not_negative.
  - by apply SFadd_not_negative.
  - by apply SFadd_not_negative.
  - by apply SFadd_not_negative.
Qed.

(** X7. The mean of data without a negative element is never negative: the
    running sum keeps its sign bit clear, or becomes a NaN, and so does its
    quotient by the count. *)
Theorem calculate_mean_not_negative (l : list double) (junk : block) :
  Forall (fun x => (x <? 0)%float = false) l ->
  exists r, calculate_mean (holds l junk) (Z.of_nat (length l)) = Ret r
            /\ (r <? 0)%float = false.
Proof.
  intros Hl. rewrite calculate_mean_eq. eexists. split; [done|].
  apply not_negative_ltb, div_not_negative;
    [|apply sign_clear_not_negative, double_of_int_clear; lia].
  unfold fsum. assert (not_negative 0 = true) as H0 by reflexivity.
  revert H0. generalize 0%float. induction Hl as [|x l Hx Hl IH]; intros s Hs;
    [done|].
  cbn [fold_left]. by apply IH, add_not_below_zero.
Qed.

Lemma calculate_mean_not_negative_witness :
  Forall (fun x => (x <? 0)%float = false) [0; 1; 4]%float
  /\ exists r, calculate_mean (holds [0; 1; 4]%float []) 3 = Ret r
               /\ (r <? 0)%float = false.
Proof.
  assert (Forall (fun x => (x <? 0)%float = false) [0; 1; 4]%float) as Hl
    by (by repeat constructor).
  split; [done|]. exact (calculate_mean_not_negative [0; 1; 4]%float [] Hl).
Defined.

(** ** What the routines read *)

Lemma calculate_median_junk (l : list double) (junk junk' : block) :
  (1 <= length l)%nat ->
  exists v, calculate_median (holds l junk) (Z.of_nat (length l)) = Ret v
            /\ calculate_median (holds l junk') (Z.of_nat (length l)) = Ret v.
Proof.
  intros Hlen.
  pose proof (calculate_median_index l junk Hlen) as H1.
  pose proof (calculate_median_index l junk' Hlen) as H2.
  destruct (Nat.even (length l)).
  - destruct H1 as (a & b & Ha & Hb & ->), H2 as (a' & b' & Ha' & Hb' & ->).
    eexists. split; [done|]. congruence.
  - destruct H1 as (m & Hm & ->), H2 as (m' & Hm' & ->).
    eexists. split; [done|]. congruence.
Qed.

Lemma calculate_mode_junk (l : list double) (junk junk' : block) :
  l <> [] ->
  exists v, calculate_mode (holds l junk) (Z.of_nat (length l)) = Ret v
            /\ calculate_mode (holds l junk') (Z.of_nat (length l)) = Ret v.
Proof.
  intros Hl. destruct l as [|x rest]; [done|].
  rewrite !calculate_mode_scan. eauto.
Qed.

(** X8. On a block whose first [N >= 1] cells are written the five routines
    read none of the other cells: each returns the same value whatever the
    rest of the block holds, and none has undefined behaviour
    ([calculate_stddev] may still fail to leave its loop). *)
Theorem statistics_memory_safe (fuel : nat) (l : list double)
    (junk junk' : block) (mean : double) :
  l <> [] ->
  (exists v, calculate_mean (holds l junk) (Z.of_nat (length l)) = Ret v
             /\ calculate_mean (holds l junk') (Z.of_nat (length l)) = Ret v)
  /\ (exists v, calculate_median (holds l junk) (Z.of_nat (length l)) = Ret v
                /\ calculate_median (holds l junk') (Z.of_nat (length l)) = Ret v)
  /\ (exists v, calculate_mode (holds l junk) (Z.of_nat (length l)) = Ret v
                /\ calculate_mode (holds l junk') (Z.of_nat (length l)) = Ret v)
  /\ (exists v, calculate_harmonic_mean (holds l junk) (Z.of_nat (length l)) = Ret v
                /\ calculate_harmonic_mean (holds l junk') (Z.of_nat (length l))
                   = Ret v)
  /\ calculate_stddev fuel (holds l junk) (Z.of_nat (length l)) mean
     = calculate_stddev fuel (holds l junk') (Z.of_nat (length l)) mean
  /\ calculate_stddev fuel (holds l junk) (Z.of_nat (length l)) mean <> Undefined.
Proof.
  intros Hl. rewrite !calculate_mean_eq, !calculate_harmonic_mean_eq,
    !calculate_stddev_eq.
  split; [eauto|]. split.
  { apply calculate_median_junk. destruct l; [done|cbn; lia]. }
  split.
  { destruct l as [|x rest]; [done|]. rewrite !calculate_mode_scan. eauto. }
  split; [eauto|]. split; [done|].
  apply babylonian_loop_never_undefined.
Qed.

Lemma statistics_memory_safe_witness :
  [1; 2; 4]%float <> []
  /\ calculate_stddev 10 (holds [1; 2; 4]%float []) 3 2%float
     = calculate_stddev 10 (holds [1; 2; 4]%float [None; Some 7%float]) 3 2%float.
Proof.
  split; [done|].
  exact (proj1 (proj2 (proj2 (proj2 (proj2
           (statistics_memory_safe 10 [1; 2; 4]%float [] [None; Some 7%float]
              2%float ltac:(done))))))).
Defined.

(** ** The mode and the median of sorted data *)

Lemma run_key_cons (x : double) (r : list double) : run_key (x :: r) = dkey x.
Proof. reflexivity. Qed.

(** In sorted data without NaN all elements of a run have one key, and the
    keys of the runs increase strictly. *)
Lemma runs_keys (l : list double) :
  no_nan l -> sorted_by_compare l ->
  StronglySorted Z.lt (run_key <$> runs l)
  /\ Forall (fun r => Forall (fun a => dkey a = run_key r) r) (runs l).
Proof.
  induction l as [|x l IH]; intros Hnan Hsorted.
  { split; constructor. }
  apply Forall_cons in Hnan as [Hx Hnan].
  destruct l as [|y l'].
  { cbn. split; repeat constructor. }
  destruct Hsorted as [Hxy Hsorted].
  destruct (IH Hnan Hsorted) as [Hss Hall].
  pose proof Hnan as [Hy _]%Forall_cons.
  destruct (runs_cons_shape y l') as (r & rs & Hshape).
  change (runs (x :: y :: l'))
    with (match runs (y :: l') with
          | (y0 :: r0) :: rs0 =>
              if (y0 =? x)%float then (x :: y0 :: r0) :: rs0
              else [x] :: (y0 :: r0) :: rs0
          | _ => [[x]]
          end).
  rewrite Hshape in *.
  apply compare_double_le_key in Hxy; [|done..].
  apply Forall_cons in Hall as [Hr Hrs].
  rewrite run_key_cons in Hr.
  destruct (y =? x)%float eqn:Heq.
  - apply eqb_key in Heq; [|done..].
    cbn [fmap list_fmap] in Hss |- *. rewrite !run_key_cons in *.
    split.
    + by rewrite <- Heq.
    + constructor; [|done]. rewrite run_key_cons.
      constructor; [done|].
      eapply Forall_impl; [exact Hr|]. cbn. intros a Ha. lia.
  - assert (dkey y <> dkey x) as Hne.
    { intros Hk. apply eqb_key in Hk; [congruence|done..]. }
    cbn [fmap list_fmap] in Hss |- *. rewrite !run_key_cons in *.
    split.
    + constructor; [exact Hss|].
      apply StronglySorted_inv in Hss as [_ Hlt].
      constructor; [lia|].
      eapply Forall_impl; [exact Hlt|]. intros k Hk. lia.
    + constructor; [by repeat constructor|].
      constructor; [by rewrite run_key_cons|done].
Qed.

Lemma occurrences_app (a : double) (l1 l2 : list double) :
  occurrences a (l1 ++ l2) = (occurrences a l1 + occurrences a l2)%nat.
Proof. induction l1 as [|x l1 IH]; cbn; [done|]. rewrite IH. lia. Qed.

Lemma occurrences_same (a : double) (r : list double) :
  PrimFloat.is_nan a = false -> no_nan r ->
  Forall (fun x => dkey x = dkey a) r -> occurrences a r = length r.
Proof.
  intros Ha. induction r as [|x r IH]; intros Hnan Hkey; [done|].
  apply Forall_cons in Hnan as [Hx Hnan]. apply Forall_cons in Hkey as [Hk Hkey].
  cbn. rewrite IH by done.
  by rewrite (proj2 (eqb_key x a Hx Ha) Hk).
Qed.

Lemma occurrences_other (a : double) (r : list double) :
  PrimFloat.is_nan a = false -> no_nan r ->
  Forall (fun x => dkey x <> dkey a) r -> occurrences a r = 0%nat.
Proof.
  intros Ha. induction r as [|x r IH]; intros Hnan Hkey; [done|].
  apply Forall_cons in Hnan as [Hx Hnan]. apply Forall_cons in Hkey as [Hk Hkey].
  cbn. rewrite IH by done.
  destruct (x =? a)%float eqn:Heq; [|done].
  by apply eqb_key in Heq.
Qed.

(** In sorted data without NaN the length of a run is the number of
    occurrences of its value in the data. *)
Lemma run_length_occurrences (l r : list double) (a : double) :
  no_nan l -> sorted_by_compare l -> r ∈ runs l -> a ∈ r ->
  length r = occurrences a l.
Proof.
  intros Hnan Hsorted Hr Ha.
  destruct (runs_keys l Hnan Hsorted) as [Hss Hkeys].
  pose proof Hnan as Hnan'. unfold no_nan in Hnan'.
  rewrite <- (concat_runs l), Forall_concat in Hnan'.
  apply list_elem_of_split in Hr as (pre & post & Hruns).
  rewrite Hruns in Hss, Hkeys, Hnan'.
  rewrite fmap_app, fmap_cons in Hss.
  apply Forall_app in Hkeys as [Hkpre Hkrest].
  apply Forall_cons in Hkrest as [Hkr Hkpost].
  apply Forall_app in Hnan' as [Hnpre Hnrest].
  apply Forall_cons in Hnrest as [Hnr Hnpost].
  assert (PrimFloat.is_nan a = false) as Hna
    by (rewrite Forall_forall in Hnr; by apply Hnr).
  assert (dkey a = run_key r) as Hka
    by (rewrite Forall_forall in Hkr; by apply Hkr).
  assert (forall rs, Forall (Forall (fun x => PrimFloat.is_nan x = false)) rs ->
            Forall (fun r' => Forall (fun x => dkey x = run_key r') r') rs ->
            Forall (fun k => k <> run_key r) (run_key <$> rs) ->
            occurrences a (concat rs) = 0%nat) as Hother.
  { induction rs as [|r' rs IH]; intros H1 H2 H3; [done|].
    apply Forall_cons in H1 as [H1 H1']. apply Forall_cons in H2 as [H2 H2'].
    rewrite fmap_cons in H3. apply Forall_cons in H3 as [H3 H3'].
    cbn [concat]. rewrite occurrences_app, IH by done.
    rewrite occurrences_other; [done..|].
    eapply Forall_impl; [exact H2|]. cbn. intros x Hx. congruence. }
  rewrite <- (concat_runs l), Hruns, concat_app, concat_cons, !occurrences_app.
  rewrite (Hother pre), (Hother post); try done.
  - rewrite occurrences_same; [lia|done..|].
    eapply Forall_impl; [exact Hkr|]. cbn. intros x Hx. congruence.
  - apply StronglySorted_app_1_r, StronglySorted_inv in Hss as [_ Hlt].
    eapply Forall_impl; [exact Hlt|]. cbn. lia.
  - apply Forall_forall. intros k Hk.
    pose proof (StronglySorted_app_1_elem_of _ _ _ k (run_key r) Hss Hk
                  ltac:(left)) as Hlt.
    lia.
Qed.

Lemma elem_of_concat_runs (l : list double) (x : double) :
  x ∈ l -> exists r, r ∈ runs l /\ x ∈ r.
Proof.
  rewrite <- (concat_runs l) at 1. generalize (runs l). intros rs.
  induction rs as [|r rs IH]; cbn [concat]; [by intros ?%elem_of_nil|].
  intros [Hx|Hx]%elem_of_app.
  - exists r. split; [left|done].
  - destruct (IH Hx) as (r' & Hr' & Hx'). exists r'. split; [by right|done].
Qed.

Lemma elem_of_runs (l r : list double) (x : double) :
  r ∈ runs l -> x ∈ r -> x ∈ l.
Proof.
  rewrite <- (concat_runs l) at 2. generalize (runs l). intros rs Hr Hx.
  induction rs as [|r' rs IH]; [by apply elem_of_nil in Hr|].
  cbn [concat]. apply elem_of_app.
  apply elem_of_cons in Hr as [->|Hr]; [by left|right; by apply IH].
Qed.

(** A value that has a greater value in sorted data does not lie in the final
    run. *)
Lemma not_in_final_run (l : list double) (front : list (list double))
    (fin r : list double) (x y : double) :
  no_nan l -> sorted_by_compare l -> runs l = front ++ [fin] ->
  r ∈ runs l -> x ∈ r -> y ∈ l -> (x <? y)%float = true -> r ∈ front.
Proof.
  intros Hnan Hsorted Hruns Hr Hx Hy Hlt.
  destruct (runs_keys l Hnan Hsorted) as [Hss Hkeys].
  destruct (elem_of_concat_runs l y Hy) as (ry & Hry & Hyr).
  rewrite Forall_forall in Hkeys.
  pose proof (Hkeys r Hr) as Hkr. pose proof (Hkeys ry Hry) as Hkry.
  rewrite Forall_forall in Hkr, Hkry.
  specialize (Hkr x Hx). specialize (Hkry y Hyr).
  destruct (ltb_true_not_nan _ _ Hlt) as [Hnx Hny].
  rewrite ltb_dkey in Hlt by done. apply Z.ltb_lt in Hlt.
  rewrite Hruns, fmap_app in Hss. rewrite Hruns in Hr, Hry.
  apply elem_of_app in Hr as [Hr|Hr]; [done|].
  apply list_elem_of_singleton in Hr as ->.
  apply elem_of_app in Hry as [Hry|Hry].
  - pose proof (StronglySorted_app_1_elem_of _ _ _ (run_key ry) (run_key fin) Hss
                  ltac:(by apply list_elem_of_fmap_2) ltac:(left)).
    lia.
  - apply list_elem_of_singleton in Hry as ->. lia.
Qed.

(** In sorted data without NaN every element of a run that is not the final
    one is below the elements of the final run. *)
Lemma front_below_final (l : list double) (front : list (list double))
    (fin r : list double) (v : double) :
  no_nan l -> sorted_by_compare l -> runs l = front ++ [fin] ->
  r ∈ front -> v ∈ r -> exists z, z ∈ l /\ (v <? z)%float = true.
Proof.
  intros Hnan Hsorted Hruns Hr Hv.
  destruct (runs_keys l Hnan Hsorted) as [Hss Hkeys].
  pose proof (runs_nonempty l) as Hne.
  rewrite Hruns in Hss, Hkeys, Hne. rewrite fmap_app in Hss.
  apply Forall_app in Hkeys as [Hkf Hkl], Hne as [_ Hnl].
  apply Forall_cons in Hkl as [Hkl _], Hnl as [Hnl _].
  destruct fin as [|z fin]; [done|].
  apply Forall_cons in Hkl as [Hz _].
  rewrite Forall_forall in Hkf. specialize (Hkf r Hr).
  rewrite Forall_forall in Hkf. specialize (Hkf v Hv).
  pose proof (StronglySorted_app_1_elem_of _ _ _ (run_key r) (run_key (z :: fin))
                Hss ltac:(by apply list_elem_of_fmap_2) ltac:(left)) as Hlt.
  assert (forall r' x, r' ∈ front ++ [z :: fin] -> x ∈ r' -> x ∈ l) as Hin.
  { intros r' x Hr' Hx. apply (elem_of_runs l r'); [by rewrite Hruns|done]. }
  assert (v ∈ l) as Hvl.
  { apply (Hin r); [|done]. apply elem_of_app. by left. }
  assert (z ∈ l) as Hzl.
  { apply (Hin (z :: fin)); [|left]. apply elem_of_app. right. left. }
  exists z. split; [done|].
  unfold no_nan in Hnan. rewrite Forall_forall in Hnan.
  rewrite ltb_dkey by auto. apply Z.ltb_lt. lia.
Qed.

(** The mode returned is one of the values of the data. *)
Lemma calculate_mode_element (l : list double) (junk : block) :
  l <> [] ->
  exists v, calculate_mode (holds l junk) (Z.of_nat (length l)) = Ret v /\ v ∈ l.
Proof.
  intros Hl.
  destruct (calculate_mode_runs l junk Hl)
    as (v & Hret & [[_ Hhead]|(pre & r & post & fin & h & Hruns & _ & _ & _ & _ & Hlast & _)]).
  - exists v. split; [done|]. by apply head_Some_elem_of.
  - exists v. split; [done|].
    rewrite <- (concat_runs l), Hruns, concat_app, concat_cons.
    apply elem_of_app. right. apply elem_of_app. left.
    by apply last_Some_elem_of.
Qed.

(** Sorted data without NaN are in the order of their keys. *)
Lemma sorted_keys (l : list double) :
  no_nan l -> sorted_by_compare l -> StronglySorted Z.le (dkey <$> l).
Proof.
  intros Hnan Hsorted. apply (Sorted_StronglySorted Z.le).
  induction l as [|x [|y l'] IH]; [constructor|repeat constructor|].
  apply Forall_cons in Hnan as [Hx Hnan]. destruct Hsorted as [Hxy Hsorted].
  pose proof Hnan as [Hy _]%Forall_cons.
  apply Sorted_cons; [by apply IH|].
  constructor. by apply compare_double_le_key.
Qed.

Lemma sorted_split (l1 l2 : list double) (x y : double) :
  no_nan (l1 ++ l2) -> sorted_by_compare (l1 ++ l2) ->
  x ∈ l1 -> y ∈ l2 -> (x <=? y)%float = true.
Proof.
  intros Hnan Hsorted Hx Hy.
  pose proof (sorted_keys _ Hnan Hsorted) as Hss. rewrite fmap_app in Hss.
  unfold no_nan in Hnan. rewrite Forall_forall in Hnan.
  rewrite leb_dkey by (apply Hnan, elem_of_app; auto).
  apply Z.leb_le.
  apply (StronglySorted_app_1_elem_of _ _ _ (dkey x) (dkey y) Hss);
    by apply list_elem_of_fmap_2.
Qed.

(** X9. On sorted data without NaN the mode returned is a value of the data
    that occurs at least as often as every value that is not the greatest
    one (a value with a greater value in the data). *)
Theorem calculate_mode_most_frequent (l : list double) (junk : block) :
  l <> [] -> no_nan l -> sorted_by_compare l ->
  exists v,
    calculate_mode (holds l junk) (Z.of_nat (length l)) = Ret v
    /\ v ∈ l
    /\ forall x y, x ∈ l -> y ∈ l -> (x <? y)%float = true ->
         (occurrences x l <= occurrences v l)%nat.
Proof.
  intros Hl Hnan Hsorted.
  destruct (calculate_mode_element l junk Hl) as (v & Hret & Hv).
  exists v. split; [done|]. split; [done|].
  intros x y Hx Hy Hlt.
  destruct (elem_of_concat_runs l x Hx) as (rx & Hrx & Hxr).
  destruct (elem_of_concat_runs l v Hv) as (rv & Hrv & Hvr).
  rewrite <- (run_length_occurrences l rx x), <- (run_length_occurrences l rv v)
    by done.
  destruct (calculate_mode_runs l junk Hl)
    as (v' & Hret' & [[Hones _]|(pre & r & post & fin & h & Hruns & Hlen & Hpre
                                  & Hpost & _ & Hlast & _)]).
  - destruct (runs_split_last l Hl) as (front & fin & Hruns & Hfront).
    rewrite Hfront in Hones.
    pose proof (not_in_final_run l front fin rx x y Hnan Hsorted Hruns Hrx Hxr
                  Hy Hlt) as Hin.
    rewrite Forall_forall in Hones. rewrite (Hones rx Hin).
    destruct rv; [by apply elem_of_nil in Hvr|cbn; lia].
  - assert (v' = v) as -> by congruence.
    assert (r ∈ runs l) as Hr.
    { rewrite Hruns. apply elem_of_app. right. left. }
    assert (length rv = length r) as ->.
    { rewrite (run_length_occurrences l rv v), (run_length_occurrences l r v);
        try done. by apply last_Some_elem_of. }
    rewrite app_comm_cons, app_assoc in Hruns.
    pose proof (not_in_final_run l _ fin rx x y Hnan Hsorted Hruns Hrx Hxr
                  Hy Hlt) as Hin.
    rewrite Forall_forall in Hpre, Hpost.
    apply elem_of_app in Hin as [Hin|Hin]; [specialize (Hpre _ Hin); lia|].
    apply elem_of_cons in Hin as [->|Hin]; [lia|].
    by apply Hpost.
Qed.

Lemma calculate_mode_most_frequent_witness :
  no_nan [1; 2; 2; 4]%float /\ sorted_by_compare [1; 2; 2; 4]%float
  /\ exists v, calculate_mode (holds [1; 2; 2; 4]%float []) 4 = Ret v
               /\ (occurrences 1%float [1; 2; 2; 4]%float
                   <= occurrences v [1; 2; 2; 4]%float)%nat.
Proof.
  assert (no_nan [1; 2; 2; 4]%float) as Hnan by (by repeat constructor).
  assert (sorted_by_compare [1; 2; 2; 4]%float) as Hsorted
    by (repeat split; by vm_compute).
  split; [done|]. split; [done|].
  destruct (calculate_mode_most_frequent [1; 2; 2; 4]%float [] ltac:(done)
              Hnan Hsorted) as (v & Hret & _ & Hocc).
  exists v. split; [exact Hret|].
  apply (Hocc 1%float 4%float); [by left|by do 3 right; left|reflexivity].
Defined.

(** X10. On sorted data without NaN that hold two different values the mode
    returned is below the greatest value: the final run is never counted,
    so the greatest value is not the result however often it occurs. *)
Theorem calculate_mode_below_greatest (l : list double) (junk : block)
    (x y : double) :
  no_nan l -> sorted_by_compare l -> x ∈ l -> y ∈ l -> (x <? y)%float = true ->
  exists v z,
    calculate_mode (holds l junk) (Z.of_nat (length l)) = Ret v
    /\ v ∈ l /\ z ∈ l /\ (v <? z)%float = true.
Proof.
  intros Hnan Hsorted Hx Hy Hlt.
  assert (l <> []) as Hl by (intros ->; by apply elem_of_nil in Hx).
  destruct (elem_of_concat_runs l x Hx) as (rx & Hrx & Hxr).
  destruct (runs_split_last l Hl) as (front & fin & Hruns & Hfront).
  pose proof (not_in_final_run l front fin rx x y Hnan Hsorted Hruns Hrx Hxr
                Hy Hlt) as Hin.
  assert (forall r v, r ∈ front -> v ∈ r -> v ∈ l) as Hmem.
  { intros r v Hr Hv. apply (elem_of_runs l r); [|done].
    rewrite Hruns. apply elem_of_app. by left. }
  destruct (calculate_mode_runs l junk Hl)
    as (v & Hret & [[_ Hhead]|(pre & r & post & fin' & h & Hruns' & _ & _ & _
                                & _ & Hlast & _)]).
  - destruct front as [|r0 front']; [by apply elem_of_nil in Hin|].
    assert (v ∈ r0) as Hv.
    { pose proof (runs_nonempty l) as Hne. rewrite Hruns in Hne.
      apply Forall_cons in Hne as [Hr0 _].
      rewrite <- (concat_runs l), Hruns in Hhead. cbn [app concat] in Hhead.
      destruct r0 as [|a r0]; [done|]. cbn in Hhead. injection Hhead as ->. left. }
    destruct (front_below_final l _ fin r0 v Hnan Hsorted Hruns ltac:(left) Hv)
      as (z & Hz & Hvz).
    exists v, z. split; [done|]. split; [|done]. apply (Hmem r0); [left|done].
  - assert (front = pre ++ r :: post /\ fin' = fin) as [-> ->].
    { rewrite Hruns', app_comm_cons, app_assoc in Hruns.
      by apply app_inj_tail in Hruns as [<- <-]. }
    assert (r ∈ pre ++ r :: post) as Hr by (apply elem_of_app; right; left).
    apply last_Some_elem_of in Hlast.
    destruct (front_below_final l _ fin r v Hnan Hsorted Hruns Hr Hlast)
      as (z & Hz & Hvz).
    exists v, z. split; [done|]. split; [|done]. by apply (Hmem r).
Qed.

Lemma calculate_mode_below_greatest_witness :
  no_nan [1; 2; 2; 4; 4; 4]%float /\ sorted_by_compare [1; 2; 2; 4; 4; 4]%float
  /\ exists v z, calculate_mode (holds [1; 2; 2; 4; 4; 4]%float []) 6 = Ret v
                 /\ z ∈ [1; 2; 2; 4; 4; 4]%float /\ (v <? z)%float = true.
Proof.
  assert (no_nan [1; 2; 2; 4; 4; 4]%float) as Hnan by (by repeat constructor).
  assert (sorted_by_compare [1; 2; 2; 4; 4; 4]%float) as Hsorted
    by (repeat split; by vm_compute).
  split; [done|]. split; [done|].
  destruct (calculate_mode_below_greatest [1; 2; 2; 4; 4; 4]%float [] 1%float
              4%float Hnan Hsorted ltac:(by left) ltac:(by do 3 right; left)
              eq_refl) as (v & z & Hret & _ & Hz & Hvz).
  exists v, z. split; [exact Hret|]. by split.
Defined.

(** X11. On sorted data without NaN the median is the central element, or
    the mean [(a + b) / 2] of the two central elements [a <= b], and as many
    elements lie before the centre, all at or below it, as lie after it,
    all at or above it. *)
Theorem calculate_median_splits (l : list double) (junk : block) :
  l <> [] -> no_nan l -> sorted_by_compare l ->
  exists l1 mid l2 m,
    l = l1 ++ mid ++ l2 /\ length l1 = length l2
    /\ calculate_median (holds l junk) (Z.of_nat (length l)) = Ret m
    /\ (mid = [m]
        \/ exists a b, mid = [a; b] /\ (a <=? b)%float = true
                       /\ m = ((a + b) / 2)%float)
    /\ (forall x y, x ∈ l1 -> y ∈ mid -> (x <=? y)%float = true)
    /\ (forall x y, x ∈ mid -> y ∈ l2 -> (x <=? y)%float = true).
Proof.
  intros Hl Hnan Hsorted.
  assert (1 <= length l)%nat as Hlen by (destruct l; [done|cbn; lia]).
  pose proof (calculate_median_index l junk Hlen) as Hidx.
  pose proof (median_positions_central l Hlen) as Hpos.
  destruct (Nat.even (length l)).
  - destruct Hidx as (a & b & Ha & Hb & Hret).
    destruct Hpos as (l1 & a' & b' & l2 & Heq & Hlen12 & Hl1).
    assert (a' = a /\ b' = b) as [-> ->].
    { assert (length l = 2 * S (length l1))%nat as Hll.
      { rewrite Heq at 1. rewrite length_app. cbn [length]. lia. }
      rewrite <- Hl1 in Ha.
      replace (length l / 2)%nat with (S (length l1)) in Hb
        by (apply (Nat.div_unique _ 2 _ 0); lia).
      rewrite Heq in Ha, Hb.
      rewrite lookup_app_r, Nat.sub_diag in Ha by lia.
      rewrite lookup_app_r in Hb by lia.
      replace (S (length l1) - length l1)%nat with 1%nat in Hb by lia.
      cbn in Ha, Hb. split; congruence. }
    rewrite Heq in Hnan, Hsorted.
    exists l1, [a; b], l2, ((a + b) / 2)%float.
    split; [done|]. split; [done|]. split; [done|].
    split.
    { right. exists a, b. split; [done|]. split; [|done].
      apply (sorted_split (l1 ++ [a]) (b :: l2)).
      - by rewrite <- app_assoc.
      - by rewrite <- app_assoc.
      - apply elem_of_app. right. left.
      - left. }
    split.
    + intros x y Hx Hy. apply (sorted_split l1 ([a; b] ++ l2)); [done..|].
      apply elem_of_app. by left.
    + intros x y Hx Hy. apply (sorted_split (l1 ++ [a; b]) l2);
        [by rewrite <- app_assoc..| |done].
      apply elem_of_app. by right.
  - destruct Hidx as (m & Hm & Hret).
    destruct Hpos as (l1 & m' & l2 & Heq & Hlen12 & Hl1).
    assert (m' = m) as ->.
    { rewrite <- Hl1 in Hm. rewrite Heq in Hm.
      rewrite lookup_app_r, Nat.sub_diag in Hm by lia. cbn in Hm. congruence. }
    rewrite Heq in Hnan, Hsorted.
    exists l1, [m], l2, m.
    split; [done|]. split; [done|]. split; [done|]. split; [by left|].
    split.
    + intros x y Hx Hy. apply (sorted_split l1 ([m] ++ l2)); [done..|].
      apply elem_of_app. by left.
    + intros x y Hx Hy. apply (sorted_split (l1 ++ [m]) l2);
        [by rewrite <- app_assoc..| |done].
      apply elem_of_app. by right.
Qed.

Lemma calculate_median_splits_witness :
  no_nan [1; 2; 4]%float /\ sorted_by_compare [1; 2; 4]%float
  /\ exists l1 mid l2 m,
       [1; 2; 4]%float = l1 ++ mid ++ l2 /\ length l1 = length l2
       /\ calculate_median (holds [1; 2; 4]%float []) 3 = Ret m.
Proof.
  assert (no_nan [1; 2; 4]%float) as Hnan by (by repeat constructor).
  assert (sorted_by_compare [1; 2; 4]%float) as Hsorted
    by (repeat split; by vm_compute).
  split; [done|]. split; [done|].
  destruct (calculate_median_splits [1; 2; 4]%float [] ltac:(done) Hnan Hsorted)
    as (l1 & mid & l2 & m & Heq & Hlen & Hret & _).
  exists l1, mid, l2, m. split; [exact Heq|]. split; [exact Hlen|exact Hret].
Defined.

(** ** The harmonic mean of data with a zero *)

(** X12. A [+0] among data that are otherwise positive makes the harmonic
    mean [+0]: its reciprocal is [+infinity], so is the sum of the
    reciprocals, and the count divided by it is [+0].  Nothing traps and no
    NaN appears. *)
Theorem calculate_harmonic_mean_zero (l : list double) (junk : block) :
  Forall (fun x => x = 0%float \/ (0 <? x)%float = true) l ->
  0%float ∈ l -> Z.of_nat (length l) <= INT_MAX ->
  calculate_harmonic_mean (holds l junk) (Z.of_nat (length l)) = Ret 0%float.
Proof.
  intros Hl Hz Hlen. rewrite calculate_harmonic_mean_eq. f_equal.
  assert (fsum (reciprocal <$> l) = infinity) as ->.
  { apply list_elem_of_split in Hz as (l1 & l2 & ->).
    apply Forall_app in Hl as [Hl1 Hl2]. apply Forall_cons in Hl2 as [_ Hl2].
    unfold fsum. rewrite fmap_app, fold_left_app. cbn [fmap list_fmap fold_left].
    rewrite reciprocal_zero.
    destruct (fold_add_clear (reciprocal <$> l1) 0) as [Hc1 _]; [done| |].
    { apply Forall_fmap. eapply Forall_impl; [exact Hl1|].
      intros x Hx. by apply reciprocal_clear. }
    apply fold_add_clear.
    - rewrite add_infinity; auto.
    - apply Forall_fmap. eapply Forall_impl; [exact Hl2|].
      intros x Hx. by apply reciprocal_clear.
    - apply add_infinity; auto. }
  apply Prim2SF_inj. rewrite div_spec, Prim2SF_infinity, Prim2SF_zero.
  destruct (double_of_int_finite (Z.of_nat (length l))) as (m & ex & -> & _);
    [|done].
  unfold INT_MAX in Hlen.
  destruct l; [by apply elem_of_nil in Hz|]. cbn [length] in *. lia.
Qed.

Lemma calculate_harmonic_mean_zero_witness :
  0%float ∈ [0; 1; 2]%float
  /\ calculate_harmonic_mean (holds [0; 1; 2]%float []) 3 = Ret 0%float.
Proof.
  split; [by left|].
  apply (calculate_harmonic_mean_zero [0; 1; 2]%float []).
  - repeat constructor; (by left) || (by right).
  - by left.
  - by vm_compute.
Defined.

(** ** The reading loop in general *)

(** The capacity stays 20 times a power of two, is never below the number of
    values and, once grown, never reaches twice that number. *)
Lemma capacity_after_inv (k : nat) (c n j : Z) :
  0 <= j -> c = 20 * 2 ^ j -> 0 <= n <= c -> (20 < c -> c < 2 * n) ->
  exists j', j <= j'
    /\ capacity_after c n k = 20 * 2 ^ j'
    /\ n + Z.of_nat k <= capacity_after c n k
    /\ (20 < capacity_after c n k -> capacity_after c n k < 2 * (n + Z.of_nat k)).
Proof.
  revert c n j. induction k as [|k IH]; intros c n j Hj Hc Hn Hhalf.
  { exists j. cbn [capacity_after]. repeat split; lia. }
  cbn [capacity_after].
  assert (0 < 2 ^ j) as Hpow by (apply Z.pow_pos_nonneg; lia).
  destruct (Z.eqb_spec n c) as [->|Hne].
  - destruct (IH (2 * c) (c + 1) (j + 1)) as (j' & Hj' & Hcap & Hfit & Hhalf');
      try lia.
    { rewrite Z.pow_add_r, Z.pow_1_r by lia. lia. }
    exists j'. repeat split; lia.
  - destruct (IH c (n + 1) j) as (j' & Hj' & Hcap & Hfit & Hhalf'); try lia.
    exists j'. repeat split; lia.
Qed.

(** The reading loop with an allocator that never fails, for as many values
    as the capacity can grow to, [20 * 2 ^ 26]: no doubling leaves the range
    of [int]. *)
Lemma main_loop_grows (vs : list double) (b : buffer) (w : world)
    (l : list double) (j : Z) :
  buffer_inv b w l -> never_fails w ->
  0 <= j -> capacity b = 20 * 2 ^ j ->
  size b + Z.of_nat (length vs) <= 20 * 2 ^ 26 ->
  exists b' w',
    main_loop vs b w = Ret (Some b', [], w')
    /\ buffer_inv b' w' (l ++ vs)
    /\ capacity b' = capacity_after (capacity b) (size b) (length vs)
    /\ never_fails w'
    /\ delete (data b') (heap w') = delete (data b) (heap w).
Proof.
  revert b w l j. induction vs as [|v vs IH]; intros b w l j Hinv Hok Hj Hcap Hbound.
  { exists b, w. by rewrite app_nil_r. }
  pose proof Hinv as (Hblk & Hsize & Hle & Hpos).
  cbn [main_loop capacity_after length] in *.
  destruct (Z.eqb_spec (size b) (capacity b)) as [Hfull|Hroom].
  - assert (j <= 25) as Hj25.
    { destruct (Z.le_gt_cases j 25) as [?|Hgt]; [done|].
      assert (2 ^ 26 <= 2 ^ j) by (apply Z.pow_le_mono_r; lia).
      lia. }
    assert (2 * capacity b <= INT_MAX) as Hmax.
    { assert (2 ^ j <= 2 ^ 25) by (apply Z.pow_le_mono_r; lia).
      unfold INT_MAX. lia. }
    destruct (main_loop_body_grow v b w l Hinv Hfull Hok Hmax) as [Hfresh ->].
    cbn [obind].
    set (p := fresh (dom (heap w))) in *.
    set (w1 := World _ _).
    destruct (IH (Buffer p (size b + 1) (2 * capacity b)) w1 (l ++ [v]) (j + 1))
      as (b' & w' & Hrun & Hinv' & Hcap' & Hok' & Hleak).
    + unfold buffer_inv. cbn [data size capacity heap w1].
      rewrite lookup_insert_eq, length_app. cbn [length].
      repeat split; try done; lia.
    + destruct w as [h oks]. by apply never_fails_tail with h.
    + lia.
    + cbn [capacity]. rewrite Hcap, Z.pow_add_r, Z.pow_1_r by lia. lia.
    + cbn [size]. lia.
    + exists b', w'. rewrite <- app_assoc in Hinv'.
      split; [done|]. split; [done|]. split; [done|]. split; [done|].
      rewrite Hleak. cbn [data heap w1].
      rewrite delete_insert_eq. apply delete_id.
      by rewrite lookup_delete_ne by congruence.
  - rewrite (main_loop_body_room v b w l Hinv) by lia. cbn [obind].
    set (w1 := World _ _).
    destruct (IH (Buffer (data b) (size b + 1) (capacity b)) w1 (l ++ [v]) j)
      as (b' & w' & Hrun & Hinv' & Hcap' & Hok' & Hleak).
    + unfold buffer_inv. cbn [data size capacity heap w1].
      rewrite lookup_insert_eq, length_app. cbn [length].
      repeat split; try done; lia.
    + done.
    + done.
    + done.
    + cbn [size]. lia.
    + exists b', w'. rewrite <- app_assoc in Hinv'.
      split; [done|]. split; [done|]. split; [done|]. split; [done|].
      rewrite Hleak. cbn [data heap w1]. by rewrite delete_insert_eq.
Qed.

(** The reading loop on a sequence in two parts. *)
Lemma main_loop_app (vs1 vs2 : list double) (b b' : buffer) (w w' : world) :
  main_loop vs1 b w = Ret (Some b', [], w') ->
  main_loop (vs1 ++ vs2) b w = main_loop vs2 b' w'.
Proof.
  revert b w. induction vs1 as [|v vs1 IH]; intros b w Hrun.
  { cbn [main_loop] in Hrun. by injection Hrun as <- <-. }
  cbn [main_loop app] in *.
  destruct (main_loop_body v b w) as [[[b1|] w1]| |]; cbn [obind] in *; try done.
  by apply IH.
Qed.

(** With the buffer full at the greatest capacity, one more value makes
    [enlarge_array] double the capacity beyond [INT_MAX]. *)
Lemma main_loop_overflow (v : double) (vs : list double) (b : buffer)
    (w : world) :
  size b = capacity b -> capacity b = 20 * 2 ^ 26 ->
  main_loop (v :: vs) b w = Undefined.
Proof.
  intros Hfull Hcap. cbn [main_loop]. unfold main_loop_body, enlarge_array.
  rewrite Hfull, Z.eqb_refl, Hcap. reflexivity.
Qed.

(** X13. The reading loop of [main], started on the first block of 20 cells
    with an allocator that does not fail.  For a file of at most
    [20 * 2 ^ 26 = 1342177280] values it reads every value: at its end
    [size] is their number, the block holds them in the order read,
    [capacity] is 20 times a power of two and not below [size], and once the
    buffer has grown the unused capacity is less than [size]; all other
    blocks are as before [main].  With one value more the doubling of the
    capacity leaves the range of [int]: the behaviour is undefined. *)
Theorem reading_loop_buffer (input : list double) (w : world) :
  never_fails w ->
  exists p w1,
    malloc 20 w = (Some p, w1)
    /\ (Z.of_nat (length input) <= 20 * 2 ^ 26 ->
        exists b w',
          main_loop input (Buffer p 0 20) w1 = Ret (Some b, [], w')
          /\ size b = Z.of_nat (length input)
          /\ heap w' !! data b
             = Some (holds input (replicate (Z.to_nat (capacity b - size b)) None))
          /\ (exists j, 0 <= j /\ capacity b = 20 * 2 ^ j)
          /\ size b <= capacity b
          /\ (20 < capacity b -> capacity b - size b < size b)
          /\ delete (data b) (heap w') = heap w)
    /\ (20 * 2 ^ 26 < Z.of_nat (length input) ->
        main_loop input (Buffer p 0 20) w1 = Undefined).
Proof.
  intros Hok.
  destruct (malloc_ok 20 w Hok) as (Hmalloc & Hfresh & Hok1).
  set (p := fresh (dom (heap w))) in *.
  set (w1 := World (<[p := replicate (Z.to_nat 20) None]> (heap w))
                   (tail (alloc_ok w))) in *.
  assert (buffer_inv (Buffer p 0 20) w1 []) as Hinv.
  { unfold buffer_inv. cbn [data size capacity heap w1].
    rewrite lookup_insert_eq. repeat split; try done. }
  assert (forall vs : list double,
            Z.of_nat (length vs) <= 20 * 2 ^ 26 ->
            exists b w',
              main_loop vs (Buffer p 0 20) w1 = Ret (Some b, [], w')
              /\ size b = Z.of_nat (length vs)
              /\ heap w' !! data b
                 = Some (holds vs (replicate (Z.to_nat (capacity b - size b)) None))
              /\ (exists j, 0 <= j /\ capacity b = 20 * 2 ^ j)
              /\ size b <= capacity b
              /\ (20 < capacity b -> capacity b - size b < size b)
              /\ delete (data b) (heap w') = heap w) as Hread.
  { intros vs Hbound.
    destruct (main_loop_grows vs _ w1 [] 0 Hinv Hok1)
      as (b & w' & Hrun & (Hblk & Hsize & Hle & Hpos) & Hcap & _ & Hleak);
      [done|done|cbn [size]; lia|].
    cbn [app data size capacity] in *.
    destruct (capacity_after_inv (length vs) 20 0 0)
      as (j & Hj & Hcapj & Hfit & Hhalf); try lia.
    rewrite <- Hcap in *.
    exists b, w'. split; [done|]. split; [done|]. split; [done|].
    split; [by exists j|]. split; [done|]. split; [lia|].
    rewrite Hleak. cbn [heap w1]. by rewrite delete_insert_eq, delete_id. }
  exists p, w1. split; [done|]. split; [apply Hread|].
  intros Hlong.
  remember (Z.to_nat (20 * 2 ^ 26)) as B eqn:HB.
  assert (Z.of_nat B = 20 * 2 ^ 26) as HBz by (subst B; rewrite Z2Nat.id; lia).
  clear HB.
  assert (length (take B input) = B) as Htake by (rewrite length_take; lia).
  destruct (drop B input) as [|v rest] eqn:Hdrop.
  { pose proof (length_drop input B) as Hd. rewrite Hdrop in Hd. cbn in Hd. lia. }
  rewrite <- (take_drop B input), Hdrop.
  destruct (Hread (take B input)) as (b & w' & Hrun & Hsize & _ & (j & Hj & Hcap)
                                      & Hle & Hhalf & _); [lia|].
  rewrite (main_loop_app _ _ _ _ _ _ Hrun).
  rewrite Htake, HBz in Hsize.
  assert (j = 26) as ->.
  { destruct (Z.lt_trichotomy j 26) as [Hlt|[?|Hgt]]; [|done|].
    - assert (2 ^ j <= 2 ^ 25) by (apply Z.pow_le_mono_r; lia). lia.
    - assert (2 ^ 27 <= 2 ^ j) by (apply Z.pow_le_mono_r; lia). lia. }
  apply main_loop_overflow; lia.
Qed.

Lemma reading_loop_buffer_witness :
  never_fails (World ∅ [])
  /\ exists p w1 b w',
       malloc 20 (World ∅ []) = (Some p, w1)
       /\ main_loop (replicate 25 1%float) (Buffer p 0 20) w1 = Ret (Some b, [], w')
       /\ size b = 25 /\ delete (data b) (heap w') = ∅.
Proof.
  assert (never_fails (World ∅ [])) as Hok by constructor.
  split; [done|].
  destruct (reading_loop_buffer (replicate 25 1%float) (World ∅ []) Hok)
    as (p & w1 & Hmalloc & Hread & _).
  destruct (Hread ltac:(by vm_compute))
    as (b & w' & Hrun & Hsize & _ & _ & _ & _ & Hleak).
  exists p, w1, b, w'. split; [exact Hmalloc|]. split; [exact Hrun|].
  split; [exact Hsize|exact Hleak].
Defined.

(** What [malloc] does to the heap: on success the block returned is new and
    unwritten, on failure nothing changes. *)
Lemma malloc_heap (n : Z) (w w1 : world) (r : option loc) :
  malloc n w = (r, w1) ->
  match r with
  | Some p => heap w !! p = None
              /\ heap w1 = <[p := replicate (Z.to_nat n) None]> (heap w)
  | None => heap w1 = heap w
  end.
Proof.
  unfold malloc. intros Hm.
  assert (heap w !! fresh (dom (heap w)) = None) as Hfresh
    by apply not_elem_of_dom, is_fresh.
  destruct (alloc_ok w) as [|[|] oks]; by injection Hm as <- <-.
Qed.

(** One pass of the loop body, whatever the allocator does: the buffer is
    extended by the value, or given up with its block released. *)
Lemma main_loop_body_heap (v : double) (b : buffer) (w : world)
    (l : list double) (ob : option buffer) (w1 : world) :
  buffer_inv b w l -> main_loop_body v b w = Ret (ob, w1) ->
  match ob with
  | Some b1 => buffer_inv b1 w1 (l ++ [v])
               /\ delete (data b1) (heap w1) = delete (data b) (heap w)
  | None => heap w1 = delete (data b) (heap w)
  end.
Proof.
  intros Hinv Hrun. pose proof Hinv as (Hblk & Hsize & Hle & Hpos).
  destruct (Z.eq_dec (size b) (capacity b)) as [Hfull|Hroom].
  2:{ rewrite (main_loop_body_room v b w l Hinv) in Hrun by lia.
      injection Hrun as <- <-. cbn [data size capacity heap].
      split; [|by rewrite delete_insert_eq].
      unfold buffer_inv. cbn [data size capacity heap].
      rewrite lookup_insert_eq, length_app. cbn [length].
      repeat split; try done; lia. }
  unfold main_loop_body, enlarge_array in Hrun.
  destruct (Z.eqb_spec (size b) (capacity b)) as [_|?]; [|lia].
  destruct (INT_MAX <? 2 * capacity b); [done|].
  destruct (malloc (2 * capacity b) w) as [[p|] w2] eqn:Hmalloc;
    apply malloc_heap in Hmalloc.
  - destruct Hmalloc as [Hfresh Hw2].
    assert (p <> data b) as Hne by congruence.
    unfold memcpy in Hrun.
    rewrite Hw2, lookup_insert_eq, lookup_insert_ne, Hblk in Hrun by done.
    rewrite length_replicate in Hrun.
    unfold holds in Hrun at 1.
    rewrite length_app, length_fmap, length_replicate in Hrun.
    destruct (Z.leb_spec 0 (size b)) as [_|?]; [|lia].
    destruct (Z.leb_spec (size b) (Z.of_nat (Z.to_nat (2 * capacity b))))
      as [_|?]; [|lia].
    destruct (Z.leb_spec (size b)
                (Z.of_nat (length l + Z.to_nat (capacity b - size b))))
      as [_|?]; [|lia].
    cbn [andb obind] in Hrun. unfold free in Hrun. cbn [heap alloc_ok] in Hrun.
    rewrite lookup_insert_ne, lookup_insert_ne, Hblk in Hrun by done.
    cbn [obind] in Hrun.
    unfold store_at in Hrun. cbn [data size capacity heap alloc_ok] in Hrun.
    rewrite insert_insert_eq, delete_insert_ne, lookup_insert_eq in Hrun by done.
    rewrite drop_replicate in Hrun.
    unfold holds in Hrun.
    rewrite take_app_length' in Hrun by (rewrite length_fmap; lia).
    replace (Z.to_nat (2 * capacity b) - Z.to_nat (size b))%nat
      with (S (Z.to_nat (2 * capacity b - (size b + 1)))) in Hrun by lia.
    change ((Some <$> l) ++ replicate (S ?k) None)
      with (holds l (replicate (S k) None)) in Hrun.
    rewrite Hsize, store_holds in Hrun. cbn [obind] in Hrun.
    injection Hrun as <- <-. cbn [data size capacity heap].
    rewrite insert_insert_eq.
    split; [|by rewrite delete_insert_eq, delete_id
               by (by rewrite lookup_delete_ne)].
    unfold buffer_inv. cbn [data size capacity heap].
    rewrite lookup_insert_eq, length_app. cbn [length].
    repeat split; lia.
  - cbn [obind] in Hrun. unfold free in Hrun.
    rewrite Hmalloc, Hblk in Hrun. cbn [obind] in Hrun.
    by injection Hrun as <- <-.
Qed.

(** The reading loop, whatever the allocator does: at its end either the
    buffer is intact in one live block, or it was given up and its block is
    released; no other block is touched. *)
Lemma main_loop_heap (vs : list double) (b : buffer) (w : world)
    (l : list double) (ob : option buffer) (rest : list double) (w' : world) :
  buffer_inv b w l -> main_loop vs b w = Ret (ob, rest, w') ->
  match ob with
  | Some b' => (exists l', buffer_inv b' w' l')
               /\ delete (data b') (heap w') = delete (data b) (heap w)
  | None => heap w' = delete (data b) (heap w)
  end.
Proof.
  revert b w l. induction vs as [|v vs IH]; intros b w l Hinv Hrun.
  { cbn [main_loop] in Hrun. injection Hrun as <- _ <-. split; [by exists l|done]. }
  cbn [main_loop] in Hrun.
  destruct (main_loop_body v b w) as [[ob1 w1]| |] eqn:Hbody; [|done..].
  cbn [obind] in Hrun.
  pose proof (main_loop_body_heap v b w l ob1 w1 Hinv Hbody) as Hstep.
  destruct ob1 as [b1|].
  - destruct Hstep as [Hinv1 Hleak1].
    specialize (IH b1 w1 _ Hinv1 Hrun).
    destruct ob as [b'|]; [|congruence].
    destruct IH as [Hinv' Hleak']. split; [done|congruence].
  - by injection Hrun as <- _ <-.
Qed.

(** ** [main] from start to end *)

Lemma written_holds (l : list double) (junk : block) :
  written (holds l junk) (Z.of_nat (length l)) = Ret l.
Proof.
  unfold written, holds. rewrite length_app, length_fmap.
  destruct (Z.ltb_spec (Z.of_nat (length l)) 0) as [?|_]; [lia|].
  destruct (Z.ltb_spec (Z.of_nat (length l + length junk)) (Z.of_nat (length l)))
    as [?|_]; [lia|].
  cbn [orb]. rewrite Nat2Z.id, take_app_length' by (by rewrite length_fmap).
  by rewrite mapM_fmap_Some.
Qed.

Lemma malloc_first (n : Z) (w : world) :
  head (alloc_ok w) <> Some false ->
  let p := fresh (dom (heap w)) in
  malloc n w = (Some p, World (<[p := replicate (Z.to_nat n) None]> (heap w))
                              (tail (alloc_ok w)))
  /\ heap w !! p = None.
Proof.
  intros Hok p. split.
  - unfold malloc. by destruct (alloc_ok w) as [|[|] rest].
  - apply not_elem_of_dom, is_fresh.
Qed.

Lemma written_zero (blk : block) : written blk 0 = Ret [].
Proof. unfold written. by destruct (Z.ltb_spec (Z.of_nat (length blk)) 0); [lia|]. Qed.

Lemma calculate_mean_zero (data : block) :
  calculate_mean data 0 = Ret (0 / 0)%float.
Proof. reflexivity. Qed.

Lemma calculate_median_zero (data : block) : calculate_median data 0 = Undefined.
Proof. reflexivity. Qed.

Section MainRuns.

Variable qsort : (double -> double -> Z) -> list double -> list double.

(** X14. The early exits of [main]: a wrong argument count, a failed first
    allocation and a file that cannot be opened each end the run with
    [EXIT_FAILURE], nothing computed or printed, and the heap as it was. *)
Theorem main_early_exits (fuel : nat) (argc : Z)
    (file : option (list double)) (w : world) :
  (argc <> 2 -> main qsort fuel argc file w = Ret (EXIT_FAILURE, None, w))
  /\ (forall rest, alloc_ok w = false :: rest ->
        main qsort fuel 2 file w = Ret (EXIT_FAILURE, None, World (heap w) rest))
  /\ (head (alloc_ok w) <> Some false ->
        main qsort fuel 2 None w
        = Ret (EXIT_FAILURE, None, World (heap w) (tail (alloc_ok w)))).
Proof.
  repeat split.
  - intros Hargc. unfold main. by destruct (Z.eqb_spec argc 2).
  - intros rest Hw. unfold main. cbn [Z.eqb negb].
    by rewrite (malloc_fail _ _ rest).
  - intros Hok. unfold main. cbn [Z.eqb negb].
    destruct (malloc_first 20 w Hok) as [-> Hfresh].
    unfold free. cbn [heap alloc_ok]. rewrite lookup_insert_eq. cbn [obind].
    by rewrite delete_insert_eq, delete_id.
Qed.

(** X15. A file without a number: [main] calls the routines with [size = 0],
    and [calculate_median] reads [data[-1]], outside the block. *)
Theorem main_empty_input (fuel : nat) (w : world) :
  head (alloc_ok w) <> Some false ->
  main qsort fuel 2 (Some []) w = Undefined.
Proof.
  intros Hok. unfold main. cbn [Z.eqb negb].
  destruct (malloc_first 20 w Hok) as [-> Hfresh].
  cbn [main_loop obind data size heap alloc_ok]. rewrite lookup_insert_eq.
  rewrite written_zero. cbn [obind].
  by rewrite calculate_mean_zero, calculate_median_zero.
Qed.

(** X16. On a file with at least one number and at most
    [20 * 2 ^ 26 = 1342177280] of them, the most the doubling of an [int]
    capacity can hold, and with an allocator that does not fail, [main]
    hands to [print_results] the count, the capacity reached and what the
    five routines return on the sorted values, releases the buffer, leaves
    the heap as it was and returns [EXIT_SUCCESS]; when the square root loop
    does not end, neither does [main]. *)
Theorem main_reports (fuel : nat) (input : list double) (w : world) :
  never_fails w -> input <> [] ->
  Z.of_nat (length input) <= 20 * 2 ^ 26 ->
  length (qsort compare_double input) = length input ->
  let sorted := holds (qsort compare_double input) [] in
  let n := Z.of_nat (length input) in
  exists mean median mode harmonic_mean,
    calculate_mean sorted n = Ret mean
    /\ calculate_median sorted n = Ret median
    /\ calculate_mode sorted n = Ret mode
    /\ calculate_harmonic_mean sorted n = Ret harmonic_mean
    /\ match calculate_stddev fuel sorted n mean with
       | Ret stddev =>
           exists w',
             main qsort fuel 2 (Some input) w
             = Ret (EXIT_SUCCESS,
                    Some (Report n (capacity_after 20 0 (length input))
                            mean median mode stddev harmonic_mean),
                    w')
             /\ heap w' = heap w
       | Undefined => False
       | OutOfFuel => main qsort fuel 2 (Some input) w = OutOfFuel
       end.
Proof.
  intros Hok Hne Hmax Hperm. cbv zeta.
  set (s := qsort compare_double input) in *.
  assert (s <> []) as Hs by (intros Hs; rewrite Hs in Hperm; by destruct input).
  assert (1 <= length s)%nat as Hlen by (destruct s; [done|cbn; lia]).
  rewrite <- Hperm.
  set (v := (fsum s / double_of_int (Z.of_nat (length s)))%float).
  set (hm := (double_of_int (Z.of_nat (length s)) / fsum (reciprocal <$> s))%float).
  destruct (calculate_median_junk s [] [] Hlen) as (median & Hmedian & _).
  destruct (calculate_mode_junk s [] [] Hs) as (mode & Hmode & _).
  exists v, median, mode, hm.
  split; [apply calculate_mean_eq|]. split; [done|]. split; [done|].
  split; [apply calculate_harmonic_mean_eq|].
  destruct (malloc_ok 20 w Hok) as (Hmalloc & Hfresh & Hok1).
  set (p := fresh (dom (heap w))) in *. set (w1 := World _ _) in *.
  assert (buffer_inv (Buffer p 0 20) w1 []) as Hinv.
  { unfold buffer_inv. cbn [data size capacity heap w1].
    by rewrite lookup_insert_eq. }
  destruct (main_loop_grows input _ w1 [] 0 Hinv Hok1)
    as (b & w2 & Hrun & (Hblk & Hsize & Hle & Hpos) & Hcap & _ & Hleak);
    [done|done|cbn [size]; lia|].
  cbn [app size capacity data] in Hblk, Hsize, Hcap, Hleak.
  rewrite <- Hperm in Hsize.
  assert (main qsort fuel 2 (Some input) w
          = let* stddev := calculate_stddev fuel (holds s []) (Z.of_nat (length s)) v in
            Ret (EXIT_SUCCESS,
                 Some (Report (Z.of_nat (length s))
                         (capacity_after 20 0 (length input))
                         v median mode stddev hm),
                 World (heap w) (alloc_ok w2))) as Hmain.
  { unfold main. cbn [Z.eqb Pos.eqb negb]. rewrite Hmalloc, Hrun. cbn [obind].
    rewrite Hblk, Hsize, Hperm, written_holds, <- Hperm. cbn [obind]. fold s.
    set (junk := drop _ _).
    destruct (calculate_median_junk s [] junk Hlen) as (? & Hd1 & Hd2).
    destruct (calculate_mode_junk s [] junk Hs) as (? & Ho1 & Ho2).
    rewrite calculate_mean_eq. cbn [obind]. fold v.
    rewrite Hd2, <- Hd1, Hmedian. cbn [obind].
    rewrite Ho2, <- Ho1, Hmode. cbn [obind].
    rewrite !calculate_stddev_eq.
    destruct (babylonian_sqrt fuel _); cbn [obind]; [|done..].
    rewrite calculate_harmonic_mean_eq. cbn [obind]. fold hm.
    unfold free. cbn [heap alloc_ok]. rewrite lookup_insert_eq. cbn [obind].
    rewrite delete_insert_eq, Hleak, Hcap. cbn [heap w1].
    rewrite delete_insert_eq, delete_id by done. by rewrite Hperm. }
  rewrite Hmain.
  destruct (calculate_stddev fuel (holds s []) (Z.of_nat (length s)) v) eqn:Hsd;
    cbn [obind]; [rewrite Hperm; by eexists| |done].
  rewrite calculate_stddev_eq in Hsd.
  by apply babylonian_loop_never_undefined in Hsd.
Qed.

(** X17. Whenever [main] returns, whatever the allocator did, every block it
    allocated has been released and no other block was touched; and the
    exit status is [EXIT_SUCCESS] exactly when the results were handed to
    [print_results]. *)
Theorem main_releases_memory (fuel : nat) (argc : Z)
    (file : option (list double)) (w w' : world) (status : exit_status)
    (results : option report) :
  main qsort fuel argc file w = Ret (status, results, w') ->
  heap w' = heap w /\ (status = EXIT_SUCCESS <-> is_Some results).
Proof.
  unfold main. intros Hrun.
  assert (EXIT_FAILURE = EXIT_SUCCESS <-> is_Some (@None report)) as Hno.
  { split; [done|]. by intros [? ?]. }
  destruct (negb (argc =? 2)); [by injection Hrun as <- <- <-|].
  destruct (malloc 20 w) as [[p|] w1] eqn:Hmalloc; apply malloc_heap in Hmalloc;
    [|by injection Hrun as <- <- <-].
  destruct Hmalloc as [Hfresh Hw1].
  assert (delete p (heap w1) = heap w) as Hdel
    by (by rewrite Hw1, delete_insert_eq, delete_id).
  destruct file as [input|].
  2:{ unfold free in Hrun. rewrite Hw1, lookup_insert_eq in Hrun.
      injection Hrun as <- <- <-. cbn [heap].
      by rewrite delete_insert_eq, delete_id. }
  assert (buffer_inv (Buffer p 0 20) w1 []) as Hinv.
  { unfold buffer_inv. cbn [data size capacity].
    rewrite Hw1, lookup_insert_eq. repeat split; done. }
  destruct (main_loop input (Buffer p 0 20) w1) as [[[ob unread] w2]| |]
    eqn:Hloop; [|done..].
  cbn [obind] in Hrun.
  pose proof (main_loop_heap input _ w1 [] ob unread w2 Hinv Hloop) as Hheap.
  cbn [data] in Hheap.
  destruct ob as [b|]; [|injection Hrun as <- <- <-; split; [congruence|done]].
  destruct Hheap as [_ Hleak].
  destruct (heap w2 !! data b) as [blk|]; [|done].
  destruct (written blk (size b)) as [l| |]; [|done..]. cbn [obind] in Hrun.
  destruct (calculate_mean _ _) as [mean| |]; [|done..]. cbn [obind] in Hrun.
  destruct (calculate_median _ _) as [median| |]; [|done..]. cbn [obind] in Hrun.
  destruct (calculate_mode _ _) as [mode| |]; [|done..]. cbn [obind] in Hrun.
  destruct (calculate_stddev _ _ _ _) as [stddev| |]; [|done..].
  cbn [obind] in Hrun.
  destruct (calculate_harmonic_mean _ _) as [hm| |]; [|done..].
  cbn [obind] in Hrun.
  unfold free in Hrun. cbn [heap alloc_ok] in Hrun.
  rewrite lookup_insert_eq in Hrun. injection Hrun as <- <- <-.
  cbn [heap]. split; [by rewrite delete_insert_eq, Hleak|].
  split; [by eexists|done].
Qed.

End MainRuns.

Lemma main_early_exits_witness :
  main (fun _ l => l) 0 1 None (World ∅ []) = Ret (EXIT_FAILURE, None, World ∅ [])
  /\ main (fun _ l => l) 0 2 None (World ∅ [false])
     = Ret (EXIT_FAILURE, None, World ∅ [])
  /\ main (fun _ l => l) 0 2 None (World ∅ [true])
     = Ret (EXIT_FAILURE, None, World ∅ []).
Proof.
  split; [|split].
  - exact (proj1 (main_early_exits (fun _ l => l) 0 1 None (World ∅ []))
             ltac:(done)).
  - exact (proj1 (proj2 (main_early_exits (fun _ l => l) 0 2 None
                           (World ∅ [false]))) [] eq_refl).
  - exact (proj2 (proj2 (main_early_exits (fun _ l => l) 0 2 None
                           (World ∅ [true]))) ltac:(done)).
Defined.

Lemma main_empty_input_witness :
  head (alloc_ok (World ∅ [])) <> Some false
  /\ main (fun _ l => l) 0 2 (Some []) (World ∅ []) = Undefined.
Proof.
  split; [done|].
  exact (main_empty_input (fun _ l => l) 0 (World ∅ []) ltac:(done)).
Defined.

Lemma main_reports_witness :
  never_fails (World ∅ [])
  /\ exists results w',
       main (fun _ l => l) 100 2 (Some [1; 2; 4]%float) (World ∅ [])
       = Ret (EXIT_SUCCESS, Some results, w')
       /\ r_size results = 3 /\ r_capacity results = 20 /\ heap w' = ∅.
Proof.
  assert (never_fails (World ∅ [])) as Hok by constructor.
  split; [done|].
  destruct (main_reports (fun _ l => l) 100 [1; 2; 4]%float (World ∅ []) Hok
              ltac:(done) ltac:(by vm_compute) eq_refl)
    as (mean & median & mode & hm & Hmean & _ & _ & _ & Hrun).
  vm_compute in Hmean. injection Hmean as <-.
  destruct (calculate_stddev 100 _ _ _) as [stddev| |] eqn:Hsd in Hrun;
    [|done|by vm_compute in Hsd].
  destruct Hrun as (w' & Hrun & Hheap).
  eexists _, w'. split; [exact Hrun|]. by repeat split.
Defined.

Lemma main_releases_memory_witness :
  exists status results w',
    main (fun _ l => l) 100 2 (Some [1; 2; 4]%float) (World ∅ [true; false])
    = Ret (status, results, w')
    /\ heap w' = ∅ /\ (status = EXIT_SUCCESS <-> is_Some results).
Proof.
  destruct (main (fun _ l => l) 100 2 (Some [1; 2; 4]%float)
              (World ∅ [true; false]))
    as [[[status results] w']| |] eqn:Hrun; [|by vm_compute in Hrun..].
  exists status, results, w'. split; [reflexivity|].
  exact (main_releases_memory (fun _ l => l) 100 2 (Some [1; 2; 4]%float)
           (World ∅ [true; false]) w' status results Hrun).
Defined.
